(** * Region-merging core of the haptic point-cloud segmentation

    A shallow embedding of [src/clustering.cpp] (class [Clustering]) and the
    properties of its distance kernels, its configuration setters and its
    merge engine.

    Conventions.
    - A C++ [float] is an element of a type [T] carrying the operations of the
      class [Scalar] below.  Every function of the source is translated once,
      over an arbitrary [Scalar]; it is then read at two instances: the real
      numbers [R] (exact arithmetic, rounding ignored) and IEEE-754 binary32
      ([spec_float] with 24 bits of precision), where division by zero and
      NaN behave as on the machine.  Algebraic properties are stated over
      [R], away from divisions by zero; what the code does on a division by
      zero is stated in binary32.
    - [uint32_t] region labels are [N]; no arithmetic is performed on them.
      [short] values are [Z].
    - [std::map<uint32_t, Supervoxel::Ptr>] is a [gmap N Supervoxel].  The
      regions are never mutated through an alias by the modelled methods
      ([merge] allocates a fresh region), so pointers are read as values.
    - [std::multimap<K, V>] is the list of its entries in iteration order.
    - A C++ exception, or an operation whose behaviour the language leaves
      undefined, ends a call with [Abort]; a method of the class is a function
      from the object before the call to the outcome and the object after it. *)

From Stdlib Require Import ZArith Reals Lra Lia List Permutation.
From Stdlib Require Import Floats.SpecFloat.
From stdpp Require Import base option list gmap sorting.

(** ** Scalars *)

Class Scalar (T : Type) := {
  of_Z : Z → T;                (* conversion of an integer value *)
  half : T;                    (* the literal 0.5 *)
  fadd : T → T → T;
  fsub : T → T → T;
  fmul : T → T → T;
  fdiv : T → T → T;
  fsqrt : T → T;
  fabs : T → T;
  flt : T → T → bool;          (* a < b *)
  fle : T → T → bool;          (* a <= b *)
  feq : T → T → bool;          (* a == b *)
  ffloor : T → option Z        (* std::floor as an integer; None if not finite *)
}.

Definition fge {T} `{Scalar T} (a b : T) : bool := fle b a.

(** *** Exact arithmetic *)

Definition Rltb (a b : R) : bool := if Rlt_dec a b then true else false.
Definition Rleb (a b : R) : bool := if Rle_dec a b then true else false.
Definition Reqb (a b : R) : bool := if Req_dec_T a b then true else false.

#[export] Instance R_scalar : Scalar R := {|
  of_Z := IZR;
  half := (1 / 2)%R;
  fadd := Rplus;
  fsub := Rminus;
  fmul := Rmult;
  fdiv := Rdiv;
  fsqrt := sqrt;
  fabs := Rabs;
  flt := Rltb;
  fle := Rleb;
  feq := Reqb;
  ffloor := λ x, Some (Int_part x)
|}.

(** *** IEEE-754 binary32 *)

Module B32.

Definition prec : Z := 24.
Definition emax : Z := 128.

Definition of_Z (z : Z) : spec_float := binary_normalize prec emax z 0 false.

Definition floor (x : spec_float) : option Z :=
  match x with
  | S754_zero _ => Some 0%Z
  | S754_finite s m e =>
      let v := cond_Zopp s (Zpos m) in
      Some (match e with
            | Z0 => v
            | Zpos p => v * 2 ^ Zpos p
            | Zneg p => v / 2 ^ Zpos p
            end)%Z
  | S754_infinity _ | S754_nan => None
  end.

Definition is_finite (x : spec_float) : bool :=
  match x with S754_zero _ | S754_finite _ _ _ => true | _ => false end.

End B32.

#[export] Instance b32_scalar : Scalar spec_float := {|
  of_Z := B32.of_Z;
  half := S754_finite false 8388608 (-24);
  fadd := SFadd B32.prec B32.emax;
  fsub := SFsub B32.prec B32.emax;
  fmul := SFmul B32.prec B32.emax;
  fdiv := SFdiv B32.prec B32.emax;
  fsqrt := SFsqrt B32.prec B32.emax;
  fabs := SFabs;
  flt := SFltb;
  fle := SFleb;
  feq := SFeqb;
  ffloor := B32.floor
|}.

(** ** Outcomes of a call *)

Inductive failure :=
  | logic_error            (* std::logic_error *)
  | invalid_argument       (* std::invalid_argument *)
  | out_of_range           (* std::out_of_range, thrown by [at] *)
  | undefined_behaviour.   (* out-of-bounds index, unrepresentable conversion *)

Inductive result (A : Type) :=
  | Ok (a : A)
  | Abort (f : failure).
Arguments Ok {A} a.
Arguments Abort {A} f.

#[export] Instance result_ret : MRet result := λ A a, Ok a.
#[export] Instance result_bind : MBind result := λ A B k m,
  match m with Ok a => k a | Abort f => Abort f end.

Definition is_ok {A} (m : result A) : bool :=
  match m with Ok _ => true | Abort _ => false end.

(** ** Containers *)

(** [std::map::at]. *)
Definition map_at {K V} `{Countable K} (m : gmap K V) (k : K) : result V :=
  match m !! k with
  | Some v => Ok v
  | None => Abort out_of_range
  end.

(** [std::map::insert]: an existing entry is kept. *)
Definition map_insert {K V} `{Countable K} (k : K) (v : V) (m : gmap K V)
  : gmap K V :=
  match m !! k with
  | Some _ => m
  | None => <[k := v]> m
  end.

Section Multimap.
Context {T : Type} `{Scalar T} {V : Type}.

(** [std::multimap<float, V>::insert]: the entry goes to the upper bound of
    its key, after the entries whose key is not greater. *)
Fixpoint mm_insert (k : T) (v : V) (l : list (T * V)) : list (T * V) :=
  match l with
  | [] => [(k, v)]
  | (k', v') :: l' =>
      if flt k k' then (k, v) :: l else (k', v') :: mm_insert k v l'
  end.

(** [std::multiset<float>::insert]. *)
Fixpoint ms_insert (k : T) (l : list T) : list T :=
  match l with
  | [] => [k]
  | k' :: l' => if flt k k' then k :: l else k' :: ms_insert k l'
  end.
End Multimap.

(** ** Data model *)

Inductive ColorDistance := LAB_CIEDE00 | RGB_EUCL.
Inductive GeometricDistance := NORMALS_DIFF | CONVEX_NORMALS_DIFF.
Inductive HapticDistance := AVERAGE_FRICTION.
Inductive MergingCriterion := MANUAL_LAMBDA | ADAPTIVE_LAMBDA | EQUALIZATION.

#[export] Instance MergingCriterion_eq_dec : EqDecision MergingCriterion.
Proof. solve_decision. Defined.

Section DataModel.
Context {T : Type}.

Definition Vec3 : Type := T * T * T.
Definition Vec4 : Type := T * T * T * T.

(** [PointT]: a position and an 8-bit colour. *)
Record PointT := {
  pt_x : T; pt_y : T; pt_z : T;
  pt_r : N; pt_g : N; pt_b : N
}.

Record Normal := {
  normal_x : T; normal_y : T; normal_z : T;
  curvature : T
}.

(** [pcl::PointXYZI]: a friction sample, the coefficient in [intensity]. *)
Record PointXYZI := {
  fs_x : T; fs_y : T; fs_z : T;
  intensity : T
}.

Record Supervoxel := {
  voxels_ : list PointT;
  normals_ : list Normal;
  centroid_ : PointT;
  normal_ : Normal;
  frictions_ : list PointXYZI;
  friction_ : T;
  friction_variance_ : T;
  mean_ : Vec4
}.

Definition getVector3fMap (p : PointT) : Vec3 := (pt_x p, pt_y p, pt_z p).
Definition getNormalVector3fMap (n : Normal) : Vec3 :=
  (normal_x n, normal_y n, normal_z n).

(** [ClusteringT] is [gmap N Supervoxel]; [WeightMapT], a multimap from a
    weight to a pair of labels, is [list (T * (N * N))]; [AdjacencyMapT] is
    [list (N * N)] and [DeltasDistribT], a multiset of values, [list T]. *)
Record ClusteringState := {
  segments : gmap N Supervoxel;
  weight_map : list (T * (N * N))
}.

Record Clustering := {
  delta_c_type : ColorDistance;
  delta_g_type : GeometricDistance;
  delta_h_type : HapticDistance;
  merging_type : MergingCriterion;
  lambda_c : T;
  lambda_g : T;
  bins_num : Z;
  cdf_c : gmap Z T;
  cdf_g : gmap Z T;
  cdf_h : gmap Z T;
  set_initial_state : bool;
  init_initial_weights : bool;
  initial_state : ClusteringState;
  state : ClusteringState
}.

(** Assignments to one member of the object. *)
Definition with_delta_g (g : GeometricDistance) (c : Clustering) :=
  {| delta_c_type := delta_c_type c; delta_g_type := g;
     delta_h_type := delta_h_type c; merging_type := merging_type c;
     lambda_c := lambda_c c; lambda_g := lambda_g c;
     bins_num := bins_num c;
     cdf_c := cdf_c c; cdf_g := cdf_g c; cdf_h := cdf_h c;
     set_initial_state := set_initial_state c;
     init_initial_weights := init_initial_weights c;
     initial_state := initial_state c; state := state c |}.

Definition with_merging_type (m : MergingCriterion) (c : Clustering) :=
  {| delta_c_type := delta_c_type c; delta_g_type := delta_g_type c;
     delta_h_type := delta_h_type c; merging_type := m;
     lambda_c := lambda_c c; lambda_g := lambda_g c;
     bins_num := bins_num c;
     cdf_c := cdf_c c; cdf_g := cdf_g c; cdf_h := cdf_h c;
     set_initial_state := set_initial_state c;
     init_initial_weights := init_initial_weights c;
     initial_state := initial_state c; state := state c |}.

Definition with_lambda_c (l : T) (c : Clustering) :=
  {| delta_c_type := delta_c_type c; delta_g_type := delta_g_type c;
     delta_h_type := delta_h_type c; merging_type := merging_type c;
     lambda_c := l; lambda_g := lambda_g c;
     bins_num := bins_num c;
     cdf_c := cdf_c c; cdf_g := cdf_g c; cdf_h := cdf_h c;
     set_initial_state := set_initial_state c;
     init_initial_weights := init_initial_weights c;
     initial_state := initial_state c; state := state c |}.

Definition with_lambda_g (l : T) (c : Clustering) :=
  {| delta_c_type := delta_c_type c; delta_g_type := delta_g_type c;
     delta_h_type := delta_h_type c; merging_type := merging_type c;
     lambda_c := lambda_c c; lambda_g := l;
     bins_num := bins_num c;
     cdf_c := cdf_c c; cdf_g := cdf_g c; cdf_h := cdf_h c;
     set_initial_state := set_initial_state c;
     init_initial_weights := init_initial_weights c;
     initial_state := initial_state c; state := state c |}.

Definition with_bins_num (b : Z) (c : Clustering) :=
  {| delta_c_type := delta_c_type c; delta_g_type := delta_g_type c;
     delta_h_type := delta_h_type c; merging_type := merging_type c;
     lambda_c := lambda_c c; lambda_g := lambda_g c;
     bins_num := b;
     cdf_c := cdf_c c; cdf_g := cdf_g c; cdf_h := cdf_h c;
     set_initial_state := set_initial_state c;
     init_initial_weights := init_initial_weights c;
     initial_state := initial_state c; state := state c |}.

Definition with_cdf_c (m : gmap Z T) (c : Clustering) :=
  {| delta_c_type := delta_c_type c; delta_g_type := delta_g_type c;
     delta_h_type := delta_h_type c; merging_type := merging_type c;
     lambda_c := lambda_c c; lambda_g := lambda_g c;
     bins_num := bins_num c;
     cdf_c := m; cdf_g := cdf_g c; cdf_h := cdf_h c;
     set_initial_state := set_initial_state c;
     init_initial_weights := init_initial_weights c;
     initial_state := initial_state c; state := state c |}.

Definition with_cdf_g (m : gmap Z T) (c : Clustering) :=
  {| delta_c_type := delta_c_type c; delta_g_type := delta_g_type c;
     delta_h_type := delta_h_type c; merging_type := merging_type c;
     lambda_c := lambda_c c; lambda_g := lambda_g c;
     bins_num := bins_num c;
     cdf_c := cdf_c c; cdf_g := m; cdf_h := cdf_h c;
     set_initial_state := set_initial_state c;
     init_initial_weights := init_initial_weights c;
     initial_state := initial_state c; state := state c |}.

Definition with_cdf_h (m : gmap Z T) (c : Clustering) :=
  {| delta_c_type := delta_c_type c; delta_g_type := delta_g_type c;
     delta_h_type := delta_h_type c; merging_type := merging_type c;
     lambda_c := lambda_c c; lambda_g := lambda_g c;
     bins_num := bins_num c;
     cdf_c := cdf_c c; cdf_g := cdf_g c; cdf_h := m;
     set_initial_state := set_initial_state c;
     init_initial_weights := init_initial_weights c;
     initial_state := initial_state c; state := state c |}.

Definition with_set_initial_state (b : bool) (c : Clustering) :=
  {| delta_c_type := delta_c_type c; delta_g_type := delta_g_type c;
     delta_h_type := delta_h_type c; merging_type := merging_type c;
     lambda_c := lambda_c c; lambda_g := lambda_g c;
     bins_num := bins_num c;
     cdf_c := cdf_c c; cdf_g := cdf_g c; cdf_h := cdf_h c;
     set_initial_state := b;
     init_initial_weights := init_initial_weights c;
     initial_state := initial_state c; state := state c |}.

Definition with_init_initial_weights (b : bool) (c : Clustering) :=
  {| delta_c_type := delta_c_type c; delta_g_type := delta_g_type c;
     delta_h_type := delta_h_type c; merging_type := merging_type c;
     lambda_c := lambda_c c; lambda_g := lambda_g c;
     bins_num := bins_num c;
     cdf_c := cdf_c c; cdf_g := cdf_g c; cdf_h := cdf_h c;
     set_initial_state := set_initial_state c;
     init_initial_weights := b;
     initial_state := initial_state c; state := state c |}.

Definition with_initial_state (s : ClusteringState) (c : Clustering) :=
  {| delta_c_type := delta_c_type c; delta_g_type := delta_g_type c;
     delta_h_type := delta_h_type c; merging_type := merging_type c;
     lambda_c := lambda_c c; lambda_g := lambda_g c;
     bins_num := bins_num c;
     cdf_c := cdf_c c; cdf_g := cdf_g c; cdf_h := cdf_h c;
     set_initial_state := set_initial_state c;
     init_initial_weights := init_initial_weights c;
     initial_state := s; state := state c |}.

Definition with_state (s : ClusteringState) (c : Clustering) :=
  {| delta_c_type := delta_c_type c; delta_g_type := delta_g_type c;
     delta_h_type := delta_h_type c; merging_type := merging_type c;
     lambda_c := lambda_c c; lambda_g := lambda_g c;
     bins_num := bins_num c;
     cdf_c := cdf_c c; cdf_g := cdf_g c; cdf_h := cdf_h c;
     set_initial_state := set_initial_state c;
     init_initial_weights := init_initial_weights c;
     initial_state := initial_state c; state := s |}.

Definition with_segments (m : gmap N Supervoxel) (s : ClusteringState) :=
  {| segments := m; weight_map := weight_map s |}.

Definition with_weight_map (w : list (T * (N * N))) (s : ClusteringState) :=
  {| segments := segments s; weight_map := w |}.
End DataModel.

Arguments PointT : clear implicits.
Arguments Normal : clear implicits.
Arguments PointXYZI : clear implicits.
Arguments Supervoxel : clear implicits.
Arguments ClusteringState : clear implicits.
Arguments Clustering : clear implicits.
Arguments Vec3 : clear implicits.
Arguments Vec4 : clear implicits.

(** A method of [Clustering]: the outcome and the object after the call. *)
Definition Method (T A : Type) : Type := Clustering T → result A * Clustering T.

(** ** Collaborators outside the translated file

    The colour utilities, the three PCL/Eigen routines used on a merged region
    and the default-constructed region are not part of [clustering.cpp]; they
    are parameters of the development. *)

Class External (T : Type) := {
  mean_color : Supervoxel T → Vec3 T;
  rgb2lab : Vec3 T → Vec3 T;
  lab_ciede00 : Vec3 T → Vec3 T → T;
  rgb_eucl : Vec3 T → Vec3 T → T;
  LAB_RANGE : T;
  RGB_RANGE : T;
  computePointNormal : list (PointT T) → Vec4 T * T;
  flipNormalTowardsViewpoint : PointT T → T → T → T → Vec4 T → Vec4 T;
  normalize : Vec4 T → Vec4 T;
  default_Supervoxel : Supervoxel T
}.

(** ** Distance kernels *)

Section Kernels.
Context {T : Type} `{Scalar T} `{External T}.

Definition vsub (a b : Vec3 T) : Vec3 T :=
  let '(a0, a1, a2) := a in
  let '(b0, b1, b2) := b in
  (fsub a0 b0, fsub a1 b1, fsub a2 b2).

Definition dot (a b : Vec3 T) : T :=
  let '(a0, a1, a2) := a in
  let '(b0, b1, b2) := b in
  fadd (fadd (fmul a0 b0) (fmul a1 b1)) (fmul a2 b2).

Definition cross (a b : Vec3 T) : Vec3 T :=
  let '(a0, a1, a2) := a in
  let '(b0, b1, b2) := b in
  (fsub (fmul a1 b2) (fmul a2 b1),
   fsub (fmul a2 b0) (fmul a0 b2),
   fsub (fmul a0 b1) (fmul a1 b0)).

Definition norm (a : Vec3 T) : T := fsqrt (dot a a).

(** [C /= s]. *)
Definition vdiv (a : Vec3 T) (s : T) : Vec3 T :=
  let '(a0, a1, a2) := a in (fdiv a0 s, fdiv a1 s, fdiv a2 s).

(** The unit vector from the second centroid to the first, as both kernels
    form it: [C = C1 - C2; C /= C.norm()]. *)
Definition centroid_direction (centroid1 centroid2 : PointT T) : Vec3 T :=
  let C := vsub (getVector3fMap centroid1) (getVector3fMap centroid2) in
  vdiv C (norm C).

(** [Clustering::is_convex] (lines 57-71): [cos1 >= cos2]. *)
Definition is_convex (norm1 : Normal T) (centroid1 : PointT T)
    (norm2 : Normal T) (centroid2 : PointT T) : bool :=
  let N1 := getNormalVector3fMap norm1 in
  let N2 := getNormalVector3fMap norm2 in
  let C := centroid_direction centroid1 centroid2 in
  let cos1 := dot N1 C in
  let cos2 := dot N2 C in
  fge cos1 cos2.

(** [Clustering::normals_diff] (lines 83-100). *)
Definition normals_diff (norm1 : Normal T) (centroid1 : PointT T)
    (norm2 : Normal T) (centroid2 : PointT T) : T :=
  let N1 := getNormalVector3fMap norm1 in
  let N2 := getNormalVector3fMap norm2 in
  let C := centroid_direction centroid1 centroid2 in
  let N1xN2 := norm (cross N1 N2) in
  let N1_C := fabs (dot N1 C) in
  let N2_C := fabs (dot N2 C) in
  fdiv (fadd (fadd N1xN2 N1_C) N2_C) (of_Z 3).

(** [Clustering::delta_c_g_h] (lines 156-199). *)
Definition delta_c_g_h (c : Clustering T) (supvox1 supvox2 : Supervoxel T)
  : T * T * T :=
  let rgb1 := mean_color supvox1 in
  let rgb2 := mean_color supvox2 in
  let delta_c :=
    match delta_c_type c with
    | LAB_CIEDE00 =>
        fdiv (lab_ciede00 (rgb2lab rgb1) (rgb2lab rgb2)) LAB_RANGE
    | RGB_EUCL => fdiv (rgb_eucl rgb1 rgb2) RGB_RANGE
    end in
  let n1 := normal_ supvox1 in
  let n2 := normal_ supvox2 in
  let c1 := centroid_ supvox1 in
  let c2 := centroid_ supvox2 in
  let delta_g :=
    match delta_g_type c with
    | NORMALS_DIFF => normals_diff n1 c1 n2 c2
    | CONVEX_NORMALS_DIFF =>
        let d := normals_diff n1 c1 n2 c2 in
        if is_convex n1 c1 n2 c2 then fmul d half else d
    end in
  let f1 := friction_ supvox1 in
  let f2 := friction_ supvox2 in
  let delta_h :=
    match delta_h_type c with
    | AVERAGE_FRICTION => fabs (fsub f1 f2)
    end in
  (delta_c, delta_g, delta_h).

(** *** Unification of the three distances *)

(** Conversion of a value to [short]; values outside the type have no
    defined conversion from [float]. *)
Definition to_short (z : Z) : result Z :=
  if ((-32768 <=? z) && (z <=? 32767))%Z then Ok z
  else Abort undefined_behaviour.

(** [short bin = std::floor(d * bins_num); if (bin == bins_num) bin--;] *)
Definition bin_of (c : Clustering T) (d : T) : result Z :=
  match ffloor (fmul d (of_Z (bins_num c))) with
  | None => Abort undefined_behaviour
  | Some z =>
      bin ← to_short z;
      if (bin =? bins_num c)%Z
      then Ok ((bin - 1 + 32768) `mod` 65536 - 32768)%Z
      else Ok bin
  end.

Definition equalize (c : Clustering T) (cdf : gmap Z T) (d : T) : result T :=
  bin ← bin_of c d;
  v ← map_at cdf bin;
  Ok (fdiv v (of_Z 3)).

(** [Clustering::t_c], [t_g] and [t_h] (lines 558-644). *)
Definition t_c (c : Clustering T) (delta_c : T) : result T :=
  match merging_type c with
  | MANUAL_LAMBDA => Ok (fmul (lambda_c c) delta_c)
  | ADAPTIVE_LAMBDA => Ok (fmul (lambda_c c) delta_c)
  | EQUALIZATION => equalize c (cdf_c c) delta_c
  end.

Definition t_g (c : Clustering T) (delta_g : T) : result T :=
  match merging_type c with
  | MANUAL_LAMBDA => Ok (fmul (lambda_g c) delta_g)
  | ADAPTIVE_LAMBDA => Ok (fmul (lambda_g c) delta_g)
  | EQUALIZATION => equalize c (cdf_g c) delta_g
  end.

Definition t_h (c : Clustering T) (delta_h : T) : result T :=
  let w := fsub (fsub (of_Z 1) (lambda_c c)) (lambda_g c) in
  match merging_type c with
  | MANUAL_LAMBDA => Ok (fmul w delta_h)
  | ADAPTIVE_LAMBDA => Ok (fmul w delta_h)
  | EQUALIZATION => equalize c (cdf_h c) delta_h
  end.

(** [t_c(d[0]) + t_g(d[1]) + t_h(d[2])]. *)
Definition unify (c : Clustering T) (deltas : T * T * T) : result T :=
  let '(dc, dg, dh) := deltas in
  tc ← t_c c dc;
  tg ← t_g c dg;
  th ← t_h c dh;
  Ok (fadd (fadd tc tg) th).

(** [Clustering::delta] (lines 209-218). *)
Definition delta (c : Clustering T) (supvox1 supvox2 : Supervoxel T)
  : result T :=
  unify c (delta_c_g_h c supvox1 supvox2).
End Kernels.

(** ** The merge engine *)

Section Engine.
Context {T : Type} `{Scalar T} `{External T}.

(** *** Merging two regions *)

(** A default-constructed [PointT]. *)
Definition default_PointT : PointT T :=
  {| pt_x := of_Z 0; pt_y := of_Z 0; pt_z := of_Z 0;
     pt_r := 0; pt_g := 0; pt_b := 0 |}.

Definition fsum (l : list T) : T := foldl fadd (of_Z 0) l.

Definition size_as_float {A} (l : list A) : T := of_Z (Z.of_nat (length l)).

(** PCL's [computeCentroid(cloud, centroid)]: every field is averaged over
    the cloud; an empty cloud leaves [centroid] as it was. *)
Definition computeCentroid (cloud : list (PointT T)) (centroid : PointT T)
  : PointT T :=
  match cloud with
  | [] => centroid
  | _ :: _ =>
      let n := size_as_float cloud in
      let k := N.of_nat (length cloud) in
      {| pt_x := fdiv (fsum (pt_x <$> cloud)) n;
         pt_y := fdiv (fsum (pt_y <$> cloud)) n;
         pt_z := fdiv (fsum (pt_z <$> cloud)) n;
         pt_r := (foldr N.add 0 (pt_r <$> cloud) / k)%N;
         pt_g := (foldr N.add 0 (pt_g <$> cloud) / k)%N;
         pt_b := (foldr N.add 0 (pt_b <$> cloud) / k)%N |}
  end.

(** The normal of a merged region: plane fit, flip towards the origin,
    fourth component cleared, renormalised. *)
Definition merged_normal (voxels : list (PointT T)) (centroid : PointT T)
  : Normal T :=
  let '(new_norm, new_curv) := computePointNormal voxels in
  let '(n0, n1, n2, _) :=
    flipNormalTowardsViewpoint centroid (of_Z 0) (of_Z 0) (of_Z 0) new_norm in
  let '(m0, m1, m2, _) := normalize (n0, n1, n2, of_Z 0) in
  {| normal_x := m0; normal_y := m1; normal_z := m2; curvature := new_curv |}.

(** The friction coefficient given to the union of two regions
    (lines 695-717). *)
Definition merged_friction (sup1 sup2 : Supervoxel T) : T :=
  let frictions := frictions_ sup1 ++ frictions_ sup2 in
  match frictions with
  | _ :: _ =>
      fdiv (fadd (fmul (size_as_float (frictions_ sup1)) (friction_ sup1))
                 (fmul (size_as_float (frictions_ sup2)) (friction_ sup2)))
           (size_as_float frictions)
  | [] => fdiv (fadd (friction_ sup1) (friction_ sup2)) (of_Z 2)
  end.

(** The region [sup_new] that [merge] builds from [sup1] and [sup2]
    (lines 674-717); the members that [merge] does not assign keep the value
    of a default-constructed region. *)
Definition merged_supervoxel (sup1 sup2 : Supervoxel T) : Supervoxel T :=
  let voxels := voxels_ sup1 ++ voxels_ sup2 in
  let centroid := computeCentroid voxels default_PointT in
  {| voxels_ := voxels;
     normals_ := normals_ sup1 ++ normals_ sup2;
     centroid_ := centroid;
     normal_ := merged_normal voxels centroid;
     frictions_ := frictions_ sup1 ++ frictions_ sup2;
     friction_ := merged_friction sup1 sup2;
     friction_variance_ := friction_variance_ default_Supervoxel;
     mean_ := mean_ default_Supervoxel |}.

(** [Clustering::contains] (lines 794-803). *)
Definition contains (w : list (T * (N * N))) (i1 i2 : N) : bool :=
  existsb (λ e, (e.2.1 =? i1)%N && (e.2.2 =? i2)%N) w.

(** [if (!contains(new_map, ids)) new_map.insert({delta(at ids.1, at ids.2), ids})]. *)
Definition insert_reweighted (c : Clustering T) (segs : gmap N (Supervoxel T))
    (curr_ids : N * N) (new_map : list (T * (N * N)))
  : result (list (T * (N * N))) :=
  if contains new_map curr_ids.1 curr_ids.2 then Ok new_map
  else
    s1 ← map_at segs curr_ids.1;
    s2 ← map_at segs curr_ids.2;
    w ← delta c s1 s2;
    Ok (mm_insert w curr_ids new_map).

(** One turn of the loop of [merge] over the old weight map (lines 733-764). *)
Definition merge_visit (c : Clustering T) (segs : gmap N (Supervoxel T))
    (supvox_ids : N * N) (it : T * (N * N)) (new_map : list (T * (N * N)))
  : result (list (T * (N * N))) :=
  let curr_ids := it.2 in
  if (curr_ids.1 =? supvox_ids.1)%N || (curr_ids.2 =? supvox_ids.1)%N then
    insert_reweighted c segs curr_ids new_map
  else if (curr_ids.1 =? supvox_ids.2)%N then
    insert_reweighted c segs (supvox_ids.1, curr_ids.2) new_map
  else if (curr_ids.2 =? supvox_ids.2)%N then
    let curr_ids' :=
      if (curr_ids.1 <? supvox_ids.1)%N then (curr_ids.1, supvox_ids.1)
      else (supvox_ids.1, curr_ids.1) in
    insert_reweighted c segs curr_ids' new_map
  else Ok (mm_insert it.1 it.2 new_map).

Fixpoint merge_rewrite (c : Clustering T) (segs : gmap N (Supervoxel T))
    (supvox_ids : N * N) (todo new_map : list (T * (N * N)))
  : result (list (T * (N * N))) :=
  match todo with
  | [] => Ok new_map
  | it :: todo' =>
      new_map' ← merge_visit c segs supvox_ids it new_map;
      merge_rewrite c segs supvox_ids todo' new_map'
  end.

(** [Clustering::merge] (lines 671-766).  The loop starts at the second
    entry of the weight map; the table of regions is updated before the loop,
    the weight map after it. *)
Definition merge (supvox_ids : N * N) : Method T unit := λ c,
  match map_at (segments (state c)) supvox_ids.1,
        map_at (segments (state c)) supvox_ids.2 with
  | Abort f, _ | _, Abort f => (Abort f, c)
  | Ok sup1, Ok sup2 =>
      let sup_new := merged_supervoxel sup1 sup2 in
      let segs :=
        map_insert supvox_ids.1 sup_new
          (delete supvox_ids.2 (delete supvox_ids.1 (segments (state c)))) in
      let c1 := with_state (with_segments segs (state c)) c in
      match weight_map (state c) with
      | [] => (Abort undefined_behaviour, c1)       (* ++it at end() *)
      | _ :: rest =>
          match merge_rewrite c1 segs supvox_ids rest [] with
          | Abort f => (Abort f, c1)
          | Ok new_map =>
              (Ok (), with_state (with_weight_map new_map (state c1)) c1)
          end
      end
  end.

(** *** Setting the initial state *)

(** [Clustering::clear_adjacency] (lines 773-783): the entries with
    [first > second] are erased. *)
Definition clear_adjacency (adjacency : list (N * N)) : list (N * N) :=
  filter (λ e, ¬ (e.2 < e.1)%N) adjacency.

(** [Clustering::adj2weight] (lines 249-262): every weight is -1. *)
Definition adj2weight (adj_map : list (N * N)) : list (T * (N * N)) :=
  foldl (λ w_map e, mm_insert (of_Z (-1)) e w_map) [] adj_map.

(** [set_initialstate(ClusteringT segm, AdjacencyMapT adj)] (lines 932-939). *)
Definition set_initialstate (segm : gmap N (Supervoxel T))
    (adj : list (N * N)) : Method T unit := λ c,
  let adj := clear_adjacency adj in
  let init_state := {| segments := segm; weight_map := adj2weight adj |} in
  (Ok (),
   with_init_initial_weights false
     (with_set_initial_state true
        (with_state init_state (with_initial_state init_state c)))).
End Engine.

(** ** Weight initialisation and the main loop *)

Section Lifecycle.
Context {T : Type} `{Scalar T} `{External T}.

(** [Clustering::deltas_mean] (lines 812-825): running mean of a
    distribution, in iteration order. *)
Definition deltas_mean (deltas : list T) : T :=
  (foldl (λ '(count, mean_d) d,
            let count := fadd count (of_Z 1) in
            (count, fadd mean_d (fmul (fdiv (of_Z 1) count) (fsub d mean_d))))
         (of_Z 0, of_Z 0) deltas).2.

(** [bins[bin]++] on an array of [length bins] counters. *)
Definition bump (bins : list Z) (bin : Z) : result (list Z) :=
  if ((0 <=? bin) && (bin <? Z.of_nat (length bins)))%Z then
    match bins !! Z.to_nat bin with
    | Some n => Ok (<[Z.to_nat bin := (n + 1)%Z]> bins)
    | None => Abort undefined_behaviour
    end
  else Abort undefined_behaviour.

Fixpoint fill_bins (c : Clustering T) (dist : list T) (bins : list Z)
  : result (list Z) :=
  match dist with
  | [] => Ok bins
  | d :: dist' =>
      bin ← bin_of c d;
      bins' ← bump bins bin;
      fill_bins c dist' bins'
  end.

(** The entry of the cdf for bin [i]: the counters up to [i], summed as
    floats and divided by the number of samples. *)
Definition cdf_entry (bins : list Z) (n : Z) (i : nat) : T :=
  fdiv (foldl (λ v b, fadd v (of_Z b)) (of_Z 0) (take (S i) bins)) (of_Z n).

(** [Clustering::compute_cdf] (lines 523-548). *)
Definition compute_cdf (c : Clustering T) (dist : list T)
  : result (gmap Z T) :=
  if (bins_num c <? 0)%Z then Abort undefined_behaviour
  else
    bins ← fill_bins c dist (replicate (Z.to_nat (bins_num c)) 0%Z);
    let n := Z.of_nat (length dist) in
    Ok (foldl (λ cdf i, map_insert (Z.of_nat i) (cdf_entry bins n i) cdf)
              ∅ (seq 0 (Z.to_nat (bins_num c)))).

(** [Clustering::init_merging_parameters] (lines 488-514). *)
Definition init_merging_parameters (deltas_c deltas_g deltas_h : list T)
  : Method T unit := λ c,
  match merging_type c with
  | MANUAL_LAMBDA => (Ok (), c)
  | ADAPTIVE_LAMBDA =>
      let mean_c := deltas_mean deltas_c in
      let mean_h := deltas_mean deltas_h in
      (Ok (),
       with_lambda_g (of_Z 0)
         (with_lambda_c (fdiv mean_h (fadd mean_c mean_h)) c))
  | EQUALIZATION =>
      match compute_cdf c deltas_c with
      | Abort f => (Abort f, c)
      | Ok cc =>
          let c1 := with_cdf_c cc c in
          match compute_cdf c1 deltas_g with
          | Abort f => (Abort f, c1)
          | Ok cg =>
              let c2 := with_cdf_g cg c1 in
              match compute_cdf c2 deltas_h with
              | Abort f => (Abort f, c2)
              | Ok ch => (Ok (), with_cdf_h ch c2)
              end
          end
      end
  end.

(** The first loop of [init_weights]: the three distances of every edge,
    cached by edge (the source keys the cache by the text "u-v", which
    determines the pair) and collected in three multisets. *)
Fixpoint collect_deltas (c : Clustering T) (segs : gmap N (Supervoxel T))
    (edges : list (T * (N * N)))
    (acc : gmap (N * N) (T * T * T) * list T * list T * list T)
  : result (gmap (N * N) (T * T * T) * list T * list T * list T) :=
  match edges with
  | [] => Ok acc
  | it :: edges' =>
      let '(temp_deltas, deltas_c, deltas_g, deltas_h) := acc in
      sup1 ← map_at segs it.2.1;
      sup2 ← map_at segs it.2.2;
      let deltas := delta_c_g_h c sup1 sup2 in
      collect_deltas c segs edges'
        (map_insert it.2 deltas temp_deltas,
         ms_insert deltas.1.1 deltas_c,
         ms_insert deltas.1.2 deltas_g,
         ms_insert deltas.2 deltas_h)
  end.

(** The second loop of [init_weights]. *)
Fixpoint reweight (c : Clustering T) (temp_deltas : gmap (N * N) (T * T * T))
    (edges w_new : list (T * (N * N))) : result (list (T * (N * N))) :=
  match edges with
  | [] => Ok w_new
  | it :: edges' =>
      deltas ← map_at temp_deltas it.2;
      d ← unify c deltas;
      reweight c temp_deltas edges' (mm_insert d it.2 w_new)
  end.

(** [Clustering::init_weights] (lines 439-479). *)
Definition init_weights : Method T unit := λ c,
  let edges := weight_map (initial_state c) in
  match collect_deltas c (segments (initial_state c)) edges (∅, [], [], []) with
  | Abort f => (Abort f, c)
  | Ok (temp_deltas, deltas_c, deltas_g, deltas_h) =>
      match init_merging_parameters deltas_c deltas_g deltas_h c with
      | (Abort f, c1) => (Abort f, c1)
      | (Ok _, c1) =>
          match reweight c1 temp_deltas edges [] with
          | Abort f => (Abort f, c1)
          | Ok w_new =>
              (Ok (),
               with_init_initial_weights true
                 (with_initial_state
                    (with_weight_map w_new (initial_state c1)) c1))
          end
      end
  end.

(** The loop of [cluster(start, threshold)] (lines 656-663).  Every merge removes at least
    the first edge, so [fuel] at least the number of edges is never used
    up (lemma [merge_loop_fuel] below). *)
Fixpoint merge_loop (fuel : nat) (threshold : T) : Method T unit := λ c,
  match weight_map (state c) with
  | [] => (Ok (), c)
  | next :: _ =>
      if flt next.1 threshold then
        match fuel with
        | O => (Ok (), c)
        | S fuel' =>
            match merge next.2 c with
            | (Abort f, c') => (Abort f, c')
            | (Ok _, c') => merge_loop fuel' threshold c'
            end
        end
      else (Ok (), c)
  end.

(** [cluster(ClusteringState start, float threshold)] (lines 652-664). *)
Definition cluster_from (start : ClusteringState T) (threshold : T)
  : Method T unit := λ c,
  merge_loop (length (weight_map start)) threshold (with_state start c).

(** [cluster(float threshold)] (lines 1057-1067). *)
Definition cluster (threshold : T) : Method T unit := λ c,
  if negb (set_initial_state c) then (Abort logic_error, c)
  else
    match (if negb (init_initial_weights c) then init_weights c
           else (Ok (), c)) with
    | (Abort f, c1) => (Abort f, c1)
    | (Ok _, c1) => cluster_from (initial_state c1) threshold c1
    end.

(** *** Configuration *)

(** [Clustering::set_merging] (lines 862-869). *)
Definition set_merging (m : MergingCriterion) : Method T unit := λ c,
  (Ok (),
   with_init_initial_weights false
     (with_bins_num 500 (with_lambda_c half (with_merging_type m c)))).

(** [Clustering::set_lambda] (lines 876-886). *)
Definition set_lambda (l : T * T) : Method T unit := λ c,
  if negb (bool_decide (merging_type c = MANUAL_LAMBDA))
  then (Abort logic_error, c)
  else if flt l.1 (of_Z 0) || flt (of_Z 1) l.1
          || flt l.2 (of_Z 0) || flt (of_Z 1) l.2
          || flt (of_Z 1) (fadd l.1 l.2)
  then (Abort invalid_argument, c)
  else (Ok (),
        with_init_initial_weights false (with_lambda_g l.2 (with_lambda_c l.1 c))).

(** [Clustering::set_bins_num] (lines 893-901). *)
Definition set_bins_num (b : Z) : Method T unit := λ c,
  if negb (bool_decide (merging_type c = EQUALIZATION))
  then (Abort logic_error, c)
  else if (b <? 0)%Z then (Abort invalid_argument, c)
  else (Ok (), with_init_initial_weights false (with_bins_num b c)).

(** *** Imputation of missing frictions *)

(** The last loop of [estimate_missing_frictions] (lines 409-425).  [gmr x] stands for the
    pair (predicted friction, predicted variance) that the regression of the
    fitted mixture returns for the mean colour [x]; the mixture and the
    regression belong to the class [GMM_GMR], outside the translated file. *)
Definition impute_friction (gmr : Vec3 T → T * T) (s : Supervoxel T)
  : Supervoxel T :=
  if feq (friction_ s) (of_Z 0) then
    let '(r, g, b, _) := mean_ s in
    let '(predicted, variance) := gmr (r, g, b) in
    let friction :=
      if fge predicted (of_Z 1) then fsub predicted variance else predicted in
    {| voxels_ := voxels_ s; normals_ := normals_ s;
       centroid_ := centroid_ s; normal_ := normal_ s;
       frictions_ := frictions_ s;
       friction_ := friction;
       friction_variance_ := variance;
       mean_ := mean_ s |}
  else s.

Definition estimate_missing_frictions (gmr : Vec3 T → T * T)
    (segmentation : gmap N (Supervoxel T)) : gmap N (Supervoxel T) :=
  impute_friction gmr <$> segmentation.
End Lifecycle.

(** ** Concrete inputs *)

Module Examples.
Section Generic.
Context {T : Type} `{Scalar T}.

Definition channel_mean (f : PointT T → N) (s : Supervoxel T) : T :=
  fdiv (foldl fadd (of_Z 0) ((λ p, of_Z (Z.of_N (f p))) <$> voxels_ s))
       (of_Z (Z.of_nat (length (voxels_ s)))).

Definition euclid (a b : Vec3 T) : T :=
  let '(a0, a1, a2) := a in
  let '(b0, b1, b2) := b in
  fsqrt (fadd (fadd (fmul (fsub a0 b0) (fsub a0 b0))
                    (fmul (fsub a1 b1) (fsub a1 b1)))
              (fmul (fsub a2 b2) (fsub a2 b2))).

(** An instance of the collaborators, to run the definitions: the mean
    colour and the Euclidean colour distance are the usual ones, the
    perceptual distance is replaced by the Euclidean one and the plane fit
    by a constant. *)
Definition sample_external : External T := {|
  mean_color := λ s, (channel_mean pt_r s, channel_mean pt_g s, channel_mean pt_b s);
  rgb2lab := λ v, v;
  lab_ciede00 := euclid;
  rgb_eucl := euclid;
  LAB_RANGE := of_Z 100;
  RGB_RANGE := of_Z 442;
  computePointNormal := λ _, ((of_Z 0, of_Z 0, of_Z 1, of_Z 0), of_Z 0);
  flipNormalTowardsViewpoint := λ _ _ _ _ n, n;
  normalize := λ n, n;
  default_Supervoxel :=
    {| voxels_ := []; normals_ := [];
       centroid_ := {| pt_x := of_Z 0; pt_y := of_Z 0; pt_z := of_Z 0;
                       pt_r := 0; pt_g := 0; pt_b := 0 |};
       normal_ := {| normal_x := of_Z 0; normal_y := of_Z 0;
                     normal_z := of_Z 0; curvature := of_Z 0 |};
       frictions_ := []; friction_ := of_Z 0;
       friction_variance_ := of_Z 0;
       mean_ := (of_Z 0, of_Z 0, of_Z 0, of_Z 0) |}
|}.

Definition point (x y z : Z) : PointT T :=
  {| pt_x := of_Z x; pt_y := of_Z y; pt_z := of_Z z;
     pt_r := 128; pt_g := 128; pt_b := 128 |}.

Definition along (x y z : Z) : Normal T :=
  {| normal_x := of_Z x; normal_y := of_Z y; normal_z := of_Z z;
     curvature := of_Z 0 |}.

Definition upward : Normal T := along 0 0 1.

Definition sample (x y z : Z) : PointXYZI T :=
  {| fs_x := of_Z x; fs_y := of_Z y; fs_z := of_Z z; intensity := half |}.

(** A region of one voxel at [(x, y, z)], with [k] friction samples and
    friction coefficient [f]. *)
Definition region (x y z : Z) (k : nat) (f : T) : Supervoxel T :=
  {| voxels_ := [point x y z]; normals_ := [upward];
     centroid_ := point x y z; normal_ := upward;
     frictions_ := replicate k (sample x y z);
     friction_ := f; friction_variance_ := of_Z 0;
     mean_ := (of_Z 128, of_Z 128, of_Z 128, f) |}.

Definition no_state : ClusteringState T :=
  {| segments := ∅; weight_map := [] |}.

(** An object in merging mode [m] on which no initial state was set. *)
Definition object (m : MergingCriterion) : Clustering T :=
  {| delta_c_type := LAB_CIEDE00; delta_g_type := NORMALS_DIFF;
     delta_h_type := AVERAGE_FRICTION; merging_type := m;
     lambda_c := half; lambda_g := of_Z 0; bins_num := 500;
     cdf_c := ∅; cdf_g := ∅; cdf_h := ∅;
     set_initial_state := false; init_initial_weights := false;
     initial_state := no_state; state := no_state |}.

(** Two regions 1 and 2 with friction samples and a region 3 without, all
    with friction 0.5, pairwise adjacent. *)
Definition three_regions : gmap N (Supervoxel T) :=
  <[1%N := region 0 0 0 2 half]>
    (<[2%N := region 1 0 0 1 half]> (<[3%N := region 0 1 0 0 half]> ∅)).

Definition triangle : list (N * N) := [(1, 2); (1, 3); (2, 3)]%N.

(** An object in mode [m] whose current and initial state hold the three
    regions and the triangle, every edge with weight 0.5. *)
Definition triangle_state : ClusteringState T :=
  {| segments := three_regions; weight_map := (λ p, (half, p)) <$> triangle |}.

Definition merging_object (m : MergingCriterion) : Clustering T :=
  with_set_initial_state true
    (with_initial_state triangle_state (with_state triangle_state (object m))).
End Generic.
End Examples.

(** ** Vocabulary of the statements *)

Section Vocabulary.
Context {T : Type} `{Scalar T} `{External T}.

(** The geometric distance of two regions when [delta_g_type] is [g]. *)
Definition delta_g_under (g : GeometricDistance) (c : Clustering T)
    (s1 s2 : Supervoxel T) : T :=
  (delta_c_g_h (with_delta_g g c) s1 s2).1.2.

(** The two centroids compare equal, coordinate by coordinate. *)
Definition same_position (p q : PointT T) : bool :=
  feq (pt_x p) (pt_x q) && feq (pt_y p) (pt_y q) && feq (pt_z p) (pt_z q).

(** Edges are stored with the smaller label first. *)
Definition canonical_edges (w : list (T * (N * N))) : Prop :=
  ∀ e, e ∈ w → (e.2.1 < e.2.2)%N.

(** Both ends of every edge are regions of the table. *)
Definition endpoints_present (segs : gmap N (Supervoxel T))
    (w : list (T * (N * N))) : Prop :=
  ∀ e, e ∈ w → is_Some (segs !! e.2.1) ∧ is_Some (segs !! e.2.2).

(** No pair of labels occurs on two edges. *)
Definition distinct_edges (w : list (T * (N * N))) : Prop := NoDup w.*2.

Definition well_formed (st : ClusteringState T) : Prop :=
  canonical_edges (weight_map st)
  ∧ endpoints_present (segments st) (weight_map st)
  ∧ distinct_edges (weight_map st).

(** The edge [p] has one of the merged labels at one end. *)
Definition touches (ids p : N * N) : bool :=
  (p.1 =? ids.1)%N || (p.2 =? ids.1)%N || (p.1 =? ids.2)%N || (p.2 =? ids.2)%N.

(** The pair of labels that [merge] writes for the edge [p] when the
    regions [ids] are merged into [ids.1]. *)
Definition relabel (ids p : N * N) : N * N :=
  if (p.1 =? ids.1)%N || (p.2 =? ids.1)%N then p
  else if (p.1 =? ids.2)%N then (ids.1, p.2)
  else if (p.2 =? ids.2)%N then
    (if (p.1 <? ids.1)%N then (p.1, ids.1) else (ids.1, p.1))
  else p.

(** What [merge] relies on for an edge [p] still to be visited, [segs]
    being the table after the merge of [ids]. *)
Definition pending_ok (segs : gmap N (Supervoxel T)) (ids p : N * N) : Prop :=
  (p.1 < p.2)%N ∧ p ≠ ids
  ∧ (p.1 ≠ ids.2 → is_Some (segs !! p.1))
  ∧ (p.2 ≠ ids.2 → is_Some (segs !! p.2)).

(** The invariant of the loop of [merge] on the map under construction. *)
Definition rewrite_inv (segs : gmap N (Supervoxel T)) (ids : N * N)
    (todo new_map : list (T * (N * N))) : Prop :=
  canonical_edges new_map
  ∧ endpoints_present segs new_map
  ∧ distinct_edges new_map
  ∧ ∀ p, p ∈ new_map.*2 → (p.1 = ids.1 ∨ p.2 = ids.1) ∨ p ∉ todo.*2.

(** The region table after [merge]: both labels erased, the new region
    stored under the first one. *)
Definition table_after_merge (ids : N * N) (sup_new : Supervoxel T)
    (segs : gmap N (Supervoxel T)) : gmap N (Supervoxel T) :=
  <[ids.1 := sup_new]> (delete ids.2 (delete ids.1 segs)).

(** The outcome is a normal return or a failure met while running: a
    missing key or an undefined operation, not a refused call. *)
Definition not_refused {A} (r : result A) : Prop :=
  match r with
  | Abort logic_error | Abort invalid_argument => False
  | _ => True
  end.

(** The loop of [cluster] has stopped: no edge is left, or the first one is
    not below the threshold. *)
Definition loop_done (threshold : T) (st : ClusteringState T) : Prop :=
  match weight_map st with
  | [] => True
  | next :: _ => flt next.1 threshold = false
  end.

(** No edge has the label [v] at either end. *)
Definition unreferenced (v : N) (w : list (T * (N * N))) : Prop :=
  ∀ e, e ∈ w → e.2.1 ≠ v ∧ e.2.2 ≠ v.
End Vocabulary.

(** Arithmetic mean of the positions of a cloud, over the reals. *)
Definition Rsum (l : list R) : R := foldr Rplus 0%R l.




(** ** Further functions of the file *)

(** [std::multimap<uint32_t, uint32_t>::insert]: after the entries whose key
    is not greater. *)
Fixpoint adj_insert (e : N * N) (l : list (N * N)) : list (N * N) :=
  match l with
  | [] => [e]
  | e' :: l' => if (e.1 <? e'.1)%N then e :: l else e' :: adj_insert e l'
  end.

(** The entries of a [std::map<uint32_t, V>] in iteration order, by
    increasing key. *)
Definition key_le {V} (a b : N * V) : Prop := (a.1 ≤ b.1)%N.

#[export] Instance key_le_dec {V} (a b : N * V) : Decision (key_le a b).
Proof. unfold key_le. apply _. Defined.

Definition entries {V} (m : gmap N V) : list (N * V) :=
  merge_sort key_le (map_to_list m).

Section More.
Context {T : Type} `{Scalar T} `{External T}.

(** [Clustering::weight2adj] (lines 228-238). *)
Definition weight2adj (w_map : list (T * (N * N))) : list (N * N) :=
  foldl (λ adj_map it, adj_insert it.2 adj_map) [] w_map.

(** [Clustering::get_currentstate] (lines 946-951). *)
Definition get_currentstate (c : Clustering T)
  : gmap N (Supervoxel T) * list (N * N) :=
  (segments (state c), weight2adj (weight_map (state c))).

(** One update of a running mean, as [average_friction] and [deltas_mean]
    write it: [count++; mean = mean + (1 / count) * (f - mean)]. *)
Definition running_mean_step (acc : T * T) (f : T) : T * T :=
  let count := fadd acc.1 (of_Z 1) in
  (count, fadd acc.2 (fmul (fdiv (of_Z 1) count) (fsub f acc.2))).

(** The friction coefficient read for a voxel: [abs(f_x / f_z)] of the entry
    of the track at the position of the voxel, if there is one.  [abs_] is
    the function that the unqualified call [abs] resolves to. *)
Definition coefficient_at (abs_ : T → T) (find : Vec3 T → option (T * T))
    (p : PointT T) : option T :=
  match find (pt_x p, pt_y p, pt_z p) with
  | Some (f_x, f_z) => Some (abs_ (fdiv f_x f_z))
  | None => None
  end.

(** The coefficients read along the voxels of a region, in their order. *)
Definition matched_coefficients (abs_ : T → T)
    (find : Vec3 T → option (T * T)) (voxels : list (PointT T)) : list T :=
  omap (coefficient_at abs_ find) voxels.

(** [Clustering::average_friction] (lines 109-145).  The haptic track is
    [None] when it is empty and otherwise its lookup by exact position. *)
Definition average_friction (abs_ : T → T)
    (track : option (Vec3 T → option (T * T))) (supvox : Supervoxel T)
  : list (PointXYZI T) * T :=
  match track with
  | None => ([], of_Z 0)
  | Some find =>
      let '(subtrack, acc) :=
        foldl (λ '(subtrack, acc) iter,
                 match coefficient_at abs_ find iter with
                 | Some f =>
                     (subtrack ++ [{| fs_x := pt_x iter; fs_y := pt_y iter;
                                      fs_z := pt_z iter; intensity := f |}],
                      running_mean_step acc f)
                 | None => (subtrack, acc)
                 end)
              ([], (of_Z 0, of_Z 0)) (voxels_ supvox) in
      let mean_f :=
        if negb (feq acc.1 (of_Z 0)) && flt acc.2 (of_Z 0) then of_Z 0
        else acc.2 in
      (subtrack, mean_f)
  end.

(** [pcl::PointXYZL]: a position and a label. *)
Record PointLT := {
  l_x : T; l_y : T; l_z : T;
  label : N
}.

(** The points that [get_labeled_cloud] emits for one region. *)
Definition labeled (current_l : N) (s : Supervoxel T) : list PointLT :=
  (λ p, {| l_x := pt_x p; l_y := pt_y p; l_z := pt_z p; label := current_l |})
    <$> voxels_ s.

(** [Clustering::get_labeled_cloud] (lines 967-990): the regions in the
    order of their labels, numbered from 0. *)
Definition get_labeled_cloud (c : Clustering T) : list PointLT :=
  (foldl (λ '(label_cloud, current_l) it,
            (label_cloud ++ labeled current_l it.2, (current_l + 1)%N))
         ([], 0%N) (entries (segments (state c)))).1.

(** [performanceSet]: the three scores of one evaluation. *)
Record performanceSet := {
  fscore : T; voi : T; wov : T
}.

(** [Clustering::best_thresh] on a collection of scores (lines 1147-1162),
    given in the order of its thresholds; [best_performance] starts as the
    default-constructed [default_performance]. *)
Definition best_thresh (default_performance : performanceSet)
    (all_thresh : list (T * performanceSet)) : T * performanceSet :=
  foldl (λ best it,
           if flt (fscore best.2) (fscore it.2) then (it.1, it.2) else best)
        (of_Z 0, default_performance) all_thresh.
End More.

Arguments PointLT : clear implicits.
Arguments performanceSet : clear implicits.

(** *** Vocabulary of the further statements *)

(** The bin of a value in [0,1] among [B] bins: [floor (d * B)], the value 1
    going to the last bin. *)
Definition bin_index (B : Z) (d : R) : Z := Z.min (Int_part (d * IZR B)) (B - 1).

(** The fraction of the values of [dist] whose bin is at most [z]. *)
Definition empirical_cdf (B : Z) (dist : list R) (z : Z) : R :=
  (INR (length (filter (λ d, (bin_index B d ≤ z)%Z) dist)) / INR (length dist))%R.

Definition Zsum (l : list Z) : Z := foldr Z.add 0%Z l.

(** The value is in the unit interval. *)
Definition unit_interval (x : R) : Prop := (0 <= x <= 1)%R.

(** The voxels of all the regions of a table. *)
Definition all_voxels {T} (segs : gmap N (Supervoxel T)) : list (PointT T) :=
  it ← map_to_list segs; voxels_ it.2.

(** A state of one region with an edge from the region to itself, and a
    state of two regions whose edge is stored twice. *)
Definition self_loop_object {T} `{Scalar T} : Clustering T :=
  with_state
    {| segments := {[1%N := Examples.region 0 0 0 0 half]};
       weight_map := [(half, (1, 1)%N)] |}
    (Examples.object MANUAL_LAMBDA).

Definition doubled_edge_object {T} `{Scalar T} : Clustering T :=
  with_state
    {| segments := <[1%N := Examples.region 0 0 0 0 half]>
                     {[2%N := Examples.region 1 0 0 0 half]};
       weight_map := [(half, (1, 2)%N); (half, (1, 2)%N)] |}
    (Examples.object MANUAL_LAMBDA).

(** An initial state whose only edge ends at a label that is not in the
    table. *)
Definition dangling_object {T} `{Scalar T} : Clustering T :=
  with_set_initial_state true
    (with_initial_state
       {| segments := {[1%N := Examples.region 0 0 0 0 half]};
          weight_map := [(of_Z (-1), (1, 2)%N)] |}
       (Examples.object MANUAL_LAMBDA)).

(** The three distances of a pair of regions are in the unit interval. *)
Definition unit_triple (d : R * R * R) : Prop :=
  unit_interval d.1.1 ∧ unit_interval d.1.2 ∧ unit_interval d.2.

(** The normal has length 1. *)
Definition unit_normal (n : Normal R) : Prop :=
  dot (getNormalVector3fMap n) (getNormalVector3fMap n) = 1%R.





(** Two regions with frictions 0.5 and 1, and the object in mode [m] after
    [set_initialstate] with the adjacency (1,2), (2,2). *)
Definition two_regions {T} `{Scalar T} : gmap N (Supervoxel T) :=
  <[1%N := Examples.region 0 0 0 0 half]>
    {[2%N := Examples.region 1 0 0 0 (of_Z 1)]}.

Definition looped_object {T} `{Scalar T} (m : MergingCriterion)
  : Clustering T :=
  (set_initialstate two_regions [(1, 2)%N; (2, 2)%N] (Examples.object m)).2.

(** A region of one voxel at [p] with normal [n]; an object in mode
    MANUAL_LAMBDA with [lambda_c = 0] and [lambda_g = 1], as after
    [set_lambda (0, 1)], whose unified distance is the geometric one. *)
Definition oriented_region {T} `{Scalar T} (n : Normal T) (p : PointT T)
  : Supervoxel T :=
  {| voxels_ := [p]; normals_ := [n]; centroid_ := p; normal_ := n;
     frictions_ := []; friction_ := half; friction_variance_ := of_Z 0;
     mean_ := (of_Z 128, of_Z 128, of_Z 128, half) |}.

Definition geometric_object {T} `{Scalar T} : Clustering T :=
  with_lambda_g (of_Z 1)
    (with_lambda_c (of_Z 0) (Examples.object MANUAL_LAMBDA)).

(** ** Properties of the containers *)

Section ContainerFacts.
Context {T : Type} `{Scalar T} {V : Type}.

Lemma elem_of_mm_insert (k : T) (v : V) (l : list (T * V)) (x : T * V) :
  x ∈ mm_insert k v l ↔ x = (k, v) ∨ x ∈ l.
Proof.
  induction l as [|[k' v'] l IH]; simpl.
  - rewrite list_elem_of_singleton, elem_of_nil. tauto.
  - destruct (flt k k').
    + by rewrite elem_of_cons.
    + rewrite !elem_of_cons, IH. tauto.
Qed.

Lemma mm_insert_Permutation (k : T) (v : V) (l : list (T * V)) :
  mm_insert k v l ≡ₚ (k, v) :: l.
Proof.
  induction l as [|[k' v'] l IH]; simpl; [done|].
  destruct (flt k k'); [done|].
  rewrite IH. apply Permutation_swap.
Qed.

Lemma length_mm_insert (k : T) (v : V) (l : list (T * V)) :
  length (mm_insert k v l) = S (length l).
Proof. by rewrite mm_insert_Permutation. Qed.
End ContainerFacts.

Lemma map_at_Ok {K V} `{Countable K} (m : gmap K V) (k : K) (v : V) :
  map_at m k = Ok v ↔ m !! k = Some v.
Proof. unfold map_at. destruct (m !! k); split; congruence. Qed.

Lemma map_at_is_Some {K V} `{Countable K} (m : gmap K V) (k : K) :
  is_Some (m !! k) → ∃ v, map_at m k = Ok v ∧ m !! k = Some v.
Proof. intros [v Hv]. exists v. by rewrite map_at_Ok. Qed.

(** ** Configuration setters *)

Section Setters.
Context {T : Type} `{Scalar T}.

(** C10.  Whatever the merging mode [m] and the object [c], [set_merging m]
    returns normally and leaves the object with merging mode [m], [lambda_c]
    equal to 0.5, [bins_num] equal to 500 and the weights marked as not
    initialised; the values of [lambda_c] and [bins_num] held before the
    call have no influence on the object after it, and no other member
    ([lambda_g] included) is touched. *)
Theorem set_merging_resets (m : MergingCriterion) (c : Clustering T) :
  ∃ c', set_merging m c = (Ok (), c')
    ∧ merging_type c' = m
    ∧ lambda_c c' = half
    ∧ bins_num c' = 500%Z
    ∧ init_initial_weights c' = false
    ∧ (∀ (l : T) (b : Z),
         set_merging m (with_bins_num b (with_lambda_c l c)) = (Ok (), c'))
    ∧ lambda_g c' = lambda_g c
    ∧ set_initial_state c' = set_initial_state c
    ∧ initial_state c' = initial_state c
    ∧ state c' = state c.
Proof. eexists. split; [reflexivity|]. repeat split. Qed.

(** C9 (as the code has it).  [set_bins_num b] first checks the mode: when
    it is not EQUALIZATION the call ends with a logic error and the object
    is unchanged.  In mode EQUALIZATION it ends with an argument error,
    object unchanged, exactly when [b] is negative; every [b >= 0], zero
    included, is accepted, and then [bins_num] becomes [b] and the weights
    are marked as not initialised. *)
Theorem set_bins_num_outcome (b : Z) (c : Clustering T) :
  (merging_type c ≠ EQUALIZATION →
     set_bins_num b c = (Abort logic_error, c))
  ∧ (merging_type c = EQUALIZATION → (b < 0)%Z →
     set_bins_num b c = (Abort invalid_argument, c))
  ∧ (merging_type c = EQUALIZATION → (0 ≤ b)%Z →
     ∃ c', set_bins_num b c = (Ok (), c')
       ∧ bins_num c' = b
       ∧ init_initial_weights c' = false
       ∧ merging_type c' = EQUALIZATION).
Proof.
  unfold set_bins_num. repeat split.
  - intros Hm. by rewrite bool_decide_eq_false_2.
  - intros Hm Hb. rewrite bool_decide_eq_true_2 by done. simpl.
    by rewrite (proj2 (Z.ltb_lt _ _) Hb).
  - intros Hm Hb. rewrite bool_decide_eq_true_2 by done. simpl.
    rewrite (proj2 (Z.ltb_ge _ _) Hb). eexists. split; [reflexivity|].
    repeat split. done.
Qed.
End Setters.

(** The three cases of [set_bins_num_outcome] on binary32 objects. *)
Lemma set_bins_num_outcome_witness :
  set_bins_num 10 (Examples.object (T:=spec_float) MANUAL_LAMBDA)
    = (Abort logic_error, Examples.object MANUAL_LAMBDA)
  ∧ set_bins_num (-1) (Examples.object (T:=spec_float) EQUALIZATION)
    = (Abort invalid_argument, Examples.object EQUALIZATION)
  ∧ ∃ c', set_bins_num 10 (Examples.object (T:=spec_float) EQUALIZATION)
            = (Ok (), c')
      ∧ bins_num c' = 10%Z
      ∧ init_initial_weights c' = false
      ∧ merging_type c' = EQUALIZATION.
Proof.
  split; [|split].
  - apply (set_bins_num_outcome 10 (Examples.object MANUAL_LAMBDA)). discriminate.
  - apply (set_bins_num_outcome (-1) (Examples.object EQUALIZATION));
      [reflexivity | lia].
  - apply (set_bins_num_outcome 10 (Examples.object EQUALIZATION));
      [reflexivity | lia].
Defined.

(** C9, the claim as stated fails: in mode EQUALIZATION the argument 0, which
    is not a positive bin count, is accepted and stored. *)
Lemma set_bins_num_accepts_zero :
  ∃ c', set_bins_num 0 (Examples.object (T:=spec_float) EQUALIZATION)
          = (Ok (), c')
    ∧ bins_num c' = 0%Z.
Proof. eexists. split; reflexivity. Qed.

(** ** Setting the initial state *)

Section InitialState.
Context {T : Type} `{Scalar T}.

Lemma elem_of_clear_adjacency (adj : list (N * N)) (u v : N) :
  (u, v) ∈ clear_adjacency adj ↔ (u, v) ∈ adj ∧ (u ≤ v)%N.
Proof.
  unfold clear_adjacency. rewrite list_elem_of_filter. simpl.
  split; intros [? ?]; split; auto; lia.
Qed.

Lemma elem_of_adj2weight_from (adj : list (N * N)) (acc : list (T * (N * N)))
    (x : T * (N * N)) :
  x ∈ foldl (λ w_map e, mm_insert (of_Z (-1)) e w_map) acc adj
  ↔ x ∈ acc ∨ (x.1 = of_Z (-1) ∧ x.2 ∈ adj).
Proof.
  revert acc. induction adj as [|e adj IH]; intros acc; simpl.
  - rewrite elem_of_nil. tauto.
  - rewrite IH, elem_of_mm_insert, elem_of_cons. destruct x as [w p]; simpl.
    split.
    + intros [[Hx | Hx] | [Hw Hp]]; auto. inversion Hx; subst. auto.
    + intros [Hx | [Hw [Hp | Hp]]]; subst; auto.
Qed.

Lemma elem_of_adj2weight (adj : list (N * N)) (w : T) (p : N * N) :
  (w, p) ∈ adj2weight adj ↔ w = of_Z (-1) ∧ p ∈ adj.
Proof.
  unfold adj2weight. rewrite elem_of_adj2weight_from, elem_of_nil. simpl. tauto.
Qed.

(** C2 (as the code has it).  After [set_initialstate segm adj] the weighted
    graph, in the current and in the initial state, holds exactly the pairs
    [(u, v)] of [adj] with [u <= v], each with the weight -1: every pair
    with [u > v] is dropped, whether or not its mirror image is present, and
    every self-loop of the input is kept. *)
Theorem set_initialstate_edges (segm : gmap N (Supervoxel T))
    (adj : list (N * N)) (c : Clustering T) :
  ∃ c', set_initialstate segm adj c = (Ok (), c')
    ∧ set_initial_state c' = true
    ∧ init_initial_weights c' = false
    ∧ initial_state c' = state c'
    ∧ segments (state c') = segm
    ∧ (∀ (w : T) (u v : N),
         (w, (u, v)) ∈ weight_map (state c')
         ↔ w = of_Z (-1) ∧ (u, v) ∈ adj ∧ (u ≤ v)%N)
    ∧ (∀ (w : T) (u v : N),
         (v < u)%N → (w, (u, v)) ∉ weight_map (state c'))
    ∧ (∀ u : N, (u, u) ∈ adj → (of_Z (-1), (u, u)) ∈ weight_map (state c')).
Proof.
  eexists. split; [reflexivity|]. simpl.
  assert (Hchar : ∀ (w : T) (u v : N),
    (w, (u, v)) ∈ adj2weight (T:=T) (clear_adjacency adj)
    ↔ w = of_Z (-1) ∧ (u, v) ∈ adj ∧ (u ≤ v)%N).
  { intros w u v. by rewrite elem_of_adj2weight, elem_of_clear_adjacency. }
  split; [done|]. split; [done|]. split; [done|]. split; [done|].
  split; [exact Hchar|]. split.
  - intros w u v Huv (_ & _ & Hle)%Hchar. lia.
  - intros u Hu. apply Hchar. repeat split; [done|lia].
Qed.
End InitialState.

(** C2, the claim as stated fails: with the self-loop (1,1), the edge (1,2) and
    its mirror image (2,1) in the input, the mirror image is dropped but the
    self-loop is in the weighted graph after initialisation. *)
Lemma set_initialstate_keeps_self_loop :
  weight_map (state (set_initialstate (T:=spec_float) ∅ [(1, 1); (1, 2); (2, 1)]%N
                       (Examples.object ADAPTIVE_LAMBDA)).2)
  = [(B32.of_Z (-1), (1, 1)); (B32.of_Z (-1), (1, 2))]%N.
Proof. vm_compute. reflexivity. Qed.

(** ** The comparisons of the reals *)

Lemma Rleb_true (a b : R) : Rleb a b = true ↔ (a <= b)%R.
Proof. unfold Rleb. destruct (Rle_dec a b); split; auto; discriminate. Qed.

Lemma Rleb_false (a b : R) : Rleb a b = false ↔ ¬ (a <= b)%R.
Proof. unfold Rleb. destruct (Rle_dec a b); split; auto; try discriminate; tauto. Qed.

Lemma Rltb_true (a b : R) : Rltb a b = true ↔ (a < b)%R.
Proof. unfold Rltb. destruct (Rlt_dec a b); split; auto; discriminate. Qed.

Lemma Reqb_true (a b : R) : Reqb a b = true ↔ a = b.
Proof. unfold Reqb. destruct (Req_dec_T a b); split; auto; discriminate. Qed.

Lemma Reqb_false (a b : R) : Reqb a b = false ↔ a ≠ b.
Proof. unfold Reqb. destruct (Req_dec_T a b); split; auto; try discriminate; tauto. Qed.

(** ** The geometric kernels over the reals *)

Section IdealKernels.
Context `{External R}.

Lemma norm_vsub_swap (a b : Vec3 R) : norm (vsub a b) = norm (vsub b a).
Proof.
  destruct a as [[a0 a1] a2], b as [[b0 b1] b2].
  unfold norm, dot, vsub; simpl. f_equal. ring.
Qed.

Lemma dot_direction_swap (n : Vec3 R) (c1 c2 : PointT R) :
  dot n (centroid_direction c2 c1) = (- dot n (centroid_direction c1 c2))%R.
Proof.
  unfold centroid_direction.
  rewrite (norm_vsub_swap (getVector3fMap c2)).
  generalize (norm (vsub (getVector3fMap c1) (getVector3fMap c2))). intros d.
  destruct n as [[n0 n1] n2], c1, c2.
  unfold dot, vdiv, vsub, getVector3fMap; simpl. unfold Rdiv. ring.
Qed.

Lemma norm_cross_swap (a b : Vec3 R) : norm (cross a b) = norm (cross b a).
Proof.
  destruct a as [[a0 a1] a2], b as [[b0 b1] b2].
  unfold norm, dot, cross; simpl. f_equal. ring.
Qed.

Lemma normals_diff_swap (n1 n2 : Normal R) (c1 c2 : PointT R) :
  normals_diff n1 c1 n2 c2 = normals_diff n2 c2 n1 c1.
Proof.
  unfold normals_diff.
  rewrite !(dot_direction_swap _ c2 c1), (norm_cross_swap (getNormalVector3fMap n2)).
  simpl. rewrite !Rabs_Ropp. unfold Rdiv. ring.
Qed.

Lemma is_convex_swap (n1 n2 : Normal R) (c1 c2 : PointT R) :
  is_convex n1 c1 n2 c2 = is_convex n2 c2 n1 c1.
Proof.
  unfold is_convex, fge.
  rewrite !(dot_direction_swap _ c2 c1). simpl.
  destruct (Rleb _ _) eqn:E1; symmetry.
  - apply Rleb_true in E1. apply Rleb_true. lra.
  - apply Rleb_false in E1. apply Rleb_false. lra.
Qed.

(** C4.  For two regions with distinct centroids, with [N1], [N2] their
    normals and [C] the unit vector between their centroids: when
    [N1.C >= N2.C] the geometric distance computed under
    CONVEX_NORMALS_DIFF is 0.5 times the one computed under NORMALS_DIFF,
    and otherwise the two are equal; the colour and the haptic distance do
    not depend on the choice. *)
Theorem convex_halving (c : Clustering R) (s1 s2 : Supervoxel R) :
  getVector3fMap (centroid_ s1) ≠ getVector3fMap (centroid_ s2) →
  let N1 := getNormalVector3fMap (normal_ s1) in
  let N2 := getNormalVector3fMap (normal_ s2) in
  let C := centroid_direction (centroid_ s1) (centroid_ s2) in
  ((dot N1 C >= dot N2 C)%R →
     delta_g_under CONVEX_NORMALS_DIFF c s1 s2
     = (0.5 * delta_g_under NORMALS_DIFF c s1 s2)%R)
  ∧ (¬ (dot N1 C >= dot N2 C)%R →
     delta_g_under CONVEX_NORMALS_DIFF c s1 s2
     = delta_g_under NORMALS_DIFF c s1 s2)
  ∧ delta_g_under NORMALS_DIFF c s1 s2
    = normals_diff (normal_ s1) (centroid_ s1) (normal_ s2) (centroid_ s2)
  ∧ (delta_c_g_h (with_delta_g CONVEX_NORMALS_DIFF c) s1 s2).1.1
    = (delta_c_g_h (with_delta_g NORMALS_DIFF c) s1 s2).1.1
  ∧ (delta_c_g_h (with_delta_g CONVEX_NORMALS_DIFF c) s1 s2).2
    = (delta_c_g_h (with_delta_g NORMALS_DIFF c) s1 s2).2.
Proof.
  intros _ N1 N2 C. unfold delta_g_under, delta_c_g_h; simpl.
  unfold is_convex, fge; simpl. fold N1 N2 C.
  repeat split.
  - intros Hge. rewrite (proj2 (Rleb_true _ _)) by lra. lra.
  - intros Hlt. by rewrite (proj2 (Rleb_false _ _)) by lra.
Qed.

(** C5.  Over exact reals, provided the two colour distances of the colour
    utilities are symmetric, for two regions with distinct centroids and
    every configuration of the object: [normals_diff] and [is_convex] return
    the same value when the two regions are exchanged, so do the three
    distances of [delta_c_g_h], and so does the unified distance [delta]
    (the same value, or the same failure under EQUALIZATION). *)
Theorem delta_symmetric (c : Clustering R) (s1 s2 : Supervoxel R) :
  (∀ a b, lab_ciede00 a b = lab_ciede00 b a) →
  (∀ a b, rgb_eucl a b = rgb_eucl b a) →
  getVector3fMap (centroid_ s1) ≠ getVector3fMap (centroid_ s2) →
  normals_diff (normal_ s1) (centroid_ s1) (normal_ s2) (centroid_ s2)
  = normals_diff (normal_ s2) (centroid_ s2) (normal_ s1) (centroid_ s1)
  ∧ is_convex (normal_ s1) (centroid_ s1) (normal_ s2) (centroid_ s2)
    = is_convex (normal_ s2) (centroid_ s2) (normal_ s1) (centroid_ s1)
  ∧ delta_c_g_h c s1 s2 = delta_c_g_h c s2 s1
  ∧ delta c s1 s2 = delta c s2 s1.
Proof.
  intros Hlab Hrgb _.
  assert (Hd : delta_c_g_h c s1 s2 = delta_c_g_h c s2 s1).
  { unfold delta_c_g_h.
    rewrite (normals_diff_swap (normal_ s2) (normal_ s1)),
            (is_convex_swap (normal_ s2) (normal_ s1)),
            (Hlab (rgb2lab (mean_color s2))), (Hrgb (mean_color s2)).
    destruct (delta_h_type c); simpl.
    by rewrite (Rabs_minus_sym (friction_ s2)). }
  split; [apply normals_diff_swap|]. split; [apply is_convex_swap|].
  split; [exact Hd|]. unfold delta. by rewrite Hd.
Qed.
End IdealKernels.

Lemma euclid_sym (a b : Vec3 R) : Examples.euclid a b = Examples.euclid b a.
Proof.
  destruct a as [[a0 a1] a2], b as [[b0 b1] b2].
  unfold Examples.euclid; simpl. f_equal. ring.
Qed.

Lemma sample_positions_differ :
  getVector3fMap (centroid_ (Examples.region (T:=R) 0 0 0 1 half))
  ≠ getVector3fMap (centroid_ (Examples.region (T:=R) 1 0 0 1 half)).
Proof. unfold getVector3fMap; simpl. intros Heq. inversion Heq. lra. Qed.

(** [convex_halving] on two regions with the same normal, one unit apart:
    the test holds and the distance is halved. *)
Lemma convex_halving_witness :
  @delta_g_under R R_scalar Examples.sample_external CONVEX_NORMALS_DIFF
    (Examples.object ADAPTIVE_LAMBDA)
    (Examples.region 0 0 0 1 half) (Examples.region 1 0 0 1 half)
  = (0.5 * @delta_g_under R R_scalar Examples.sample_external NORMALS_DIFF
             (Examples.object ADAPTIVE_LAMBDA)
             (Examples.region 0 0 0 1 half) (Examples.region 1 0 0 1 half))%R.
Proof.
  apply (@convex_halving Examples.sample_external
           (Examples.object ADAPTIVE_LAMBDA)
           (Examples.region 0 0 0 1 half) (Examples.region 1 0 0 1 half)).
  - exact sample_positions_differ.
  - apply Rle_refl.
Defined.

(** [delta_symmetric] with Euclidean colour distances. *)
Lemma delta_symmetric_witness :
  @delta R R_scalar Examples.sample_external (Examples.object MANUAL_LAMBDA)
    (Examples.region 0 0 0 1 half) (Examples.region 1 0 0 1 half)
  = @delta R R_scalar Examples.sample_external (Examples.object MANUAL_LAMBDA)
      (Examples.region 1 0 0 1 half) (Examples.region 0 0 0 1 half).
Proof.
  apply (@delta_symmetric Examples.sample_external
           (Examples.object MANUAL_LAMBDA)
           (Examples.region 0 0 0 1 half) (Examples.region 1 0 0 1 half)).
  - exact euclid_sym.
  - exact euclid_sym.
  - exact sample_positions_differ.
Defined.

(** In binary32 the exchange of two regions changes the geometric distance,
    and with it the three distances and the unified distance: the three terms
    of [normals_diff] are the same but are added in the other order.  The two
    regions have unit normals, distinct centroids and the same colour and
    friction. *)
Lemma delta_swap_binary32 :
  let s1 : Supervoxel spec_float :=
    oriented_region (Examples.along 1 0 0) (Examples.point 3 1 2) in
  let s2 : Supervoxel spec_float :=
    oriented_region (Examples.along 0 1 0) (Examples.point 0 0 0) in
  same_position (centroid_ s1) (centroid_ s2) = false
  ∧ normals_diff (normal_ s1) (centroid_ s1) (normal_ s2) (centroid_ s2)
    ≠ normals_diff (normal_ s2) (centroid_ s2) (normal_ s1) (centroid_ s1)
  ∧ @delta_c_g_h spec_float b32_scalar Examples.sample_external
      geometric_object s1 s2
    ≠ @delta_c_g_h spec_float b32_scalar Examples.sample_external
        geometric_object s2 s1
  ∧ @delta spec_float b32_scalar Examples.sample_external
      geometric_object s1 s2
    = Ok (S754_finite false 11570937 (-24))
  ∧ @delta spec_float b32_scalar Examples.sample_external
      geometric_object s2 s1
    = Ok (S754_finite false 11570939 (-24)).
Proof.
  cbv zeta. split; [vm_compute; reflexivity|].
  split; [vm_compute; intros Heq; discriminate Heq|].
  split; [vm_compute; intros Heq; discriminate Heq|].
  split; vm_compute; reflexivity.
Qed.

(** ** Imputed frictions *)

Section Imputation.

Lemma impute_friction_untouched (gmr : Vec3 R → R * R) (s : Supervoxel R) :
  friction_ s = 0%R →
  let x := (mean_ s).1.1.1 in
  let y := (mean_ s).1.1.2 in
  let z := (mean_ s).1.2 in
  friction_ (impute_friction gmr s)
  = (if Rle_dec 1 (gmr (x, y, z)).1
     then ((gmr (x, y, z)).1 - (gmr (x, y, z)).2)%R
     else (gmr (x, y, z)).1)
  ∧ friction_variance_ (impute_friction gmr s) = (gmr (x, y, z)).2.
Proof.
  intros Hf. unfold impute_friction. simpl.
  rewrite (proj2 (Reqb_true _ _)) by exact Hf.
  destruct (mean_ s) as [[[r g] b] f]; simpl.
  destruct (gmr (r, g, b)) as [mu var]; simpl.
  unfold fge; simpl. unfold Rleb. by destruct (Rle_dec 1 mu).
Qed.

Lemma imputed_region (gmr : Vec3 R → R * R)
    (segmentation : gmap N (Supervoxel R)) (label : N) (s : Supervoxel R) :
  segmentation !! label = Some s →
  estimate_missing_frictions gmr segmentation !! label
  = Some (impute_friction gmr s).
Proof.
  intros Hs. unfold estimate_missing_frictions. by rewrite lookup_fmap, Hs.
Qed.

(** C6 (as the code has it).  A region that enters the last loop of
    [estimate_missing_frictions] with friction 0 leaves it with the
    predicted variance and with friction [mu] when the prediction [mu] is
    below 1, [mu - var] when it is at least 1.  The stored friction lies in
    [0,1] exactly when [0 <= mu < 1], or [mu >= 1] and
    [mu - 1 <= var <= mu]; no other bound is enforced. *)
Theorem imputed_friction_value (gmr : Vec3 R → R * R)
    (segmentation : gmap N (Supervoxel R)) (label : N) (s : Supervoxel R) :
  segmentation !! label = Some s →
  friction_ s = 0%R →
  let mu := (gmr ((mean_ s).1.1.1, (mean_ s).1.1.2, (mean_ s).1.2)).1 in
  let var := (gmr ((mean_ s).1.1.1, (mean_ s).1.1.2, (mean_ s).1.2)).2 in
  ∃ s', estimate_missing_frictions gmr segmentation !! label = Some s'
    ∧ friction_variance_ s' = var
    ∧ ((mu < 1)%R → friction_ s' = mu)
    ∧ ((1 <= mu)%R → friction_ s' = (mu - var)%R)
    ∧ ((0 <= friction_ s' <= 1)%R
       ↔ (0 <= mu < 1)%R ∨ (1 <= mu ∧ mu - 1 <= var <= mu)%R).
Proof.
  intros Hs Hf mu var. exists (impute_friction gmr s).
  split; [by apply imputed_region|].
  destruct (impute_friction_untouched gmr s Hf) as [Hfr Hvar].
  fold mu var in Hfr, Hvar. rewrite Hfr, Hvar.
  destruct (Rle_dec 1 mu); repeat split; intros; lra.
Qed.
End Imputation.

(** [imputed_friction_value] on a region of colour (128,128,128) for which
    the regression predicts 0.5 with variance 0.25. *)
Lemma imputed_friction_value_witness :
  ∃ s', estimate_missing_frictions (λ _, (1 / 2, 1 / 4)%R)
          {[ 3%N := Examples.region (T:=R) 0 1 0 0 0%R ]} !! 3%N = Some s'
    ∧ friction_ s' = (1 / 2)%R.
Proof.
  destruct (imputed_friction_value (λ _, (1 / 2, 1 / 4)%R)
              {[ 3%N := Examples.region (T:=R) 0 1 0 0 0%R ]} 3%N
              (Examples.region 0 1 0 0 0%R)) as (s' & Hs' & _ & Hlt & _).
  - apply lookup_singleton_eq.
  - reflexivity.
  - exists s'. split; [exact Hs'|]. apply Hlt. simpl. lra.
Defined.

(** C6, the claim as stated fails: when the regression predicts 2 with
    variance 0.5 the friction stored for an untouched region is 1.5, and when
    it predicts -0.25 the friction stored is -0.25. *)
Lemma imputed_friction_out_of_range :
  (∃ s', estimate_missing_frictions (λ _, (2, 1 / 2)%R)
           {[ 3%N := Examples.region (T:=R) 0 1 0 0 0%R ]} !! 3%N = Some s'
     ∧ friction_ s' = (3 / 2)%R ∧ ¬ (0 <= friction_ s' <= 1)%R)
  ∧ (∃ s', estimate_missing_frictions (λ _, (- (1 / 4), 1 / 2)%R)
             {[ 3%N := Examples.region (T:=R) 0 1 0 0 0%R ]} !! 3%N = Some s'
       ∧ friction_ s' = (- (1 / 4))%R ∧ ¬ (0 <= friction_ s' <= 1)%R).
Proof.
  split.
  - eexists. split; [apply imputed_region, lookup_singleton_eq|].
    destruct (impute_friction_untouched (λ _, (2, 1 / 2)%R)
                (Examples.region 0 1 0 0 0%R)) as [Hfr _]; [reflexivity|].
    simpl in Hfr. destruct (Rle_dec 1 2) as [_|Hn]; [|lra].
    rewrite Hfr. split; lra.
  - eexists. split; [apply imputed_region, lookup_singleton_eq|].
    destruct (impute_friction_untouched (λ _, (- (1 / 4), 1 / 2)%R)
                (Examples.region 0 1 0 0 0%R)) as [Hfr _]; [reflexivity|].
    simpl in Hfr. destruct (Rle_dec 1 (- (1 / 4))) as [Hn|_]; [lra|].
    rewrite Hfr. split; lra.
Qed.

(** ** The geometric kernels in binary32: coincident centroids *)

Section Degenerate.
Context `{External spec_float}.

Local Abbreviation NaN := S754_nan.

Lemma fmul_nan_r (x : spec_float) : fmul x NaN = NaN.
Proof. by destruct x. Qed.

Lemma fadd_nan_l (x : spec_float) : fadd NaN x = NaN.
Proof. by destruct x. Qed.

Lemma fadd_nan_r (x : spec_float) : fadd x NaN = NaN.
Proof. by destruct x. Qed.

Lemma dot_nan (n : Vec3 spec_float) : dot n (NaN, NaN, NaN) = NaN.
Proof.
  destruct n as [[n0 n1] n2]. unfold dot.
  by rewrite !fmul_nan_r, fadd_nan_l.
Qed.

(** The difference of two coordinates that compare equal is a zero or,
    for two infinities, NaN. *)
Lemma fsub_equal (x y : spec_float) :
  feq x y = true → (∃ s, fsub x y = S754_zero s) ∨ fsub x y = NaN.
Proof.
  simpl. unfold SFeqb.
  destruct x as [sx|sx| |sx mx ex], y as [sy|sy| |sy my ey]; simpl;
    try discriminate;
    try (destruct sx, sy; simpl; intros; try discriminate; eauto; fail);
    try (destruct sx; simpl; intros; discriminate);
    try (destruct sy; simpl; intros; discriminate).
  - intros Heq. left. exists false.
    assert (sx = sy ∧ ex = ey ∧ mx = my) as (-> & -> & ->).
    { destruct sx, sy; try discriminate;
        destruct (Z.compare ex ey) eqn:Ee; try discriminate;
        apply Z.compare_eq in Ee;
        destruct (Pos.compare_cont Eq mx my) eqn:Em; try discriminate;
        apply Pos.compare_eq in Em; auto. }
    unfold shl_align. rewrite Z.min_id, Z.sub_diag. reflexivity.
Qed.

Lemma fmul_degenerate (x : spec_float) :
  (∃ s, x = S754_zero s) ∨ x = NaN →
  (∃ s, fmul x x = S754_zero s) ∨ fmul x x = NaN.
Proof. intros [[s ->] | ->]; simpl; eauto. Qed.

Lemma fadd_degenerate (x y : spec_float) :
  (∃ s, x = S754_zero s) ∨ x = NaN →
  (∃ s, y = S754_zero s) ∨ y = NaN →
  (∃ s, fadd x y = S754_zero s) ∨ fadd x y = NaN.
Proof.
  intros [[sx ->] | ->] [[sy ->] | ->]; simpl; eauto.
  destruct sx, sy; eauto.
Qed.

Lemma fsqrt_degenerate (x : spec_float) :
  (∃ s, x = S754_zero s) ∨ x = NaN →
  (∃ s, fsqrt x = S754_zero s) ∨ fsqrt x = NaN.
Proof. intros [[s ->] | ->]; simpl; eauto. Qed.

Lemma fdiv_degenerate (x y : spec_float) :
  (∃ s, x = S754_zero s) ∨ x = NaN →
  (∃ s, y = S754_zero s) ∨ y = NaN →
  fdiv x y = NaN.
Proof. by intros [[sx ->] | ->] [[sy ->] | ->]. Qed.

(** With coincident centroids the direction [C / C.norm()] is 0/0 in every
    coordinate. *)
Lemma centroid_direction_degenerate (c1 c2 : PointT spec_float) :
  same_position c1 c2 = true →
  centroid_direction c1 c2 = (NaN, NaN, NaN).
Proof.
  unfold same_position. intros [[Hx Hy]%andb_prop Hz]%andb_prop.
  apply fsub_equal in Hx, Hy, Hz.
  unfold centroid_direction, getVector3fMap, vsub.
  set (dx := fsub (pt_x c1) (pt_x c2)) in *.
  set (dy := fsub (pt_y c1) (pt_y c2)) in *.
  set (dz := fsub (pt_z c1) (pt_z c2)) in *.
  assert (Hn : (∃ s, norm (dx, dy, dz) = S754_zero s) ∨ norm (dx, dy, dz) = NaN).
  { unfold norm, dot. apply fsqrt_degenerate.
    repeat apply fadd_degenerate; by apply fmul_degenerate. }
  unfold vdiv. by rewrite !fdiv_degenerate.
Qed.

Lemma normals_diff_degenerate (n1 n2 : Normal spec_float)
    (c1 c2 : PointT spec_float) :
  same_position c1 c2 = true → normals_diff n1 c1 n2 c2 = NaN.
Proof.
  intros Hc. unfold normals_diff.
  rewrite (centroid_direction_degenerate _ _ Hc), !dot_nan.
  replace (fabs NaN) with NaN by reflexivity.
  by rewrite !fadd_nan_r.
Qed.

Lemma is_convex_degenerate (n1 n2 : Normal spec_float)
    (c1 c2 : PointT spec_float) :
  same_position c1 c2 = true → is_convex n1 c1 n2 c2 = false.
Proof.
  intros Hc. unfold is_convex.
  by rewrite (centroid_direction_degenerate _ _ Hc), !dot_nan.
Qed.

(** C7 (as the code has it).  In binary32 arithmetic, for two regions whose
    centroids compare equal, none of the three functions fails, but the
    degeneracy is not handled: [is_convex] returns false, [normals_diff]
    returns NaN, the geometric distance of [delta_c_g_h] is NaN under both
    geometric distance types, and in the two lambda modes the unified
    distance [delta] is NaN as well. *)
Theorem coincident_centroids (c : Clustering spec_float)
    (s1 s2 : Supervoxel spec_float) :
  same_position (centroid_ s1) (centroid_ s2) = true →
  is_convex (normal_ s1) (centroid_ s1) (normal_ s2) (centroid_ s2) = false
  ∧ normals_diff (normal_ s1) (centroid_ s1) (normal_ s2) (centroid_ s2) = NaN
  ∧ (delta_c_g_h c s1 s2).1.2 = NaN
  ∧ (merging_type c ≠ EQUALIZATION → delta c s1 s2 = Ok NaN).
Proof.
  intros Hc.
  pose proof (normals_diff_degenerate (normal_ s1) (normal_ s2) _ _ Hc) as Hn.
  pose proof (is_convex_degenerate (normal_ s1) (normal_ s2) _ _ Hc) as Hv.
  assert (Hg : (delta_c_g_h c s1 s2).1.2 = NaN).
  { unfold delta_c_g_h. cbv zeta. cbn [fst snd]. rewrite Hn, Hv.
    by destruct (delta_g_type c). }
  repeat split; auto.
  intros Hm. unfold delta, unify.
  destruct (delta_c_g_h c s1 s2) as [[dc dg] dh]; simpl in Hg; subst dg.
  unfold t_c, t_g, t_h.
  destruct (merging_type c); try done; cbn [mbind result_bind];
    by rewrite fmul_nan_r, fadd_nan_r, fadd_nan_l.
Qed.
End Degenerate.

(** [coincident_centroids] on two regions at the position (1,2,3). *)
Lemma coincident_centroids_witness :
  @normals_diff spec_float b32_scalar
    Examples.upward (Examples.point 1 2 3) Examples.upward (Examples.point 1 2 3)
  = S754_nan.
Proof.
  apply (@coincident_centroids Examples.sample_external
           (Examples.object ADAPTIVE_LAMBDA)
           (Examples.region 1 2 3 1 half) (Examples.region 1 2 3 1 half)).
  vm_compute. reflexivity.
Defined.

(** C7, the claim as stated fails: for two regions with the same centroid
    (1,2,3) and the same normal, [normals_diff] evaluates to NaN, which is
    not a finite distance, and so does the geometric component of
    [delta_c_g_h]. *)
Lemma coincident_centroids_not_finite :
  B32.is_finite
    (@normals_diff spec_float b32_scalar
       Examples.upward (Examples.point 1 2 3)
       Examples.upward (Examples.point 1 2 3)) = false
  ∧ (@delta_c_g_h spec_float b32_scalar Examples.sample_external
       (Examples.object ADAPTIVE_LAMBDA)
       (Examples.region 1 2 3 1 half) (Examples.region 1 2 3 1 half)).1.2
    = S754_nan.
Proof. split; vm_compute; reflexivity. Qed.

(** ** The rewriting of the graph by [merge] *)

Section MergeFacts.
Context {T : Type} `{Scalar T} `{External T}.

Lemma contains_spec (w : list (T * (N * N))) (i1 i2 : N) :
  contains w i1 i2 = true ↔ (i1, i2) ∈ w.*2.
Proof.
  unfold contains. rewrite existsb_exists, list_elem_of_fmap. split.
  - intros (e & He & [H1 H2]%andb_prop). exists e.
    apply N.eqb_eq in H1, H2. apply list_elem_of_In in He.
    split; [|done]. destruct e as [? [? ?]]; simpl in *. congruence.
  - intros (e & He & Hin). exists e. apply list_elem_of_In in Hin.
    split; [done|]. destruct e as [? [? ?]]; simpl in *.
    inversion He; subst. by rewrite !N.eqb_refl.
Qed.

Lemma fmap_snd_mm_insert (k : T) (p : N * N) (w : list (T * (N * N))) :
  (mm_insert k p w).*2 ≡ₚ p :: w.*2.
Proof. by rewrite mm_insert_Permutation. Qed.

Lemma delta_lambda_Ok (c : Clustering T) (s1 s2 : Supervoxel T) :
  merging_type c ≠ EQUALIZATION → ∃ w, delta c s1 s2 = Ok w.
Proof.
  intros Hm. unfold delta, unify.
  destruct (delta_c_g_h c s1 s2) as [[dc dg] dh].
  unfold t_c, t_g, t_h. destruct (merging_type c); try done; eauto.
Qed.

Lemma insert_reweighted_Ok (c : Clustering T) (segs : gmap N (Supervoxel T))
    (p : N * N) (new_map out : list (T * (N * N))) :
  insert_reweighted c segs p new_map = Ok out →
  (out = new_map ∧ p ∈ new_map.*2)
  ∨ (∃ w, out = mm_insert w p new_map ∧ (p ∉ new_map.*2)
        ∧ is_Some (segs !! p.1) ∧ is_Some (segs !! p.2)).
Proof.
  unfold insert_reweighted. destruct p as [a b]; simpl.
  destruct (contains new_map a b) eqn:Hc.
  - intros [= <-]. left. split; [done|]. by apply contains_spec.
  - unfold map_at.
    destruct (segs !! a) as [s1|] eqn:Ha; [|discriminate].
    destruct (segs !! b) as [s2|] eqn:Hb; [|discriminate].
    cbn [mbind result_bind].
    destruct (delta c s1 s2) as [w|] eqn:Hd; [|discriminate].
    cbn [mbind result_bind]. intros [= <-]. right. exists w.
    repeat split; eauto.
    intros Hin%contains_spec. congruence.
Qed.

Lemma insert_reweighted_total (c : Clustering T)
    (segs : gmap N (Supervoxel T)) (p : N * N)
    (new_map : list (T * (N * N))) :
  merging_type c ≠ EQUALIZATION →
  is_Some (segs !! p.1) → is_Some (segs !! p.2) →
  ∃ out, insert_reweighted c segs p new_map = Ok out.
Proof.
  intros Hm [s1 H1] [s2 H2]. unfold insert_reweighted, map_at.
  destruct (contains new_map p.1 p.2); [eauto|].
  rewrite H1, H2. cbn [mbind result_bind].
  destruct (delta_lambda_Ok c s1 s2 Hm) as [w ->]. cbn [mbind result_bind].
  eauto.
Qed.

Lemma merge_visit_cases (c : Clustering T) (segs : gmap N (Supervoxel T))
    (ids : N * N) (it : T * (N * N)) (new_map : list (T * (N * N))) :
  merge_visit c segs ids it new_map
  = if touches ids it.2
    then insert_reweighted c segs (relabel ids it.2) new_map
    else Ok (mm_insert it.1 it.2 new_map).
Proof.
  unfold merge_visit, touches, relabel.
  destruct (it.2.1 =? ids.1)%N, (it.2.2 =? ids.1)%N; simpl; try (by destruct it.2).
  destruct (it.2.1 =? ids.2)%N, (it.2.2 =? ids.2)%N; simpl; done.
Qed.

Lemma touches_false (ids p : N * N) :
  touches ids p = false ↔ p.1 ≠ ids.1 ∧ p.2 ≠ ids.1 ∧ p.1 ≠ ids.2 ∧ p.2 ≠ ids.2.
Proof.
  unfold touches. rewrite !orb_false_iff, !N.eqb_neq. tauto.
Qed.

(** The relabelled edge keeps the smaller label first, has [ids.1] at one
    end and ends at labels of the old edge other than [ids.2]. *)
Lemma relabel_touching (segs : gmap N (Supervoxel T)) (ids p : N * N) :
  (ids.1 < ids.2)%N → is_Some (segs !! ids.1) →
  pending_ok segs ids p → touches ids p = true →
  let q := relabel ids p in
  (q.1 < q.2)%N ∧ (q.1 = ids.1 ∨ q.2 = ids.1)
  ∧ is_Some (segs !! q.1) ∧ is_Some (segs !! q.2).
Proof.
  destruct ids as [u v], p as [a b]. unfold pending_ok, touches, relabel; simpl.
  intros Huv Hu (Hab & Hne & Ha & Hb) Ht.
  destruct (N.eqb_spec a u) as [->|Hau]; simpl.
  { repeat split; auto. apply Hb. intros ->. by apply Hne. }
  destruct (N.eqb_spec b u) as [->|Hbu]; simpl.
  { repeat split; auto. apply Ha. lia. }
  destruct (N.eqb_spec a v) as [->|Hav]; simpl.
  { repeat split; auto; try lia. apply Hb. lia. }
  destruct (N.eqb_spec b v) as [->|Hbv]; simpl.
  - destruct (N.ltb_spec a u); simpl; repeat split; auto; lia.
  - discriminate Ht.
Qed.
End MergeFacts.

Section RewriteFacts.
Context {T : Type} `{Scalar T} `{External T}.

Lemma merge_visit_length (c : Clustering T) (segs : gmap N (Supervoxel T))
    (ids : N * N) (it : T * (N * N)) (new_map out : list (T * (N * N))) :
  merge_visit c segs ids it new_map = Ok out →
  length out ≤ S (length new_map).
Proof.
  rewrite merge_visit_cases. destruct (touches ids it.2).
  - intros [[-> _] | (w & -> & _)]%insert_reweighted_Ok.
    + lia.
    + by rewrite length_mm_insert.
  - intros [= <-]. by rewrite length_mm_insert.
Qed.

Lemma merge_rewrite_length (c : Clustering T) (segs : gmap N (Supervoxel T))
    (ids : N * N) (todo new_map out : list (T * (N * N))) :
  merge_rewrite c segs ids todo new_map = Ok out →
  length out ≤ length new_map + length todo.
Proof.
  revert new_map. induction todo as [|it todo IH]; intros new_map; simpl.
  - intros [= <-]. lia.
  - destruct (merge_visit c segs ids it new_map) as [nm|] eqn:Hv;
      cbn [mbind result_bind]; [|discriminate].
    intros Hr%IH. apply merge_visit_length in Hv. lia.
Qed.


Lemma rewrite_inv_tail (segs : gmap N (Supervoxel T)) (ids : N * N)
    (it : T * (N * N)) (todo new_map : list (T * (N * N))) :
  rewrite_inv segs ids (it :: todo) new_map → rewrite_inv segs ids todo new_map.
Proof.
  intros (Hc & He & Hd & Hp).
  split; [done|]. split; [done|]. split; [done|].
  intros p Hin. destruct (Hp p Hin) as [Hu | Hn]; [by left|right].
  intros Hin'. apply Hn. rewrite fmap_cons. by right.
Qed.

Lemma rewrite_inv_insert (segs : gmap N (Supervoxel T)) (ids : N * N)
    (todo new_map : list (T * (N * N))) (w : T) (q : N * N) :
  rewrite_inv segs ids todo new_map →
  (q.1 < q.2)%N → is_Some (segs !! q.1) → is_Some (segs !! q.2) →
  q ∉ new_map.*2 →
  (q.1 = ids.1 ∨ q.2 = ids.1) ∨ q ∉ todo.*2 →
  rewrite_inv segs ids todo (mm_insert w q new_map).
Proof.
  intros (Hc & He & Hd & Hp) Hlt H1 H2 Hfresh Hq.
  split; [|split; [|split]].
  - intros e [-> | Hin]%elem_of_mm_insert; [done|by apply Hc].
  - intros e [-> | Hin]%elem_of_mm_insert; [done|by apply He].
  - unfold distinct_edges. rewrite fmap_snd_mm_insert.
    by apply NoDup_cons.
  - intros p. rewrite fmap_snd_mm_insert, elem_of_cons.
    intros [-> | Hin]; [done|by apply Hp].
Qed.

(** In the two lambda modes the loop of [merge] ends normally and keeps the
    graph well formed. *)
Lemma merge_rewrite_total (c : Clustering T) (segs : gmap N (Supervoxel T))
    (ids : N * N) (todo new_map : list (T * (N * N))) :
  merging_type c ≠ EQUALIZATION →
  (ids.1 < ids.2)%N → is_Some (segs !! ids.1) →
  (∀ e, e ∈ todo → pending_ok segs ids e.2) →
  NoDup todo.*2 →
  rewrite_inv segs ids todo new_map →
  ∃ out, merge_rewrite c segs ids todo new_map = Ok out
    ∧ rewrite_inv segs ids [] out.
Proof.
  intros Hm Hids Hu. revert new_map.
  induction todo as [|it todo IH]; intros new_map Htodo Hnd Hinv; simpl.
  - eauto.
  - rewrite fmap_cons in Hnd. apply NoDup_cons in Hnd as [Hit Hnd].
    assert (Hok : pending_ok segs ids it.2) by (apply Htodo; by left).
    assert (Htodo' : ∀ e, e ∈ todo → pending_ok segs ids e.2).
    { intros e He. apply Htodo. by right. }
    rewrite merge_visit_cases. destruct (touches ids it.2) eqn:Ht.
    + destruct (relabel_touching segs ids it.2 Hids Hu Hok Ht)
        as (Hlt & Hend & H1 & H2).
      destruct (insert_reweighted_total c segs (relabel ids it.2) new_map
                  Hm H1 H2) as [nm Hnm].
      rewrite Hnm. cbn [mbind result_bind]. apply IH; [done|done|].
      apply insert_reweighted_Ok in Hnm as [[-> _] | (w & -> & Hfresh & _)].
      * by eapply rewrite_inv_tail.
      * apply rewrite_inv_insert; auto. by eapply rewrite_inv_tail.
    + cbn [mbind result_bind]. apply IH; [done|done|].
      apply touches_false in Ht as (Ha & Hb & Ha' & Hb').
      destruct Hok as (Hlt & _ & H1 & H2).
      apply rewrite_inv_insert; auto.
      * by eapply rewrite_inv_tail.
      * destruct Hinv as (_ & _ & _ & Hp). intros Hin.
        destruct (Hp _ Hin) as [[? | ?] | Hn]; [done|done|].
        apply Hn. rewrite fmap_cons. by left.
Qed.

(** *** The region table *)

Lemma map_insert_after_delete (ids : N * N) (s : Supervoxel T)
    (segs : gmap N (Supervoxel T)) :
  map_insert ids.1 s (delete ids.2 (delete ids.1 segs))
  = table_after_merge ids s segs.
Proof.
  unfold map_insert, table_after_merge.
  destruct (delete ids.2 (delete ids.1 segs) !! ids.1) eqn:Hl; [|done].
  apply lookup_delete_Some in Hl as [_ Hl].
  by rewrite lookup_delete_eq in Hl.
Qed.

Lemma table_after_merge_first (ids : N * N) (s : Supervoxel T)
    (segs : gmap N (Supervoxel T)) :
  table_after_merge ids s segs !! ids.1 = Some s.
Proof. apply lookup_insert_eq. Qed.

Lemma table_after_merge_second (ids : N * N) (s : Supervoxel T)
    (segs : gmap N (Supervoxel T)) :
  ids.1 ≠ ids.2 → table_after_merge ids s segs !! ids.2 = None.
Proof.
  intros Hne. unfold table_after_merge.
  by rewrite lookup_insert_ne, lookup_delete_eq.
Qed.

Lemma table_after_merge_other (ids : N * N) (s : Supervoxel T)
    (segs : gmap N (Supervoxel T)) (k : N) :
  k ≠ ids.1 → k ≠ ids.2 → table_after_merge ids s segs !! k = segs !! k.
Proof.
  intros H1 H2. unfold table_after_merge.
  by rewrite lookup_insert_ne, !lookup_delete_ne.
Qed.

(** What a normal return of [merge] tells. *)
Lemma merge_Ok_inv (ids : N * N) (c c' : Clustering T) :
  merge ids c = (Ok (), c') →
  ∃ sup1 sup2 first rest new_map,
    segments (state c) !! ids.1 = Some sup1
    ∧ segments (state c) !! ids.2 = Some sup2
    ∧ weight_map (state c) = first :: rest
    ∧ let segs := table_after_merge ids (merged_supervoxel sup1 sup2)
                    (segments (state c)) in
      merge_rewrite (with_state (with_segments segs (state c)) c) segs ids
        rest [] = Ok new_map
      ∧ c' = with_state {| segments := segs; weight_map := new_map |} c.
Proof.
  unfold merge, map_at.
  destruct (segments (state c) !! ids.1) as [sup1|] eqn:H1;
    [|destruct (segments (state c) !! ids.2); discriminate].
  destruct (segments (state c) !! ids.2) as [sup2|] eqn:H2; [|discriminate].
  rewrite map_insert_after_delete.
  destruct (weight_map (state c)) as [|first rest] eqn:Hw; [discriminate|].
  destruct (merge_rewrite _ _ ids rest []) as [new_map|] eqn:Hr; [|discriminate].
  intros [= <-]. exists sup1, sup2, first, rest, new_map.
  repeat split; auto.
Qed.
End RewriteFacts.

Section MergeOutcome.
Context {T : Type} `{Scalar T} `{External T}.


(** In the two lambda modes, merging the first edge of a well-formed state
    returns normally, keeps the state well formed and shortens the graph;
    only the current state of the object changes. *)
Lemma merge_total (c : Clustering T) (w : T) (ids : N * N)
    (rest : list (T * (N * N))) :
  merging_type c ≠ EQUALIZATION →
  well_formed (state c) →
  weight_map (state c) = (w, ids) :: rest →
  ∃ c', merge ids c = (Ok (), c')
    ∧ well_formed (state c')
    ∧ length (weight_map (state c')) ≤ length rest
    ∧ c' = with_state (state c') c.
Proof.
  intros Hm (Hcan & Hend & Hnd) Hw. rewrite Hw in Hcan, Hend, Hnd.
  assert (Hids : (ids.1 < ids.2)%N) by (apply (Hcan (w, ids)); by left).
  destruct (Hend (w, ids)) as [[sup1 H1] [sup2 H2]]; [by left|]. simpl in H1, H2.
  unfold distinct_edges in Hnd. rewrite fmap_cons in Hnd.
  apply NoDup_cons in Hnd as [Hfresh Hnd]. simpl in Hfresh.
  unfold merge, map_at. rewrite H1, H2, map_insert_after_delete, Hw.
  set (segs := table_after_merge ids (merged_supervoxel sup1 sup2)
                 (segments (state c))).
  set (c1 := with_state _ c).
  destruct (merge_rewrite_total c1 segs ids rest []) as (out & Hr & Hinv).
  - done.
  - done.
  - unfold segs. rewrite table_after_merge_first. eauto.
  - intros e He. split; [apply (Hcan e); by right|]. split.
    { intros Heq. apply Hfresh. rewrite <- Heq. by apply list_elem_of_fmap_2. }
    destruct (Hend e) as [Ha Hb]; [by right|].
    split; intros Hv.
    + destruct (decide (e.2.1 = ids.1)) as [->|Hu].
      * unfold segs. rewrite table_after_merge_first. eauto.
      * unfold segs. by rewrite table_after_merge_other.
    + destruct (decide (e.2.2 = ids.1)) as [->|Hu].
      * unfold segs. rewrite table_after_merge_first. eauto.
      * unfold segs. by rewrite table_after_merge_other.
  - done.
  - split; [|split; [|split]].
    + by intros e ?%elem_of_nil.
    + by intros e ?%elem_of_nil.
    + apply NoDup_nil_2.
    + by intros p ?%elem_of_nil.
  - rewrite Hr. eexists. split; [reflexivity|]. simpl.
    destruct Hinv as (Hc' & He' & Hd' & _).
    split; [done|]. split; [|done].
    apply merge_rewrite_length in Hr. simpl in Hr. lia.
Qed.
End MergeOutcome.

(** ** Merged regions over the reals *)

Section IdealMerge.
Context `{External R}.




Lemma size_as_float_INR {A} (l : list A) : size_as_float l = INR (length l).
Proof. unfold size_as_float. simpl. by rewrite INR_IZR_INZ. Qed.




Lemma merged_friction_touched (sup1 sup2 : Supervoxel R) :
  frictions_ sup1 ++ frictions_ sup2 ≠ [] →
  merged_friction sup1 sup2
  = ((INR (length (frictions_ sup1)) * friction_ sup1
      + INR (length (frictions_ sup2)) * friction_ sup2)
     / (INR (length (frictions_ sup1)) + INR (length (frictions_ sup2))))%R.
Proof.
  intros Hne. unfold merged_friction.
  destruct (frictions_ sup1 ++ frictions_ sup2) as [|x l] eqn:Hl; [done|].
  rewrite <- Hl, !size_as_float_INR, length_app, plus_INR. reflexivity.
Qed.

Lemma merged_friction_untouched (sup1 sup2 : Supervoxel R) :
  frictions_ sup1 ++ frictions_ sup2 = [] →
  merged_friction sup1 sup2 = ((friction_ sup1 + friction_ sup2) / 2)%R.
Proof. intros Hl. unfold merged_friction. by rewrite Hl. Qed.

(** The region that a returning merge leaves under the first label. *)
Lemma merge_installs (ids : N * N) (c c' : Clustering R)
    (sup1 sup2 : Supervoxel R) :
  segments (state c) !! ids.1 = Some sup1 →
  segments (state c) !! ids.2 = Some sup2 →
  merge ids c = (Ok (), c') →
  segments (state c') !! ids.1 = Some (merged_supervoxel sup1 sup2).
Proof.
  intros H1 H2 (s1 & s2 & first & rest & new_map & H1' & H2' & _ & _ & ->)%merge_Ok_inv.
  simpl. rewrite table_after_merge_first. congruence.
Qed.

(** C3.  When [merge] of the regions [u] and [v] returns, the region stored
    under [u] holds the friction samples of both; if that sequence is not
    empty its friction is [(|F_u| f_u + |F_v| f_v) / (|F_u| + |F_v|)], and
    otherwise it is [(f_u + f_v) / 2]. *)
Theorem merged_friction_value (c c' : Clustering R) (u v : N)
    (S_u S_v : Supervoxel R) :
  segments (state c) !! u = Some S_u →
  segments (state c) !! v = Some S_v →
  merge (u, v) c = (Ok (), c') →
  ∃ S_new, segments (state c') !! u = Some S_new
    ∧ frictions_ S_new = frictions_ S_u ++ frictions_ S_v
    ∧ (frictions_ S_new ≠ [] →
         friction_ S_new
         = ((INR (length (frictions_ S_u)) * friction_ S_u
             + INR (length (frictions_ S_v)) * friction_ S_v)
            / (INR (length (frictions_ S_u)) + INR (length (frictions_ S_v))))%R)
    ∧ (frictions_ S_new = [] →
         friction_ S_new = ((friction_ S_u + friction_ S_v) / 2)%R).
Proof.
  intros Hu Hv Hm. exists (merged_supervoxel S_u S_v).
  split; [exact (merge_installs (u, v) c c' S_u S_v Hu Hv Hm)|].
  split; [done|]. split.
  - apply merged_friction_touched.
  - apply merged_friction_untouched.
Qed.

End IdealMerge.

(** ** The sample state *)

Lemma triangle_well_formed {T : Type} `{Scalar T} :
  well_formed (Examples.triangle_state (T:=T)).
Proof.
  split; [|split].
  - intros e He. simpl in He.
    repeat (apply elem_of_cons in He as [-> | He]); simpl; try lia.
    by apply elem_of_nil in He.
  - intros e He. simpl in He.
    repeat (apply elem_of_cons in He as [-> | He]);
      try (by apply elem_of_nil in He);
      simpl; split; eexists; reflexivity.
  - unfold distinct_edges. simpl.
    repeat (apply NoDup_cons; split;
            [intros Hin;
             repeat (apply elem_of_cons in Hin as [Hin | Hin]; [discriminate Hin|]);
             by apply elem_of_nil in Hin |]).
    apply NoDup_nil_2.
Qed.




(** [merged_friction_value] on the same merge: two samples with friction 0.5
    and one with friction 0.5 give (2 * 0.5 + 1 * 0.5) / (2 + 1). *)
Lemma merged_friction_value_witness :
  ∃ c' S_new,
    @merge R R_scalar Examples.sample_external (1, 2)%N
      (Examples.merging_object MANUAL_LAMBDA) = (Ok (), c')
    ∧ segments (state c') !! 1%N = Some S_new
    ∧ friction_ S_new = ((INR 2 * (1 / 2) + INR 1 * (1 / 2)) / (INR 2 + INR 1))%R.
Proof.
  destruct (@merge_total R R_scalar Examples.sample_external
              (Examples.merging_object MANUAL_LAMBDA) half (1, 2)%N
              [(half, (1, 3)%N); (half, (2, 3)%N)])
    as (c' & Hc' & _); [discriminate | exact triangle_well_formed | reflexivity |].
  destruct (@merged_friction_value Examples.sample_external
              (Examples.merging_object MANUAL_LAMBDA) c' 1%N 2%N
              (Examples.region 0 0 0 2 half) (Examples.region 1 0 0 1 half))
    as (S_new & Hnew & Hfr & Htouched & _); [reflexivity | reflexivity | exact Hc' |].
  exists c', S_new. split; [exact Hc'|]. split; [exact Hnew|].
  apply Htouched. rewrite Hfr. discriminate.
Defined.

(** ** Weight initialisation *)

Section InitWeightsFacts.
Context {T : Type} `{Scalar T} `{External T}.

Lemma unify_lambda_Ok (c : Clustering T) (deltas : T * T * T) :
  merging_type c ≠ EQUALIZATION → ∃ w, unify c deltas = Ok w.
Proof.
  intros Hm. unfold unify. destruct deltas as [[dc dg] dh].
  unfold t_c, t_g, t_h. destruct (merging_type c); try done; eauto.
Qed.

Lemma map_insert_lookup {K V} `{Countable K} (k k' : K) (v : V)
    (m : gmap K V) :
  is_Some (map_insert k v m !! k') ↔ k = k' ∨ is_Some (m !! k').
Proof.
  unfold map_insert. destruct (m !! k) as [x|] eqn:Hk.
  - split; [by right|]. intros [<- | Hs]; [by rewrite Hk|done].
  - rewrite lookup_insert_is_Some. split.
    + intros [? | [_ ?]]; auto.
    + intros [? | Hs]; [by left|].
      destruct (decide (k = k')) as [->|Hne]; [by left|by right].
Qed.

Lemma collect_deltas_total (c : Clustering T) (segs : gmap N (Supervoxel T))
    (edges : list (T * (N * N)))
    (acc : gmap (N * N) (T * T * T) * list T * list T * list T) :
  endpoints_present segs edges →
  ∃ out, collect_deltas c segs edges acc = Ok out
    ∧ ∀ p, p ∈ edges.*2 ∨ is_Some (acc.1.1.1 !! p) → is_Some (out.1.1.1 !! p).
Proof.
  revert acc. induction edges as [|it edges IH]; intros acc Hend; simpl.
  - exists acc. split; [done|]. intros p [Hp | Hp]; [|done].
    by apply elem_of_nil in Hp.
  - destruct acc as [[[temp dc] dg] dh].
    destruct (Hend it) as [[s1 H1] [s2 H2]]; [by left|].
    unfold map_at. rewrite H1, H2. cbn [mbind result_bind].
    edestruct IH as (out & -> & Hout).
    { intros e He. apply Hend. by right. }
    exists out. split; [done|]. intros p Hp. apply Hout. simpl.
    rewrite map_insert_lookup. simpl in Hp.
    destruct Hp as [[-> | Hp]%elem_of_cons | Hp]; auto.
Qed.

Lemma reweight_total (c : Clustering T)
    (temp_deltas : gmap (N * N) (T * T * T))
    (edges w_new : list (T * (N * N))) :
  merging_type c ≠ EQUALIZATION →
  (∀ p, p ∈ edges.*2 → is_Some (temp_deltas !! p)) →
  ∃ out, reweight c temp_deltas edges w_new = Ok out
    ∧ out.*2 ≡ₚ edges.*2 ++ w_new.*2.
Proof.
  intros Hm. revert w_new.
  induction edges as [|it edges IH]; intros w_new Htemp; simpl.
  - eauto.
  - destruct (Htemp it.2) as [d Hd]; [by left|].
    unfold map_at. rewrite Hd. cbn [mbind result_bind].
    destruct (unify_lambda_Ok c d Hm) as [w ->]. cbn [mbind result_bind].
    edestruct IH as (out & -> & Hperm).
    { intros p Hp. apply Htemp. by right. }
    exists out. split; [done|].
    rewrite Hperm, fmap_snd_mm_insert. by rewrite Permutation_middle.
Qed.

Lemma map_insert_lookup_Some {K V} `{Countable K} (k k' : K) (v v' : V)
    (m : gmap K V) :
  map_insert k v m !! k' = Some v' → m !! k' = Some v' ∨ (k = k' ∧ v = v').
Proof.
  unfold map_insert. destruct (m !! k) as [x|] eqn:Hk; [by left|].
  intros [[-> ->] | [_ ?]]%lookup_insert_Some; auto.
Qed.

(** Every cached triple is the one of the two regions of its edge. *)
Lemma collect_deltas_values (c : Clustering T) (segs : gmap N (Supervoxel T))
    (edges : list (T * (N * N)))
    (acc out : gmap (N * N) (T * T * T) * list T * list T * list T) :
  (∀ p d, acc.1.1.1 !! p = Some d →
     ∃ s1 s2, segs !! p.1 = Some s1 ∧ segs !! p.2 = Some s2
       ∧ d = delta_c_g_h c s1 s2) →
  collect_deltas c segs edges acc = Ok out →
  ∀ p d, out.1.1.1 !! p = Some d →
    ∃ s1 s2, segs !! p.1 = Some s1 ∧ segs !! p.2 = Some s2
      ∧ d = delta_c_g_h c s1 s2.
Proof.
  revert acc. induction edges as [|it edges IH]; intros acc Hacc; simpl.
  - by intros [= <-].
  - destruct acc as [[[temp dc] dg] dh]. unfold map_at.
    destruct (segs !! it.2.1) as [s1|] eqn:H1; [|discriminate].
    destruct (segs !! it.2.2) as [s2|] eqn:H2; [|discriminate].
    cbn [mbind result_bind]. apply IH. simpl.
    intros p d [Hp | [<- <-]]%map_insert_lookup_Some; [by apply Hacc|eauto].
Qed.

(** Every weight written by the second loop is the unified distance of a
    cached triple. *)
Lemma reweight_values (c : Clustering T)
    (temp_deltas : gmap (N * N) (T * T * T))
    (edges w_new out : list (T * (N * N))) :
  reweight c temp_deltas edges w_new = Ok out →
  ∀ e, e ∈ out →
    e ∈ w_new ∨ ∃ d, temp_deltas !! e.2 = Some d ∧ unify c d = Ok e.1.
Proof.
  revert w_new. induction edges as [|it edges IH]; intros w_new; simpl.
  - intros [= <-]. auto.
  - unfold map_at. destruct (temp_deltas !! it.2) as [d|] eqn:Hd; [|discriminate].
    cbn [mbind result_bind].
    destruct (unify c d) as [w|] eqn:Hu; [|discriminate].
    cbn [mbind result_bind]. intros Hr e He.
    destruct (IH _ Hr e He) as [[-> | Hin]%elem_of_mm_insert | Hex]; eauto.
Qed.

Lemma delta_c_g_h_config (c c' : Clustering T) (s1 s2 : Supervoxel T) :
  delta_c_type c' = delta_c_type c →
  delta_g_type c' = delta_g_type c →
  delta_h_type c' = delta_h_type c →
  delta_c_g_h c' s1 s2 = delta_c_g_h c s1 s2.
Proof. intros Hc Hg Hh. unfold delta_c_g_h. by rewrite Hc, Hg, Hh. Qed.

Lemma init_merging_parameters_lambda (dc dg dh : list T) (c : Clustering T) :
  merging_type c ≠ EQUALIZATION →
  ∃ c1, init_merging_parameters dc dg dh c = (Ok (), c1)
    ∧ merging_type c1 = merging_type c
    ∧ set_initial_state c1 = set_initial_state c
    ∧ initial_state c1 = initial_state c
    ∧ state c1 = state c
    ∧ ∀ s1 s2, delta_c_g_h c1 s1 s2 = delta_c_g_h c s1 s2.
Proof.
  intros Hm. unfold init_merging_parameters.
  destruct (merging_type c) eqn:Hmt; try done; eexists; (split; [reflexivity|]);
    simpl; by rewrite ?Hmt.
Qed.

(** In the two lambda modes, on an initial state whose edges end at regions
    of the table, [init_weights] returns, sets the flag and replaces the
    weighted graph by one with the same pairs of labels, each weighted by the
    unified distance [delta] of its two regions. *)
Lemma init_weights_total (c : Clustering T) :
  merging_type c ≠ EQUALIZATION →
  endpoints_present (segments (initial_state c)) (weight_map (initial_state c)) →
  ∃ c', init_weights c = (Ok (), c')
    ∧ init_initial_weights c' = true
    ∧ merging_type c' = merging_type c
    ∧ set_initial_state c' = set_initial_state c
    ∧ segments (initial_state c') = segments (initial_state c)
    ∧ (weight_map (initial_state c')).*2 ≡ₚ (weight_map (initial_state c)).*2
    ∧ ∀ e, e ∈ weight_map (initial_state c') →
        ∃ s1 s2, segments (initial_state c') !! e.2.1 = Some s1
          ∧ segments (initial_state c') !! e.2.2 = Some s2
          ∧ delta c' s1 s2 = Ok e.1.
Proof.
  intros Hm Hend. unfold init_weights.
  destruct (collect_deltas c (segments (initial_state c))
              (weight_map (initial_state c)) (∅, [], [], []))
    as [[[[temp dc] dg] dh]|] eqn:Hcollect;
    [|destruct (collect_deltas_total c _ _ (∅, [], [], []) Hend)
        as (? & ? & _); congruence].
  destruct (collect_deltas_total c _ _ (∅, [], [], []) Hend)
    as (out0 & Hout0 & Htemp).
  rewrite Hcollect in Hout0. injection Hout0 as <-. simpl in Htemp.
  pose proof (collect_deltas_values c _ _ _ _
                (λ p d (Hp : (∅ : gmap (N * N) (T * T * T)) !! p = Some d),
                   match lookup_empty_Some p d Hp with end)
                Hcollect) as Hvalues.
  simpl in Hvalues.
  destruct (init_merging_parameters_lambda dc dg dh c Hm)
    as (c1 & -> & Hm1 & Hs1 & Hi1 & _ & Hcfg).
  rewrite <- Hi1 in Htemp.
  destruct (reweight c1 temp (weight_map (initial_state c1)) [])
    as [out|] eqn:Hout;
    [|destruct (reweight_total c1 temp (weight_map (initial_state c1)) [])
        as (? & ? & _);
        [by rewrite Hm1 | by intros p Hp; apply Htemp; left | congruence]].
  destruct (reweight_total c1 temp (weight_map (initial_state c1)) [])
    as (out' & Hout' & Hperm);
    [by rewrite Hm1 | by intros p Hp; apply Htemp; left |].
  rewrite Hout in Hout'. injection Hout' as <-.
  rewrite <- Hi1, Hout. eexists. split; [reflexivity|]. simpl.
  split; [done|]. split; [done|]. split; [done|]. split; [done|].
  split; [by rewrite Hperm, app_nil_r|].
  intros e He.
  destruct (reweight_values c1 temp _ _ _ Hout e He) as [Hnil | (d & Hd & Hu)];
    [by apply elem_of_nil in Hnil|].
  destruct (Hvalues _ _ Hd) as (s1 & s2 & H1 & H2 & ->).
  exists s1, s2. rewrite Hi1. split; [done|]. split; [done|].
  unfold delta. rewrite <- Hu, <- (Hcfg s1 s2). reflexivity.
Qed.

(** A label missing from the table stops the first loop of [init_weights]. *)
Lemma collect_deltas_missing (c : Clustering T) (segs : gmap N (Supervoxel T))
    (edges : list (T * (N * N)))
    (acc : gmap (N * N) (T * T * T) * list T * list T * list T) :
  ¬ endpoints_present segs edges →
  collect_deltas c segs edges acc = Abort out_of_range.
Proof.
  revert acc. induction edges as [|it edges IH]; intros acc Hn.
  - exfalso. apply Hn. by intros e ?%elem_of_nil.
  - simpl. destruct acc as [[[temp dc] dg] dh]. unfold map_at.
    destruct (segs !! it.2.1) as [s1|] eqn:H1; [|reflexivity].
    destruct (segs !! it.2.2) as [s2|] eqn:H2; [|reflexivity].
    cbn [mbind result_bind]. apply IH. intros Hend. apply Hn.
    intros e [-> | He]%elem_of_cons; [eauto | by apply Hend].
Qed.

Lemma well_formed_permutation (st st' : ClusteringState T) :
  segments st' = segments st →
  (weight_map st').*2 ≡ₚ (weight_map st).*2 →
  well_formed st → well_formed st'.
Proof.
  intros Hs Hp (Hcan & Hend & Hnd).
  assert (Hin : ∀ e, e ∈ weight_map st' → ∃ e', e' ∈ weight_map st ∧ e'.2 = e.2).
  { intros e He.
    assert (e.2 ∈ (weight_map st).*2) as (e' & He' & Hin')%list_elem_of_fmap.
    { rewrite <- Hp. by apply list_elem_of_fmap_2. }
    eauto. }
  split; [|split].
  - intros e (e' & He' & <-)%Hin. by apply Hcan.
  - intros e (e' & He' & <-)%Hin. rewrite Hs. by apply Hend.
  - unfold distinct_edges. by rewrite Hp.
Qed.
End InitWeightsFacts.

(** ** Failures after the guards *)

Section NotRefused.
Context {T : Type} `{Scalar T} `{External T}.

Lemma not_refused_bind {A B} (m : result A) (k : A → result B) :
  not_refused m → (∀ a, not_refused (k a)) → not_refused (m ≫= k).
Proof. destruct m; simpl; auto. Qed.

Lemma not_refused_map_at {K V} `{Countable K} (m : gmap K V) (k : K) :
  not_refused (map_at m k).
Proof. unfold map_at. by destruct (m !! k). Qed.

Lemma not_refused_bin_of (c : Clustering T) (d : T) : not_refused (bin_of c d).
Proof.
  unfold bin_of. destruct (ffloor _); [|done].
  apply not_refused_bind.
  - unfold to_short. by destruct (_ && _).
  - intros b. by destruct (b =? bins_num c)%Z.
Qed.

Lemma not_refused_equalize (c : Clustering T) (cdf : gmap Z T) (d : T) :
  not_refused (equalize c cdf d).
Proof.
  unfold equalize. apply not_refused_bind; [apply not_refused_bin_of|].
  intros b. apply not_refused_bind; [apply not_refused_map_at|done].
Qed.

Lemma not_refused_unify (c : Clustering T) (deltas : T * T * T) :
  not_refused (unify c deltas).
Proof.
  unfold unify. destruct deltas as [[dc dg] dh].
  apply not_refused_bind.
  { unfold t_c. destruct (merging_type c); try done. apply not_refused_equalize. }
  intros tc. apply not_refused_bind.
  { unfold t_g. destruct (merging_type c); try done. apply not_refused_equalize. }
  intros tg. apply not_refused_bind; [|done].
  unfold t_h. destruct (merging_type c); try done. apply not_refused_equalize.
Qed.

Lemma not_refused_insert_reweighted (c : Clustering T)
    (segs : gmap N (Supervoxel T)) (p : N * N) (nm : list (T * (N * N))) :
  not_refused (insert_reweighted c segs p nm).
Proof.
  unfold insert_reweighted. destruct (contains _ _ _); [done|].
  apply not_refused_bind; [apply not_refused_map_at|]. intros s1.
  apply not_refused_bind; [apply not_refused_map_at|]. intros s2.
  apply not_refused_bind; [apply not_refused_unify|done].
Qed.

Lemma not_refused_merge_rewrite (c : Clustering T)
    (segs : gmap N (Supervoxel T)) (ids : N * N)
    (todo nm : list (T * (N * N))) :
  not_refused (merge_rewrite c segs ids todo nm).
Proof.
  revert nm. induction todo as [|it todo IH]; intros nm; simpl; [done|].
  apply not_refused_bind; [|done].
  rewrite merge_visit_cases. destruct (touches _ _); [|done].
  apply not_refused_insert_reweighted.
Qed.

Lemma not_refused_merge (ids : N * N) (c : Clustering T) :
  not_refused (merge ids c).1.
Proof.
  unfold merge, map_at.
  destruct (segments (state c) !! ids.1);
    destruct (segments (state c) !! ids.2); try done.
  destruct (weight_map (state c)); [done|].
  match goal with
  | |- context [merge_rewrite ?a ?b ?c ?d ?e] =>
      pose proof (not_refused_merge_rewrite a b c d e) as Hr;
      destruct (merge_rewrite a b c d e)
  end; done.
Qed.

Lemma not_refused_merge_loop (fuel : nat) (threshold : T) (c : Clustering T) :
  not_refused (merge_loop fuel threshold c).1.
Proof.
  revert c. induction fuel as [|fuel IH]; intros c; simpl.
  - destruct (weight_map (state c)); [done|]. by destruct (flt _ _).
  - destruct (weight_map (state c)) as [|next ?]; [done|].
    destruct (flt _ _); [|done].
    pose proof (not_refused_merge next.2 c) as Hm.
    destruct (merge next.2 c) as [[[]|f] c']; [apply IH|done].
Qed.

Lemma not_refused_fill_bins (c : Clustering T) (dist : list T) (bins : list Z) :
  not_refused (fill_bins c dist bins).
Proof.
  revert bins. induction dist as [|d dist IH]; intros bins; simpl; [done|].
  apply not_refused_bind; [apply not_refused_bin_of|]. intros b.
  apply not_refused_bind; [|done].
  unfold bump. destruct (_ && _); [|done]. by destruct (bins !! _).
Qed.

Lemma not_refused_compute_cdf (c : Clustering T) (dist : list T) :
  not_refused (compute_cdf c dist).
Proof.
  unfold compute_cdf. destruct (bins_num c <? 0)%Z; [done|].
  apply not_refused_bind; [apply not_refused_fill_bins|done].
Qed.

Lemma not_refused_init_merging_parameters (dc dg dh : list T)
    (c : Clustering T) :
  not_refused (init_merging_parameters dc dg dh c).1.
Proof.
  unfold init_merging_parameters. destruct (merging_type c); try done.
  repeat match goal with
  | |- context [compute_cdf ?a ?b] =>
      pose proof (not_refused_compute_cdf a b);
      destruct (compute_cdf a b); [|done]
  end. done.
Qed.

Lemma not_refused_collect_deltas (c : Clustering T)
    (segs : gmap N (Supervoxel T)) (edges : list (T * (N * N)))
    (acc : gmap (N * N) (T * T * T) * list T * list T * list T) :
  not_refused (collect_deltas c segs edges acc).
Proof.
  revert acc. induction edges as [|it edges IH]; intros acc; simpl; [done|].
  destruct acc as [[[temp dc] dg] dh].
  apply not_refused_bind; [apply not_refused_map_at|]. intros s1.
  apply not_refused_bind; [apply not_refused_map_at|]. intros s2. apply IH.
Qed.

Lemma not_refused_reweight (c : Clustering T)
    (temp : gmap (N * N) (T * T * T)) (edges w_new : list (T * (N * N))) :
  not_refused (reweight c temp edges w_new).
Proof.
  revert w_new. induction edges as [|it edges IH]; intros w_new; simpl; [done|].
  apply not_refused_bind; [apply not_refused_map_at|]. intros d.
  apply not_refused_bind; [apply not_refused_unify|]. intros w. apply IH.
Qed.

Lemma not_refused_init_weights (c : Clustering T) :
  not_refused (init_weights c).1.
Proof.
  unfold init_weights.
  match goal with
  | |- context [collect_deltas ?a ?b ?c ?d] =>
      pose proof (not_refused_collect_deltas a b c d);
      destruct (collect_deltas a b c d) as [[[[temp dc] dg] dh]|]; [|done]
  end.
  pose proof (not_refused_init_merging_parameters dc dg dh c).
  destruct (init_merging_parameters dc dg dh c) as [[[]|f] c1]; [|done].
  match goal with
  | |- context [reweight ?a ?b ?c ?d] =>
      pose proof (not_refused_reweight a b c d);
      destruct (reweight a b c d); done
  end.
Qed.
End NotRefused.

(** ** The main loop *)

Section LoopFacts.
Context {T : Type} `{Scalar T} `{External T}.

Lemma with_state_id (c : Clustering T) : with_state (state c) c = c.
Proof. by destruct c. Qed.

Lemma with_state_twice (s s' : ClusteringState T) (c : Clustering T) :
  with_state s' (with_state s c) = with_state s' c.
Proof. done. Qed.

(** A returning merge shortens the weighted graph. *)
Lemma merge_shortens (ids : N * N) (c c' : Clustering T) :
  merge ids c = (Ok (), c') →
  length (weight_map (state c')) < length (weight_map (state c)).
Proof.
  intros (s1 & s2 & first & rest & nm & _ & _ & Hw & Hr & ->)%merge_Ok_inv.
  apply merge_rewrite_length in Hr. rewrite Hw. simpl in *. lia.
Qed.

(** The fuel given by [cluster_from] is never used up: any two amounts at
    least the number of edges give the same run. *)
Lemma merge_loop_fuel (fuel fuel' : nat) (threshold : T) (c : Clustering T) :
  length (weight_map (state c)) ≤ fuel →
  length (weight_map (state c)) ≤ fuel' →
  merge_loop fuel threshold c = merge_loop fuel' threshold c.
Proof.
  revert fuel' c. induction fuel as [|fuel IH]; intros fuel' c Hf Hf'.
  - destruct (weight_map (state c)) as [|next rest] eqn:Hw; [|simpl in Hf; lia].
    destruct fuel'; simpl; by rewrite Hw.
  - destruct fuel' as [|fuel'].
    + destruct (weight_map (state c)) as [|next rest] eqn:Hw; [|simpl in Hf'; lia].
      simpl. by rewrite Hw.
    + simpl. destruct (weight_map (state c)) as [|next rest] eqn:Hw; [done|].
      destruct (flt next.1 threshold); [|done].
      destruct (merge next.2 c) as [[[]|f] c'] eqn:Hm; [|done].
      apply merge_shortens in Hm. rewrite Hw in Hm. simpl in *.
      apply IH; lia.
Qed.

(** With enough fuel a run that returns has reached the end of the loop. *)
Lemma merge_loop_done (fuel : nat) (threshold : T) (c c' : Clustering T) :
  length (weight_map (state c)) ≤ fuel →
  merge_loop fuel threshold c = (Ok (), c') →
  loop_done threshold (state c').
Proof.
  revert c. induction fuel as [|fuel IH]; intros c Hf; simpl.
  - destruct (weight_map (state c)) as [|next rest] eqn:Hw; [|simpl in Hf; lia].
    intros [= <-]. unfold loop_done. by rewrite Hw.
  - destruct (weight_map (state c)) as [|next rest] eqn:Hw.
    { intros [= <-]. unfold loop_done. by rewrite Hw. }
    destruct (flt next.1 threshold) eqn:Hlt.
    + destruct (merge next.2 c) as [[[]|f] c1] eqn:Hm; [|discriminate].
      apply IH. apply merge_shortens in Hm. rewrite Hw in Hm. simpl in *. lia.
    + intros [= <-]. unfold loop_done. by rewrite Hw.
Qed.

(** In the two lambda modes the loop, started on a well-formed state,
    returns on a well-formed state on which it is done. *)
Lemma merge_loop_total (fuel : nat) (threshold : T) (c : Clustering T) :
  merging_type c ≠ EQUALIZATION →
  well_formed (state c) →
  length (weight_map (state c)) ≤ fuel →
  ∃ c', merge_loop fuel threshold c = (Ok (), c')
    ∧ well_formed (state c')
    ∧ loop_done threshold (state c')
    ∧ c' = with_state (state c') c.
Proof.
  revert c. induction fuel as [|fuel IH]; intros c Hm Hwf Hf; simpl.
  - destruct (weight_map (state c)) as [|next rest] eqn:Hw; [|simpl in Hf; lia].
    exists c. unfold loop_done. rewrite Hw, with_state_id. done.
  - destruct (weight_map (state c)) as [|[w ids] rest] eqn:Hw.
    { exists c. unfold loop_done. rewrite Hw, with_state_id. done. }
    simpl. destruct (flt w threshold) eqn:Hlt.
    + destruct (merge_total c w ids rest Hm Hwf Hw) as (c1 & -> & Hwf1 & Hlen & Hc1).
      destruct (IH c1) as (c' & Hc' & Hwf' & Hdone & Hframe).
      * by rewrite Hc1.
      * done.
      * simpl in Hf. lia.
      * exists c'. split; [done|]. split; [done|]. split; [done|].
        rewrite Hframe, Hc1 at 1. done.
    + exists c. unfold loop_done. rewrite Hw, with_state_id. simpl. done.
Qed.

(** C8.  Before an initial state is set, [cluster threshold] ends with a
    logic error and the object is as before the call.  Once an initial state
    is set and while the weights are not initialised, the call is not
    refused: it runs [init_weights] and then the merge loop from the
    re-weighted initial state, and can only stop early on a failure met
    while running these.  It does stop early when an edge of the initial
    state ends at a label that is not in its table: the call ends with the
    failure of the checked lookup and the object is as before.  In the two
    lambda modes, on a well-formed initial state, both return: the weights
    are flagged as initialised, every edge of the initial state is weighted
    by the unified distance of its two regions, and the loop has run to its
    end. *)
Theorem cluster_lifecycle (threshold : T) (c : Clustering T) :
  (set_initial_state c = false →
     cluster threshold c = (Abort logic_error, c))
  ∧ (set_initial_state c = true → init_initial_weights c = false →
       not_refused (cluster threshold c).1
       ∧ (∀ f c1, init_weights c = (Abort f, c1) →
            cluster threshold c = (Abort f, c1))
       ∧ (∀ c1, init_weights c = (Ok (), c1) →
            cluster threshold c = cluster_from (initial_state c1) threshold c1)
       ∧ (∀ e, e ∈ weight_map (initial_state c) →
            segments (initial_state c) !! e.2.1 = None
            ∨ segments (initial_state c) !! e.2.2 = None →
            cluster threshold c = (Abort out_of_range, c))
       ∧ (merging_type c ≠ EQUALIZATION → well_formed (initial_state c) →
            ∃ c1 c', init_weights c = (Ok (), c1)
              ∧ init_initial_weights c1 = true
              ∧ (∀ e, e ∈ weight_map (initial_state c1) →
                   ∃ s1 s2, segments (initial_state c1) !! e.2.1 = Some s1
                     ∧ segments (initial_state c1) !! e.2.2 = Some s2
                     ∧ delta c1 s1 s2 = Ok e.1)
              ∧ cluster threshold c = (Ok (), c')
              ∧ init_initial_weights c' = true
              ∧ well_formed (state c')
              ∧ loop_done threshold (state c'))).
Proof.
  split.
  - intros Hs. unfold cluster. by rewrite Hs.
  - intros Hs Hi. unfold cluster. rewrite Hs, Hi. simpl.
    split; [|split; [|split; [|split]]].
    + pose proof (not_refused_init_weights c) as Hn.
      destruct (init_weights c) as [[[]|f] c1]; [|done].
      apply not_refused_merge_loop.
    + by intros f c1 ->.
    + by intros c1 ->.
    + intros e He Hmiss. unfold init_weights.
      rewrite collect_deltas_missing; [done|].
      intros Hend. destruct (Hend e He) as [[? ?] [? ?]].
      destruct Hmiss; congruence.
    + intros Hm (Hcan & Hend & Hnd).
      destruct (init_weights_total c Hm Hend)
        as (c1 & Hc1 & Hflag & Hm1 & _ & Hsegs & Hperm & Hweights).
      assert (Hwf1 : well_formed (initial_state c1)).
      { by apply (well_formed_permutation (initial_state c)). }
      rewrite Hc1. unfold cluster_from.
      destruct (merge_loop_total (length (weight_map (initial_state c1)))
                  threshold (with_state (initial_state c1) c1))
        as (c' & Hc' & Hwf' & Hdone & Hframe);
        [simpl; by rewrite Hm1|done|done|].
      exists c1, c'.
      split; [done|]. split; [done|]. split; [done|]. split; [done|].
      split; [|done]. rewrite Hframe. exact Hflag.
Qed.
End LoopFacts.

(** [cluster_lifecycle] in binary32: the call is refused on an object without
    initial state; on the triangle of three regions, weights not initialised,
    it initialises them and runs the loop. *)
Lemma cluster_lifecycle_witness :
  @cluster spec_float b32_scalar Examples.sample_external half
    (Examples.object MANUAL_LAMBDA)
  = (Abort logic_error, Examples.object MANUAL_LAMBDA)
  ∧ ∃ c1 c',
      @init_weights spec_float b32_scalar Examples.sample_external
        (Examples.merging_object MANUAL_LAMBDA) = (Ok (), c1)
      ∧ init_initial_weights c1 = true
      ∧ (∀ e, e ∈ weight_map (initial_state c1) →
           ∃ s1 s2, segments (initial_state c1) !! e.2.1 = Some s1
             ∧ segments (initial_state c1) !! e.2.2 = Some s2
             ∧ @delta spec_float b32_scalar Examples.sample_external c1 s1 s2
               = Ok e.1)
      ∧ @cluster spec_float b32_scalar Examples.sample_external half
          (Examples.merging_object MANUAL_LAMBDA) = (Ok (), c')
      ∧ init_initial_weights c' = true
      ∧ well_formed (state c')
      ∧ loop_done half (state c').
Proof.
  split.
  - apply (proj1 (@cluster_lifecycle spec_float b32_scalar
                    Examples.sample_external half
                    (Examples.object MANUAL_LAMBDA))).
    reflexivity.
  - destruct (proj2 (@cluster_lifecycle spec_float b32_scalar
                       Examples.sample_external half
                       (Examples.merging_object MANUAL_LAMBDA))
                eq_refl eq_refl) as (_ & _ & _ & _ & Htotal).
    apply Htotal; [discriminate | exact triangle_well_formed].
Defined.

(** Once an initial state is set and before the weights are initialised,
    [cluster] can fail.  On two regions with the adjacency (1,2), (2,2), which
    [set_initialstate] keeps: in the two lambda modes the first merge fails on
    the lookup of the retired label 2, and in mode EQUALIZATION
    [init_weights] fails on the bin of the distance of region 2 to itself,
    which is not a number. *)
Lemma cluster_fails_once_started :
  (∀ m, set_initial_state (looped_object (T:=spec_float) m) = true
        ∧ init_initial_weights (looped_object (T:=spec_float) m) = false)
  ∧ (@cluster spec_float b32_scalar Examples.sample_external (B32.of_Z 1)
       (looped_object MANUAL_LAMBDA)).1 = Abort out_of_range
  ∧ (@cluster spec_float b32_scalar Examples.sample_external (B32.of_Z 1)
       (looped_object ADAPTIVE_LAMBDA)).1 = Abort out_of_range
  ∧ (@cluster spec_float b32_scalar Examples.sample_external (B32.of_Z 1)
       (looped_object EQUALIZATION)).1 = Abort undefined_behaviour.
Proof.
  split; [by intros m|].
  split; [vm_compute; reflexivity|].
  split; vm_compute; reflexivity.
Qed.

(** ** Rounding

    The properties over the reals ignore rounding.  In binary32 the exchange
    of the two regions leaves the three terms of [normals_diff] as they are
    but adds them in the other order, [(x + b) + a] for [(x + a) + b], and the
    last bits of the result can change: here [x = 1], [a] and [b] round
    3/sqrt(14) and 1/sqrt(14). *)
Remark normals_diff_last_bits :
  @normals_diff spec_float b32_scalar
    (Examples.along 1 0 0) (Examples.point 3 1 2)
    (Examples.along 0 1 0) (Examples.point 0 0 0)
  = S754_finite false 11570937 (-24)
  ∧ @normals_diff spec_float b32_scalar
      (Examples.along 0 1 0) (Examples.point 0 0 0)
      (Examples.along 1 0 0) (Examples.point 3 1 2)
    = S754_finite false 11570939 (-24).
Proof. split; vm_compute; reflexivity. Qed.

(** ** Running means *)

Section RunningMean.

Lemma running_mean_fold (l : list R) (k : nat) (m : R) :
  (foldl running_mean_step (INR k, m) l).1 = INR (k + length l)
  ∧ (INR (k + length l) * (foldl running_mean_step (INR k, m) l).2
     = INR k * m + Rsum l)%R.
Proof.
  revert k m. induction l as [|x l IH]; intros k m; simpl.
  - rewrite Nat.add_0_r. split; [done|lra].
  - assert (Hstep : running_mean_step (INR k, m) x
                    = (INR (S k), (m + 1 / INR (S k) * (x - m))%R)).
    { unfold running_mean_step. simpl fst. simpl snd.
      change (fadd (INR k) (of_Z 1)) with (INR k + 1)%R.
      rewrite <- S_INR. reflexivity. }
    rewrite Hstep.
    destruct (IH (S k) (m + 1 / INR (S k) * (x - m))%R) as [IH1 IH2].
    replace (k + S (length l)) with (S k + length l) by lia.
    split; [done|]. rewrite IH2.
    assert (INR (S k) ≠ 0%R) by (apply not_0_INR; discriminate).
    rewrite S_INR in *. field. done.
Qed.

Lemma running_mean_from_zero (l : list R) :
  l ≠ [] →
  foldl running_mean_step (of_Z 0, of_Z 0) l
  = (INR (length l), (Rsum l / INR (length l))%R).
Proof.
  intros Hl. destruct (running_mean_fold l 0 0%R) as [H1 H2].
  assert (Hn : INR (length l) ≠ 0%R).
  { apply not_0_INR. by destruct l. }
  apply injective_projections.
  - exact H1.
  - simpl snd. apply (Rmult_eq_reg_l (INR (length l))); [|done].
    transitivity (Rsum l); [|by field].
    etransitivity; [exact H2|]. simpl. lra.
Qed.

Lemma deltas_mean_fold (deltas : list R) :
  deltas_mean deltas = (foldl running_mean_step (of_Z 0, of_Z 0) deltas).2.
Proof.
  unfold deltas_mean. f_equal. generalize (of_Z 0 : R, of_Z 0 : R).
  induction deltas as [|d deltas IH]; intros acc; simpl; [done|].
  rewrite <- IH. by destruct acc.
Qed.

(** X1.  [deltas_mean] of an empty distribution is 0, and of any other
    distribution its arithmetic mean: the running update computes the sum
    divided by the number of values. *)
Theorem deltas_mean_arithmetic (deltas : list R) :
  deltas_mean ([] : list R) = 0%R
  ∧ (deltas ≠ [] → deltas_mean deltas = (Rsum deltas / INR (length deltas))%R).
Proof.
  split; [reflexivity|]. intros Hl.
  by rewrite deltas_mean_fold, running_mean_from_zero.
Qed.

Lemma length_omap_le {A B} (f : A → option B) (l : list A) :
  length (omap f l) ≤ length l.
Proof.
  induction l as [|x l IH]; [done|].
  change (omap f (x :: l))
    with (match f x with Some y => y :: omap f l | None => omap f l end).
  destruct (f x); simpl; lia.
Qed.

Lemma average_friction_fold (abs_ : R → R) (find : Vec3 R → option (R * R))
    (voxels : list (PointT R)) (subtrack : list (PointXYZI R)) (acc : R * R) :
  ∃ samples,
    foldl (λ '(subtrack, acc) iter,
             match coefficient_at abs_ find iter with
             | Some f =>
                 (subtrack ++ [{| fs_x := pt_x iter; fs_y := pt_y iter;
                                  fs_z := pt_z iter; intensity := f |}],
                  running_mean_step acc f)
             | None => (subtrack, acc)
             end)
          (subtrack, acc) voxels
    = (subtrack ++ samples,
       foldl running_mean_step acc (matched_coefficients abs_ find voxels))
    ∧ intensity <$> samples = matched_coefficients abs_ find voxels
    ∧ (∀ q, q ∈ samples →
         ∃ p, p ∈ voxels ∧ (fs_x q, fs_y q, fs_z q) = getVector3fMap p
           ∧ coefficient_at abs_ find p = Some (intensity q)).
Proof.
  revert subtrack acc. induction voxels as [|p voxels IH]; intros subtrack acc.
  - exists []. simpl. rewrite app_nil_r. split; [done|]. split; [done|].
    by intros q ?%elem_of_nil.
  - simpl. unfold matched_coefficients. simpl.
    destruct (coefficient_at abs_ find p) as [f|] eqn:Hp.
    + destruct (IH (subtrack ++ [{| fs_x := pt_x p; fs_y := pt_y p;
                                     fs_z := pt_z p; intensity := f |}])
                  (running_mean_step acc f)) as (samples & -> & Hi & Hq).
      eexists (_ :: samples). split; [by rewrite <- app_assoc|].
      split; [rewrite fmap_cons; f_equal; exact Hi|].
      intros q [-> | Hin]%elem_of_cons.
      * exists p. split; [by left|]. by simpl.
      * destruct (Hq q Hin) as (p' & ? & ? & ?). exists p'. split; [by right|done].
    + destruct (IH subtrack acc) as (samples & -> & Hi & Hq).
      exists samples. split; [done|]. split; [done|].
      intros q Hin. destruct (Hq q Hin) as (p' & ? & ? & ?).
      exists p'. split; [by right|done].
Qed.

(** X2.  Without a track [average_friction] returns no sample and the
    friction 0.  With a track it returns one sample per voxel whose position
    is in the track, in the order of the voxels, each at the position of its
    voxel and with the coefficient read there; the friction is 0 when no
    voxel matches and otherwise the arithmetic mean of these coefficients,
    replaced by 0 when negative.  The friction returned is never negative. *)
Theorem average_friction_mean (abs_ : R → R) (find : Vec3 R → option (R * R))
    (supvox : Supervoxel R) :
  average_friction abs_ None supvox = ([], 0%R)
  ∧ let fs := matched_coefficients abs_ find (voxels_ supvox) in
    let r := average_friction abs_ (Some find) supvox in
    intensity <$> r.1 = fs
    ∧ (∀ q, q ∈ r.1 →
         ∃ p, p ∈ voxels_ supvox ∧ (fs_x q, fs_y q, fs_z q) = getVector3fMap p
           ∧ coefficient_at abs_ find p = Some (intensity q))
    ∧ length r.1 ≤ length (voxels_ supvox)
    ∧ r.2 = match fs with
            | [] => 0%R
            | _ :: _ => Rmax 0 (Rsum fs / INR (length fs))
            end
    ∧ (0 <= r.2)%R.
Proof.
  split; [reflexivity|]. intros fs r.
  destruct (average_friction_fold abs_ find (voxels_ supvox) [] (of_Z 0, of_Z 0))
    as (samples & Hfold & Hi & Hq).
  fold fs in Hi, Hfold. simpl app in Hfold.
  assert (Hlen : length samples ≤ length (voxels_ supvox)).
  { rewrite <- (length_fmap intensity), Hi. unfold fs, matched_coefficients.
    apply length_omap_le. }
  assert (Hval : (let acc := foldl running_mean_step (of_Z 0, of_Z 0) fs in
                  if negb (feq acc.1 (of_Z 0)) && flt acc.2 (of_Z 0)
                  then of_Z 0 else acc.2)
                 = match fs with
                   | [] => 0%R
                   | _ :: _ => Rmax 0 (Rsum fs / INR (length fs))
                   end).
  { destruct fs as [|f fs'] eqn:Hfs.
    - simpl. rewrite (proj2 (Reqb_true _ _)) by done. done.
    - rewrite running_mean_from_zero by done.
      assert (Hn : INR (length (f :: fs')) ≠ 0%R) by (apply not_0_INR; discriminate).
      revert Hn. generalize (INR (length (f :: fs'))). intros n Hn.
      generalize (Rsum (f :: fs') / n)%R. intros m.
      cbv zeta. cbn [fst snd].
      change (feq n (of_Z 0)) with (Reqb n 0).
      rewrite (proj2 (Reqb_false _ _)) by done. cbn [negb andb].
      change (flt m (of_Z 0)) with (Rltb m 0). unfold Rltb.
      destruct (Rlt_dec m 0) as [Hneg | Hpos].
      + rewrite Rmax_left by lra. reflexivity.
      + rewrite Rmax_right by lra. reflexivity. }
  cbv zeta in Hval.
  assert (Hr : r = (samples,
                    match fs with
                    | [] => 0%R
                    | _ :: _ => Rmax 0 (Rsum fs / INR (length fs))
                    end)).
  { unfold r, average_friction. rewrite Hfold. by rewrite Hval. }
  rewrite Hr. cbn [fst snd].
  split; [done|]. split; [done|]. split; [done|]. split; [done|].
  destruct fs; [lra|]. apply Rmax_l.
Qed.
End RunningMean.

(** [deltas_mean_arithmetic] on the distribution 1, 2, 3. *)
Lemma deltas_mean_arithmetic_witness :
  deltas_mean [1; 2; 3]%R = (Rsum [1; 2; 3] / INR 3)%R.
Proof. apply (proj2 (deltas_mean_arithmetic [1; 2; 3]%R)). discriminate. Defined.

(** ** Unification in the two lambda modes *)

Section LambdaModes.
Context `{External R}.

Lemma unify_lambda_value (c : Clustering R) (dc dg dh : R) :
  merging_type c ≠ EQUALIZATION →
  unify c (dc, dg, dh)
  = Ok (lambda_c c * dc + lambda_g c * dg
        + (1 - lambda_c c - lambda_g c) * dh)%R.
Proof.
  intros Hm. unfold unify, t_c, t_g, t_h.
  destruct (merging_type c); try done.
Qed.

Lemma convex_combination (a b x y z : R) :
  (0 <= a)%R → (0 <= b)%R → (a + b <= 1)%R →
  unit_interval x → unit_interval y → unit_interval z →
  unit_interval (a * x + b * y + (1 - a - b) * z).
Proof. unfold unit_interval. intros. split; nra. Qed.

(** Over exact reals: what [init_merging_parameters] leaves in mode
    ADAPTIVE_LAMBDA. *)
Lemma adaptive_parameters_exact (deltas_c deltas_g deltas_h : list R)
    (c : Clustering R) :
  merging_type c = ADAPTIVE_LAMBDA →
  ∃ c1, init_merging_parameters deltas_c deltas_g deltas_h c = (Ok (), c1)
    ∧ merging_type c1 = ADAPTIVE_LAMBDA
    ∧ lambda_g c1 = 0%R
    ∧ ((deltas_mean deltas_c + deltas_mean deltas_h)%R ≠ 0%R →
         lambda_c c1
         = (deltas_mean deltas_h
            / (deltas_mean deltas_c + deltas_mean deltas_h))%R)
    ∧ (∀ dc dg dg' dh, unify c1 (dc, dg, dh) = unify c1 (dc, dg', dh))
    ∧ (∀ dc dg dh,
         unify c1 (dc, dg, dh)
         = Ok (lambda_c c1 * dc + (1 - lambda_c c1) * dh)%R).
Proof.
  intros Hm. unfold init_merging_parameters. rewrite Hm.
  eexists. split; [reflexivity|].
  split; [done|]. split; [done|]. split; [done|].
  assert (Hval : ∀ dc dg dh,
    unify (with_lambda_g (of_Z 0)
             (with_lambda_c (fdiv (deltas_mean deltas_h)
                (fadd (deltas_mean deltas_c) (deltas_mean deltas_h))) c))
          (dc, dg, dh)
    = Ok (fdiv (deltas_mean deltas_h)
            (fadd (deltas_mean deltas_c) (deltas_mean deltas_h)) * dc
          + (1 - fdiv (deltas_mean deltas_h)
                   (fadd (deltas_mean deltas_c) (deltas_mean deltas_h))) * dh)%R).
  { intros dc dg dh. rewrite unify_lambda_value by (simpl; by rewrite Hm).
    simpl. f_equal. lra. }
  split.
  - intros dc dg dg' dh. by rewrite !Hval.
  - exact Hval.
Qed.

(** Over exact reals: the three outcomes of [set_lambda]. *)
Lemma set_lambda_exact (l : R * R) (c : Clustering R) :
  (merging_type c ≠ MANUAL_LAMBDA →
     set_lambda l c = (Abort logic_error, c))
  ∧ (merging_type c = MANUAL_LAMBDA →
     ¬ (unit_interval l.1 ∧ unit_interval l.2 ∧ (l.1 + l.2 <= 1)%R) →
     set_lambda l c = (Abort invalid_argument, c))
  ∧ (merging_type c = MANUAL_LAMBDA →
     unit_interval l.1 → unit_interval l.2 → (l.1 + l.2 <= 1)%R →
     ∃ c', set_lambda l c = (Ok (), c')
       ∧ lambda_c c' = l.1 ∧ lambda_g c' = l.2
       ∧ init_initial_weights c' = false
       ∧ merging_type c' = MANUAL_LAMBDA
       ∧ ∀ dc dg dh,
           unit_interval dc → unit_interval dg → unit_interval dh →
           unify c' (dc, dg, dh)
           = Ok (l.1 * dc + l.2 * dg + (1 - l.1 - l.2) * dh)%R
           ∧ unit_interval (l.1 * dc + l.2 * dg + (1 - l.1 - l.2) * dh)).
Proof.
  unfold set_lambda, unit_interval. destruct l as [l1 l2]. cbn [fst snd].
  change (of_Z 0 : R) with 0%R. change (of_Z 1 : R) with 1%R.
  change (@flt R R_scalar) with Rltb. change (@fadd R R_scalar) with Rplus.
  split; [|split].
  - intros Hm. by rewrite bool_decide_eq_false_2.
  - intros Hm Hout. rewrite bool_decide_eq_true_2 by done. simpl.
    unfold Rltb.
    destruct (Rlt_dec l1 0), (Rlt_dec 1 l1), (Rlt_dec l2 0), (Rlt_dec 1 l2),
      (Rlt_dec 1 (l1 + l2)); simpl; try done.
    exfalso. apply Hout. lra.
  - intros Hm H1 H2 Hsum. rewrite bool_decide_eq_true_2 by done. simpl.
    unfold Rltb.
    destruct (Rlt_dec l1 0), (Rlt_dec 1 l1), (Rlt_dec l2 0), (Rlt_dec 1 l2),
      (Rlt_dec 1 (l1 + l2)); simpl; try lra.
    eexists. split; [reflexivity|].
    split; [reflexivity|]. split; [reflexivity|]. split; [reflexivity|].
    split; [exact Hm|].
    intros dc dg dh Hc Hg Hh. split.
    + refine (unify_lambda_value
                (with_init_initial_weights false
                   (with_lambda_g l2 (with_lambda_c l1 c))) dc dg dh _).
      simpl. by rewrite Hm.
    + apply convex_combination; unfold unit_interval; lra.
Qed.
End LambdaModes.

(** X3.  In mode ADAPTIVE_LAMBDA [init_merging_parameters] returns with
    [lambda_g] equal to 0, over exact reals and in binary32.  Over exact
    reals, [lambda_c] is [mean_h / (mean_c + mean_h)] when the means of the
    colour and of the haptic distances do not add up to 0, and from then on
    the geometric distance has no influence on the unified distance, which is
    [lambda_c * delta_c + (1 - lambda_c) * delta_h].  In binary32 the product
    [0 * delta_g] stays in the sum: a geometric distance that is not a number,
    as two regions with the same centroid give, makes the unified distance
    not a number. *)
Theorem adaptive_drops_geometry :
  (∀ (deltas_c deltas_g deltas_h : list R) (c : Clustering R),
     merging_type c = ADAPTIVE_LAMBDA →
     ∃ c1, init_merging_parameters deltas_c deltas_g deltas_h c = (Ok (), c1)
       ∧ merging_type c1 = ADAPTIVE_LAMBDA
       ∧ lambda_g c1 = 0%R
       ∧ ((deltas_mean deltas_c + deltas_mean deltas_h)%R ≠ 0%R →
            lambda_c c1
            = (deltas_mean deltas_h
               / (deltas_mean deltas_c + deltas_mean deltas_h))%R)
       ∧ (∀ dc dg dg' dh, unify c1 (dc, dg, dh) = unify c1 (dc, dg', dh))
       ∧ (∀ dc dg dh,
            unify c1 (dc, dg, dh)
            = Ok (lambda_c c1 * dc + (1 - lambda_c c1) * dh)%R))
  ∧ (∀ (deltas_c deltas_g deltas_h : list spec_float)
       (c : Clustering spec_float),
       merging_type c = ADAPTIVE_LAMBDA →
       ∃ c1, init_merging_parameters deltas_c deltas_g deltas_h c = (Ok (), c1)
         ∧ merging_type c1 = ADAPTIVE_LAMBDA
         ∧ lambda_g c1 = S754_zero false
         ∧ ∀ dc dh, unify c1 (dc, S754_nan, dh) = Ok S754_nan).
Proof.
  split; [exact adaptive_parameters_exact|].
  intros deltas_c deltas_g deltas_h c Hm.
  unfold init_merging_parameters. rewrite Hm.
  eexists. split; [reflexivity|]. split; [exact Hm|]. split; [reflexivity|].
  intros dc dh. unfold unify, t_c, t_g, t_h.
  cbn [merging_type with_lambda_g with_lambda_c]. rewrite Hm.
  cbn [mbind result_bind].
  by rewrite fmul_nan_r, fadd_nan_r, fadd_nan_l.
Qed.

(** [adaptive_drops_geometry] on an object in mode ADAPTIVE_LAMBDA, over the
    reals and in binary32. *)
Lemma adaptive_drops_geometry_witness :
  (∃ c1, init_merging_parameters [1 / 2]%R [1]%R [1 / 4]%R
           (Examples.object (T:=R) ADAPTIVE_LAMBDA) = (Ok (), c1)
     ∧ lambda_g c1 = 0%R)
  ∧ ∃ c1, init_merging_parameters [half] [half] [half]
            (Examples.object (T:=spec_float) ADAPTIVE_LAMBDA) = (Ok (), c1)
      ∧ unify c1 (half, S754_nan, half) = Ok S754_nan.
Proof.
  destruct adaptive_drops_geometry as [Hexact Hfloat]. split.
  - destruct (Hexact [1 / 2]%R [1]%R [1 / 4]%R
                (Examples.object ADAPTIVE_LAMBDA) eq_refl)
      as (c1 & Hc1 & _ & Hg & _).
    exists c1. by split.
  - destruct (Hfloat [half] [half] [half]
                (Examples.object ADAPTIVE_LAMBDA) eq_refl)
      as (c1 & Hc1 & _ & _ & Hnan).
    exists c1. split; [exact Hc1|apply Hnan].
Defined.

(** X4.  [set_lambda] first checks the mode: when it is not MANUAL_LAMBDA the
    call ends with a logic error, object unchanged, over exact reals and in
    binary32.  Over exact reals, in mode MANUAL_LAMBDA it ends with an
    argument error, object unchanged, exactly when one of the two values is
    outside [0,1] or their sum exceeds 1; otherwise the two values are
    stored, the weights are marked as not initialised, and from then on the
    unified distance of three distances of [0,1] is their combination with
    the weights [l.1], [l.2] and [1 - l.1 - l.2], again in [0,1].  In
    binary32 the guard lets more through: two values that are not numbers are
    stored, since every comparison with them is false; and the values 0.5 and
    0.5 + 2^-24 are stored, since their sum rounds to 1, after which the
    weight of the haptic distance is -2^-24 and the unified distance of the
    distances 0, 0 and 1 is negative. *)
Theorem set_lambda_outcome :
  (∀ (l : R * R) (c : Clustering R),
     (merging_type c ≠ MANUAL_LAMBDA →
        set_lambda l c = (Abort logic_error, c))
     ∧ (merging_type c = MANUAL_LAMBDA →
        ¬ (unit_interval l.1 ∧ unit_interval l.2 ∧ (l.1 + l.2 <= 1)%R) →
        set_lambda l c = (Abort invalid_argument, c))
     ∧ (merging_type c = MANUAL_LAMBDA →
        unit_interval l.1 → unit_interval l.2 → (l.1 + l.2 <= 1)%R →
        ∃ c', set_lambda l c = (Ok (), c')
          ∧ lambda_c c' = l.1 ∧ lambda_g c' = l.2
          ∧ init_initial_weights c' = false
          ∧ merging_type c' = MANUAL_LAMBDA
          ∧ ∀ dc dg dh,
              unit_interval dc → unit_interval dg → unit_interval dh →
              unify c' (dc, dg, dh)
              = Ok (l.1 * dc + l.2 * dg + (1 - l.1 - l.2) * dh)%R
              ∧ unit_interval (l.1 * dc + l.2 * dg + (1 - l.1 - l.2) * dh)))
  ∧ (∀ (l : spec_float * spec_float) (c : Clustering spec_float),
       merging_type c ≠ MANUAL_LAMBDA →
       set_lambda l c = (Abort logic_error, c))
  ∧ (∀ c : Clustering spec_float,
       merging_type c = MANUAL_LAMBDA →
       (∃ c', set_lambda (S754_nan, S754_nan) c = (Ok (), c')
          ∧ lambda_c c' = S754_nan ∧ lambda_g c' = S754_nan)
       ∧ ∃ c', set_lambda (half, S754_finite false 8388609 (-24)) c
               = (Ok (), c')
           ∧ unify c' (of_Z 0, of_Z 0, of_Z 1)
             = Ok (S754_finite true 8388608 (-47))
           ∧ flt (S754_finite true 8388608 (-47)) (of_Z 0 : spec_float)
             = true).
Proof.
  split; [exact set_lambda_exact|]. split.
  - intros l c Hm. unfold set_lambda. by rewrite bool_decide_eq_false_2.
  - intros c Hm. split.
    + unfold set_lambda. rewrite bool_decide_eq_true_2 by done.
      eexists. split; [reflexivity|]. by split.
    + unfold set_lambda. rewrite bool_decide_eq_true_2 by done.
      eexists. split; [reflexivity|]. split; [|reflexivity].
      unfold unify, t_c, t_g, t_h.
      cbn [merging_type lambda_c lambda_g with_init_initial_weights
           with_lambda_g with_lambda_c fst snd].
      rewrite Hm. reflexivity.
Qed.

(** [set_lambda_outcome] with the weights 0.25 and 0.5 over the reals, and
    with the values 0.5 and 0.5 + 2^-24 in binary32. *)
Lemma set_lambda_outcome_witness :
  (∃ c', set_lambda (1 / 4, 1 / 2)%R (Examples.object (T:=R) MANUAL_LAMBDA)
           = (Ok (), c')
     ∧ lambda_c c' = (1 / 4)%R ∧ lambda_g c' = (1 / 2)%R)
  ∧ ∃ c', set_lambda (half, S754_finite false 8388609 (-24))
            (Examples.object (T:=spec_float) MANUAL_LAMBDA) = (Ok (), c')
      ∧ unify c' (of_Z 0, of_Z 0, of_Z 1)
        = Ok (S754_finite true 8388608 (-47)).
Proof.
  destruct set_lambda_outcome as (Hexact & _ & Hfloat). split.
  - destruct (Hexact (1 / 4, 1 / 2)%R (Examples.object MANUAL_LAMBDA))
      as (_ & _ & Hok).
    destruct Hok as (c' & Hc' & Hl & Hg & _);
      [reflexivity | | | | ]; unfold unit_interval; simpl; try lra.
    exists c'. by repeat split.
  - destruct (Hfloat (Examples.object MANUAL_LAMBDA) eq_refl)
      as (_ & c' & Hc' & Hu & _).
    exists c'. by split.
Defined.

(** ** Equalization *)

Section Equalization.
Context `{External R}.

Lemma Int_part_bounds (x : R) (B : Z) :
  (0 <= x <= IZR B)%R → (0 ≤ Int_part x ≤ B)%Z.
Proof.
  intros [H0 HB]. destruct (base_Int_part x) as [Hle Hgt]. split.
  - assert (IZR (-1) < IZR (Int_part x))%R as Hlt%lt_IZR by (simpl; lra). lia.
  - apply le_IZR. lra.
Qed.

Lemma bin_index_range (B : Z) (d : R) :
  (0 < B)%Z → unit_interval d → (0 ≤ bin_index B d < B)%Z.
Proof.
  intros HB [H0 H1]. unfold bin_index.
  assert (0 < IZR B)%R by (apply (IZR_lt 0); lia).
  destruct (Int_part_bounds (d * IZR B) B); [split; nra|]. lia.
Qed.

Lemma bin_of_unit (c : Clustering R) (d : R) :
  (0 < bins_num c ≤ 32767)%Z → unit_interval d →
  bin_of c d = Ok (bin_index (bins_num c) d).
Proof.
  intros HB [H0 H1]. unfold bin_of, bin_index. cbn [ffloor R_scalar].
  change (fmul d (of_Z (bins_num c))) with (d * IZR (bins_num c))%R.
  assert (0 < IZR (bins_num c))%R by (apply (IZR_lt 0); lia).
  destruct (Int_part_bounds (d * IZR (bins_num c)) (bins_num c)) as [Hz0 HzB];
    [split; nra|].
  set (z := Int_part (d * IZR (bins_num c))) in *.
  unfold to_short.
  rewrite (proj2 (Z.leb_le _ _)), (proj2 (Z.leb_le _ _)) by lia.
  cbn [andb mbind result_bind].
  destruct (Z.eqb_spec z (bins_num c)) as [->|Hne]; f_equal.
  - rewrite Z.mod_small by lia. lia.
  - lia.
Qed.

Lemma Zsum_take_insert (l : list Z) (k i : nat) (n : Z) :
  l !! k = Some n →
  Zsum (take i (<[k := (n + 1)%Z]> l))
  = (Zsum (take i l) + (if decide (k < i)%nat then 1 else 0))%Z.
Proof.
  revert k i. induction l as [|x l IH]; intros k i Hk; [done|].
  destruct i as [|i].
  { rewrite !take_0. rewrite decide_False by lia. done. }
  destruct k as [|k].
  - simpl in Hk. injection Hk as ->. rewrite decide_True by lia.
    simpl. lia.
  - change (<[S k := (n + 1)%Z]> (x :: l)) with (x :: <[k := (n + 1)%Z]> l).
    change ((x :: l) !! S k) with (l !! k) in Hk.
    rewrite !firstn_cons. unfold Zsum in *. cbn [foldr]. rewrite (IH k i Hk).
    destruct (decide (k < i)%nat);
      [rewrite decide_True by lia | rewrite decide_False by lia]; lia.
Qed.

Lemma bump_Ok (bins : list Z) (b : Z) :
  (0 ≤ b < Z.of_nat (length bins))%Z →
  ∃ bins', bump bins b = Ok bins'
    ∧ length bins' = length bins
    ∧ ∀ i, Zsum (take (S i) bins')
           = (Zsum (take (S i) bins)
              + (if decide (b ≤ Z.of_nat i)%Z then 1 else 0))%Z.
Proof.
  intros Hb. unfold bump.
  rewrite (proj2 (Z.leb_le _ _)), (proj2 (Z.ltb_lt _ _)) by lia. simpl.
  destruct (lookup_lt_is_Some_2 bins (Z.to_nat b)) as [n Hn]; [lia|].
  rewrite Hn. eexists. split; [done|]. split; [by rewrite length_insert|].
  intros i. rewrite (Zsum_take_insert _ _ _ _ Hn).
  destruct (decide (Z.to_nat b < S i)), (decide (b ≤ Z.of_nat i)%Z); lia.
Qed.

Lemma fill_bins_total (c : Clustering R) (dist : list R) (bins : list Z) :
  (0 < bins_num c ≤ 32767)%Z →
  length bins = Z.to_nat (bins_num c) →
  (∀ d, d ∈ dist → unit_interval d) →
  ∃ bins', fill_bins c dist bins = Ok bins'
    ∧ length bins' = length bins
    ∧ ∀ i, Zsum (take (S i) bins')
           = (Zsum (take (S i) bins)
              + Z.of_nat (length (filter
                   (λ d, (bin_index (bins_num c) d ≤ Z.of_nat i)%Z) dist)))%Z.
Proof.
  intros HB. revert bins.
  induction dist as [|d dist IH]; intros bins Hlen Hunit; simpl.
  - exists bins. split; [done|]. split; [done|]. intros i. lia.
  - assert (Hd : unit_interval d) by (apply Hunit; by left).
    rewrite (bin_of_unit c d HB Hd). cbn [mbind result_bind].
    destruct (bump_Ok bins (bin_index (bins_num c) d))
      as (bins1 & -> & Hlen1 & Hsum1).
    { pose proof (bin_index_range (bins_num c) d (proj1 HB) Hd). lia. }
    cbn [mbind result_bind].
    destruct (IH bins1) as (bins' & -> & Hlen' & Hsum').
    { congruence. }
    { intros d' Hd'. apply Hunit. by right. }
    exists bins'. split; [done|]. split; [congruence|].
    intros i. rewrite Hsum', Hsum1, filter_cons.
    destruct (decide (bin_index (bins_num c) d ≤ Z.of_nat i)%Z); simpl; lia.
Qed.

Lemma foldl_IZR (l : list Z) (acc : Z) :
  foldl (λ (v : R) (b : Z), fadd v (of_Z b)) (IZR acc) l = IZR (acc + Zsum l).
Proof.
  revert acc. induction l as [|x l IH]; intros acc; simpl.
  - by rewrite Z.add_0_r.
  - change (fadd (IZR acc) (of_Z x)) with (IZR acc + IZR x)%R.
    rewrite <- plus_IZR, IH. f_equal. lia.
Qed.

Lemma cdf_entry_value (bins : list Z) (n : Z) (i : nat) :
  cdf_entry bins n i = (IZR (Zsum (take (S i) bins)) / IZR n)%R.
Proof.
  unfold cdf_entry. change (of_Z 0 : R) with (IZR 0).
  rewrite foldl_IZR. reflexivity.
Qed.

Lemma Zsum_replicate_zero (n i : nat) : Zsum (take i (replicate n 0%Z)) = 0%Z.
Proof.
  revert i. induction n as [|n IH]; intros [|i]; simpl; try done.
  by rewrite IH.
Qed.

(** The map built by the last loop of [compute_cdf] has the keys 0 to
    [len - 1]. *)
Lemma cdf_map_lookup (f : nat → R) (len : nat) (z : Z) :
  foldl (λ (cdf : gmap Z R) i, map_insert (Z.of_nat i) (f i) cdf) ∅ (seq 0 len)
    !! z
  = if decide (0 ≤ z < Z.of_nat len)%Z then Some (f (Z.to_nat z)) else None.
Proof.
  revert z. induction len as [|len IH]; intros z.
  - simpl. rewrite lookup_empty. by rewrite decide_False by lia.
  - rewrite seq_S, foldl_app. cbn [foldl]. rewrite Nat.add_0_l.
    set (M := foldl _ ∅ (seq 0 len)) in *. unfold map_insert.
    rewrite (IH (Z.of_nat len)), decide_False by lia.
    rewrite lookup_insert.
    destruct (decide (Z.of_nat len = z)) as [<-|Hne].
    + rewrite Nat2Z.id, decide_True by lia. done.
    + rewrite IH.
      destruct (decide (0 ≤ z < Z.of_nat len)%Z);
        [rewrite decide_True by lia | rewrite decide_False by lia]; done.
Qed.

Lemma filter_length_mono {A} (P Q : A → Prop) `{∀ x, Decision (P x)}
    `{∀ x, Decision (Q x)} (l : list A) :
  (∀ x, P x → Q x) → length (filter P l) ≤ length (filter Q l).
Proof.
  intros HPQ. induction l as [|x l IH]; [done|].
  rewrite !filter_cons.
  destruct (decide (P x)), (decide (Q x)); simpl; try lia.
  exfalso. auto.
Qed.

Lemma empirical_cdf_unit (B : Z) (dist : list R) (z : Z) :
  dist ≠ [] → unit_interval (empirical_cdf B dist z).
Proof.
  intros Hd. unfold empirical_cdf, unit_interval.
  assert (0 < INR (length dist))%R by (apply lt_0_INR; destruct dist; [done|simpl; lia]).
  pose proof (length_filter (λ d, (bin_index B d ≤ z)%Z) dist) as Hle.
  apply le_INR in Hle. pose proof (pos_INR (length (filter (λ d, (bin_index B d ≤ z)%Z) dist))).
  split.
  - apply Rmult_le_pos; [done|]. left. by apply Rinv_0_lt_compat.
  - apply (Rmult_le_reg_r (INR (length dist))); [done|].
    unfold Rdiv. rewrite Rmult_assoc, Rinv_l by lra. lra.
Qed.

Lemma empirical_cdf_mono (B : Z) (dist : list R) (z z' : Z) :
  dist ≠ [] → (z ≤ z')%Z →
  (empirical_cdf B dist z <= empirical_cdf B dist z')%R.
Proof.
  intros Hd Hz. unfold empirical_cdf.
  assert (0 < INR (length dist))%R by (apply lt_0_INR; destruct dist; [done|simpl; lia]).
  apply Rmult_le_compat_r; [left; by apply Rinv_0_lt_compat|].
  apply le_INR, filter_length_mono. intros d. lia.
Qed.

Lemma empirical_cdf_last (B : Z) (dist : list R) :
  dist ≠ [] → empirical_cdf B dist (B - 1) = 1%R.
Proof.
  intros Hd. unfold empirical_cdf.
  assert (Hall : filter (λ d, (bin_index B d ≤ B - 1)%Z) dist = dist).
  { clear Hd. induction dist as [|d dist IH]; [done|].
    rewrite filter_cons, decide_True by (unfold bin_index; lia). by rewrite IH. }
  rewrite Hall. apply Rinv_r, not_0_INR. by destruct dist.
Qed.

(** [compute_cdf] on values of [0,1] returns the map from the bins to the
    empirical distribution function. *)
Lemma compute_cdf_lookup (c : Clustering R) (dist : list R) :
  (0 < bins_num c ≤ 32767)%Z →
  (∀ d, d ∈ dist → unit_interval d) →
  ∃ cdf, compute_cdf c dist = Ok cdf
    ∧ ∀ z, cdf !! z
           = if decide (0 ≤ z < bins_num c)%Z
             then Some (empirical_cdf (bins_num c) dist z) else None.
Proof.
  intros HB Hunit. unfold compute_cdf.
  rewrite (proj2 (Z.ltb_ge _ _)) by lia.
  destruct (fill_bins_total c dist (replicate (Z.to_nat (bins_num c)) 0%Z) HB)
    as (bins & -> & Hlen & Hsum); [by rewrite length_replicate|done|].
  cbn [mbind result_bind]. eexists. split; [reflexivity|].
  intros z. rewrite cdf_map_lookup, Z2Nat.id by lia.
  destruct (decide (0 ≤ z < bins_num c)%Z) as [Hz|]; [|done].
  f_equal. rewrite cdf_entry_value, Hsum, Zsum_replicate_zero, Z.add_0_l.
  unfold empirical_cdf. rewrite Z2Nat.id by lia.
  by rewrite <- !INR_IZR_INZ.
Qed.

(** X5.  With a number of bins [B] between 1 and 32767 and a non-empty
    distribution of values of [0,1], [compute_cdf] returns a map whose keys
    are exactly the bins 0 to [B - 1]; the value at a bin is the fraction of
    the values whose bin, [floor (d * B)] with 1 counted in the last bin, is
    at most that bin.  The values lie in [0,1], do not decrease with the bin,
    and the value at the last bin is 1. *)
Theorem compute_cdf_empirical (c : Clustering R) (dist : list R) :
  (0 < bins_num c ≤ 32767)%Z →
  dist ≠ [] →
  (∀ d, d ∈ dist → unit_interval d) →
  ∃ cdf, compute_cdf c dist = Ok cdf
    ∧ (∀ z, is_Some (cdf !! z) ↔ (0 ≤ z < bins_num c)%Z)
    ∧ (∀ z, (0 ≤ z < bins_num c)%Z →
         cdf !! z = Some (empirical_cdf (bins_num c) dist z))
    ∧ (∀ z v, cdf !! z = Some v → unit_interval v)
    ∧ (∀ z z' v v', (z ≤ z')%Z → cdf !! z = Some v → cdf !! z' = Some v' →
         (v <= v')%R)
    ∧ cdf !! (bins_num c - 1)%Z = Some 1%R.
Proof.
  intros HB Hd Hunit.
  destruct (compute_cdf_lookup c dist HB Hunit) as (cdf & Hcdf & Hlook).
  exists cdf. split; [done|]. split; [|split; [|split; [|split]]].
  - intros z. rewrite Hlook.
    destruct (decide _) as [Hz|Hz]; split; intros Hx; try done;
      by destruct Hx.
  - intros z Hz. by rewrite Hlook, decide_True.
  - intros z v. rewrite Hlook. destruct (decide _); [|done].
    intros [= <-]. by apply empirical_cdf_unit.
  - intros z z' v v' Hz. rewrite !Hlook.
    destruct (decide _); [|done]. destruct (decide _); [|done].
    intros [= <-] [= <-]. by apply empirical_cdf_mono.
  - rewrite Hlook, decide_True by lia. f_equal. by apply empirical_cdf_last.
Qed.

Lemma equalize_unit (c : Clustering R) (dist : list R) (cdf : gmap Z R) (d : R) :
  (0 < bins_num c ≤ 32767)%Z →
  (∀ z, cdf !! z
        = if decide (0 ≤ z < bins_num c)%Z
          then Some (empirical_cdf (bins_num c) dist z) else None) →
  unit_interval d →
  equalize c cdf d
  = Ok (empirical_cdf (bins_num c) dist (bin_index (bins_num c) d) / 3)%R.
Proof.
  intros HB Hlook Hd. unfold equalize. rewrite (bin_of_unit c d HB Hd).
  cbn [mbind result_bind]. unfold map_at.
  rewrite Hlook, decide_True by (by apply bin_index_range; [lia|]).
  reflexivity.
Qed.

(** What [init_merging_parameters] leaves in mode EQUALIZATION. *)
Lemma equalization_parameters (deltas_c deltas_g deltas_h : list R)
    (c : Clustering R) :
  merging_type c = EQUALIZATION →
  (0 < bins_num c ≤ 32767)%Z →
  deltas_c ≠ [] → deltas_g ≠ [] → deltas_h ≠ [] →
  (∀ d, d ∈ deltas_c ++ deltas_g ++ deltas_h → unit_interval d) →
  ∃ c1, init_merging_parameters deltas_c deltas_g deltas_h c = (Ok (), c1)
    ∧ c1 = with_cdf_h (cdf_h c1) (with_cdf_g (cdf_g c1) (with_cdf_c (cdf_c c1) c))
    ∧ ∀ dc dg dh,
        unit_interval dc → unit_interval dg → unit_interval dh →
        let B := bins_num c in
        let w := (empirical_cdf B deltas_c (bin_index B dc) / 3
                  + empirical_cdf B deltas_g (bin_index B dg) / 3
                  + empirical_cdf B deltas_h (bin_index B dh) / 3)%R in
        unify c1 (dc, dg, dh) = Ok w ∧ unit_interval w.
Proof.
  intros Hm HB Hc Hg Hh Hunit. unfold init_merging_parameters. rewrite Hm.
  destruct (compute_cdf_lookup c deltas_c HB) as (cc & -> & Hcc).
  { intros d Hd. apply Hunit. rewrite !elem_of_app. auto. }
  destruct (compute_cdf_lookup (with_cdf_c cc c) deltas_g HB) as (cg & -> & Hcg).
  { intros d Hd. apply Hunit. rewrite !elem_of_app. auto. }
  destruct (compute_cdf_lookup (with_cdf_g cg (with_cdf_c cc c)) deltas_h HB)
    as (ch & -> & Hch).
  { intros d Hd. apply Hunit. rewrite !elem_of_app. auto. }
  eexists. split; [reflexivity|]. split; [reflexivity|].
  intros dc dg dh Hdc Hdg Hdh. cbv zeta.
  set (B := bins_num c).
  set (c1 := with_cdf_h ch (with_cdf_g cg (with_cdf_c cc c))).
  split.
  - unfold unify, t_c, t_g, t_h.
    replace (merging_type c1) with EQUALIZATION by (symmetry; exact Hm).
    rewrite (equalize_unit c1 deltas_c (cdf_c c1) dc HB Hcc Hdc).
    cbn [mbind result_bind].
    rewrite (equalize_unit c1 deltas_g (cdf_g c1) dg HB Hcg Hdg).
    cbn [mbind result_bind].
    rewrite (equalize_unit c1 deltas_h (cdf_h c1) dh HB Hch Hdh).
    reflexivity.
  - pose proof (empirical_cdf_unit B deltas_c (bin_index B dc) Hc) as [? ?].
    pose proof (empirical_cdf_unit B deltas_g (bin_index B dg) Hg) as [? ?].
    pose proof (empirical_cdf_unit B deltas_h (bin_index B dh) Hh) as [? ?].
    unfold unit_interval. split; lra.
Qed.

(** X6.  In mode EQUALIZATION, with a number of bins between 1 and 32767 and
    three non-empty distributions of values of [0,1],
    [init_merging_parameters] returns, and from then on the unified distance
    of three distances of [0,1] is defined: it is a third of the sum of the
    three empirical distribution functions at the bins of the distances, and
    lies in [0,1]. *)
Theorem equalization_unify (deltas_c deltas_g deltas_h : list R)
    (c : Clustering R) :
  merging_type c = EQUALIZATION →
  (0 < bins_num c ≤ 32767)%Z →
  deltas_c ≠ [] → deltas_g ≠ [] → deltas_h ≠ [] →
  (∀ d, d ∈ deltas_c ++ deltas_g ++ deltas_h → unit_interval d) →
  ∃ c1, init_merging_parameters deltas_c deltas_g deltas_h c = (Ok (), c1)
    ∧ merging_type c1 = EQUALIZATION
    ∧ bins_num c1 = bins_num c
    ∧ ∀ dc dg dh,
        unit_interval dc → unit_interval dg → unit_interval dh →
        let B := bins_num c in
        let w := (empirical_cdf B deltas_c (bin_index B dc) / 3
                  + empirical_cdf B deltas_g (bin_index B dg) / 3
                  + empirical_cdf B deltas_h (bin_index B dh) / 3)%R in
        unify c1 (dc, dg, dh) = Ok w ∧ unit_interval w.
Proof.
  intros Hm HB Hc Hg Hh Hunit.
  destruct (equalization_parameters deltas_c deltas_g deltas_h c
              Hm HB Hc Hg Hh Hunit) as (c1 & Hc1 & Hshape & Hunify).
  exists c1. split; [done|]. rewrite Hshape. simpl.
  split; [done|]. split; [done|]. rewrite <- Hshape. exact Hunify.
Qed.
End Equalization.

Lemma sample_distribution_unit (d : R) :
  d ∈ [0; 1 / 2; 1]%R → unit_interval d.
Proof.
  intros Hd. unfold unit_interval.
  repeat (apply elem_of_cons in Hd as [-> | Hd]); try lra.
  by apply elem_of_nil in Hd.
Qed.

(** [compute_cdf_empirical] with 500 bins on the values 0, 0.5 and 1. *)
Lemma compute_cdf_empirical_witness :
  ∃ cdf, compute_cdf (Examples.object (T:=R) EQUALIZATION) [0; 1 / 2; 1]%R
           = Ok cdf
    ∧ cdf !! 499%Z = Some 1%R.
Proof.
  destruct (compute_cdf_empirical (Examples.object EQUALIZATION) [0; 1 / 2; 1]%R)
    as (cdf & Hcdf & _ & _ & _ & _ & Hlast).
  - simpl. lia.
  - discriminate.
  - exact sample_distribution_unit.
  - exists cdf. split; [exact Hcdf | exact Hlast].
Defined.

(** [equalization_unify] with 500 bins, the three distributions being the
    values 0, 0.5 and 1. *)
Lemma equalization_unify_witness :
  ∃ c1, init_merging_parameters [0; 1 / 2; 1]%R [0; 1 / 2; 1]%R [0; 1 / 2; 1]%R
          (Examples.object (T:=R) EQUALIZATION) = (Ok (), c1)
    ∧ merging_type c1 = EQUALIZATION.
Proof.
  destruct (equalization_unify [0; 1 / 2; 1]%R [0; 1 / 2; 1]%R [0; 1 / 2; 1]%R
              (Examples.object EQUALIZATION))
    as (c1 & Hc1 & Hm & _).
  - reflexivity.
  - simpl. lia.
  - discriminate.
  - discriminate.
  - discriminate.
  - intros d [Hd | [Hd | Hd]%elem_of_app]%elem_of_app;
      by apply sample_distribution_unit.
  - exists c1. by split.
Defined.

(** ** No bin at all *)

Section ZeroBins.
Context `{External R}.

Lemma Int_part_zero : Int_part 0 = 0%Z.
Proof. destruct (Int_part_bounds 0 0); [simpl; lra|lia]. Qed.

Lemma compute_cdf_zero_bins (c : Clustering R) (dist : list R) :
  bins_num c = 0%Z → dist ≠ [] →
  compute_cdf c dist = Abort undefined_behaviour.
Proof.
  intros HB Hd. destruct dist as [|d dist]; [done|].
  unfold compute_cdf. rewrite HB. simpl Z.ltb. cbn [Z.to_nat replicate fill_bins].
  unfold bin_of. rewrite HB. cbn [ffloor R_scalar].
  change (fmul d (of_Z 0)) with (d * 0)%R. rewrite Rmult_0_r, Int_part_zero.
  reflexivity.
Qed.

Lemma length_ms_insert (k : R) (l : list R) :
  length (ms_insert k l) = S (length l).
Proof.
  induction l as [|x l IH]; [done|].
  cbn [ms_insert]. destruct (flt k x); cbn [length]; by rewrite ?IH.
Qed.

Lemma collect_deltas_count (c : Clustering R) (segs : gmap N (Supervoxel R))
    (edges : list (R * (N * N)))
    (acc out : gmap (N * N) (R * R * R) * list R * list R * list R) :
  collect_deltas c segs edges acc = Ok out →
  length out.1.1.2 = length acc.1.1.2 + length edges.
Proof.
  revert acc. induction edges as [|it edges IH]; intros acc; simpl.
  - intros [= <-]. lia.
  - destruct acc as [[[temp dc] dg] dh]. unfold map_at.
    destruct (segs !! it.2.1); [|discriminate].
    destruct (segs !! it.2.2); [|discriminate].
    cbn [mbind result_bind]. intros Hr%IH. rewrite Hr. simpl.
    rewrite length_ms_insert. lia.
Qed.

(** X7.  With [bins_num] equal to 0, a value that [set_bins_num] accepts,
    [compute_cdf] on a non-empty distribution indexes the empty array of
    counters at -1.  So in mode EQUALIZATION [init_weights], on an initial
    state with at least one edge whose edges end at regions of the table,
    does not return: it stops on that undefined access, the object
    unchanged. *)
Theorem zero_bins_abort (c : Clustering R) :
  merging_type c = EQUALIZATION →
  bins_num c = 0%Z →
  weight_map (initial_state c) ≠ [] →
  endpoints_present (segments (initial_state c)) (weight_map (initial_state c)) →
  (∀ dist, dist ≠ [] → compute_cdf c dist = Abort undefined_behaviour)
  ∧ init_weights c = (Abort undefined_behaviour, c).
Proof.
  intros Hm HB Hw Hend. split; [intros dist; by apply compute_cdf_zero_bins|].
  unfold init_weights.
  destruct (collect_deltas_total c _ _ (∅, [], [], []) Hend)
    as ([[[temp dc] dg] dh] & Hcollect & _).
  rewrite Hcollect. apply collect_deltas_count in Hcollect. simpl in Hcollect.
  unfold init_merging_parameters. rewrite Hm.
  rewrite compute_cdf_zero_bins; [done|done|].
  intros ->. destruct (weight_map (initial_state c)); [done|discriminate].
Qed.
End ZeroBins.

(** [zero_bins_abort] on the triangle of three regions. *)
Lemma zero_bins_abort_witness :
  @init_weights R R_scalar Examples.sample_external
    (with_bins_num 0 (Examples.merging_object EQUALIZATION))
  = (Abort undefined_behaviour,
     with_bins_num 0 (Examples.merging_object EQUALIZATION)).
Proof.
  apply (@zero_bins_abort Examples.sample_external
           (with_bins_num 0 (Examples.merging_object EQUALIZATION))).
  - reflexivity.
  - reflexivity.
  - discriminate.
  - apply triangle_well_formed.
Defined.

(** ** The graph and the table after a merge *)

Section MergeGraph.
Context {T : Type} `{Scalar T} `{External T}.

Lemma insert_reweighted_weight (c : Clustering T)
    (segs : gmap N (Supervoxel T)) (p : N * N)
    (new_map out : list (T * (N * N))) :
  insert_reweighted c segs p new_map = Ok out →
  (out = new_map ∧ p ∈ new_map.*2)
  ∨ (∃ w s1 s2, out = mm_insert w p new_map ∧ (p ∉ new_map.*2)
        ∧ segs !! p.1 = Some s1 ∧ segs !! p.2 = Some s2
        ∧ delta c s1 s2 = Ok w).
Proof.
  unfold insert_reweighted. destruct p as [a b]; simpl.
  destruct (contains new_map a b) eqn:Hc.
  - intros [= <-]. left. split; [done|]. by apply contains_spec.
  - unfold map_at.
    destruct (segs !! a) as [s1|] eqn:Ha; [|discriminate].
    destruct (segs !! b) as [s2|] eqn:Hb; [|discriminate].
    cbn [mbind result_bind].
    destruct (delta c s1 s2) as [w|] eqn:Hd; [|discriminate].
    cbn [mbind result_bind]. intros [= <-]. right. exists w, s1, s2.
    split; [done|]. split; [|done].
    intros Hin%contains_spec. congruence.
Qed.

Lemma relabel_untouched (ids p : N * N) :
  touches ids p = false → relabel ids p = p.
Proof.
  intros (H1 & H2 & H3 & H4)%touches_false. unfold relabel.
  apply N.eqb_neq in H1, H2, H3, H4. by rewrite H1, H2, H3, H4.
Qed.

Lemma relabel_touches (ids p : N * N) :
  touches ids p = true → touches ids (relabel ids p) = true.
Proof.
  unfold touches, relabel. destruct ids as [u v], p as [a b]; cbn [fst snd].
  destruct (N.eqb_spec a u) as [->|Hau]; cbn [orb fst snd].
  { intros _. by rewrite N.eqb_refl. }
  destruct (N.eqb_spec b u) as [->|Hbu]; cbn [orb fst snd].
  { intros _. by rewrite N.eqb_refl, orb_true_r. }
  destruct (N.eqb_spec a v) as [->|Hav]; cbn [orb fst snd].
  { intros _. by rewrite N.eqb_refl. }
  destruct (N.eqb_spec b v) as [->|Hbv]; cbn [orb fst snd]; [|done].
  intros _. destruct (a <? u)%N; cbn [fst snd]; rewrite N.eqb_refl;
    by rewrite ?orb_true_r.
Qed.

Lemma relabel_canonical (ids p : N * N) :
  (ids.1 < ids.2)%N → (p.1 < p.2)%N → ((relabel ids p).1 < (relabel ids p).2)%N.
Proof.
  unfold relabel. destruct ids as [u v], p as [a b]; cbn [fst snd].
  intros Huv Hab.
  destruct (N.eqb_spec a u) as [->|Hau]; cbn [orb fst snd]; [done|].
  destruct (N.eqb_spec b u) as [->|Hbu]; cbn [orb fst snd]; [done|].
  destruct (N.eqb_spec a v) as [->|Hav]; cbn [fst snd]; [lia|].
  destruct (N.eqb_spec b v) as [->|Hbv]; cbn [fst snd]; [|done].
  destruct (N.ltb_spec a u); cbn [fst snd]; lia.
Qed.

(** The pairs of labels that the loop of [merge] writes: those of the map it
    started from and the relabelled pairs of the edges it visited. *)
Lemma merge_rewrite_pairs (c : Clustering T) (segs : gmap N (Supervoxel T))
    (ids : N * N) (todo new_map out : list (T * (N * N))) :
  merge_rewrite c segs ids todo new_map = Ok out →
  ∀ p, p ∈ out.*2 ↔ p ∈ new_map.*2 ∨ ∃ q, q ∈ todo.*2 ∧ p = relabel ids q.
Proof.
  revert new_map. induction todo as [|[w0 p0] todo IH]; intros new_map; simpl.
  - intros [= <-] p. split; [by left|].
    intros [? | (q & Hq & _)]; [done|]. by apply elem_of_nil in Hq.
  - destruct (merge_visit c segs ids (w0, p0) new_map) as [nm|] eqn:Hv;
      cbn [mbind result_bind]; [|discriminate].
    intros Hr p. rewrite (IH _ Hr p).
    assert (Hnm : ∀ p', p' ∈ nm.*2 ↔ p' ∈ new_map.*2 ∨ p' = relabel ids p0).
    { rewrite merge_visit_cases in Hv. simpl in Hv.
      destruct (touches ids p0) eqn:Ht.
      - apply insert_reweighted_Ok in Hv as [[-> Hin] | (w & -> & _)].
        + intros p'. split; [by left|]. by intros [? | ->].
        + intros p'. rewrite fmap_snd_mm_insert, elem_of_cons. tauto.
      - injection Hv as <-. intros p'.
        rewrite fmap_snd_mm_insert, elem_of_cons, relabel_untouched by done.
        tauto. }
    rewrite Hnm. split.
    + intros [[? | ->] | (q & Hq & ->)].
      * by left.
      * right. exists p0. split; [by left|done].
      * right. exists q. split; [by right|done].
    + intros [? | (q & [-> | Hq]%elem_of_cons & ->)].
      * by left; left.
      * by left; right.
      * right. eauto.
Qed.

(** The weights that the loop of [merge] writes: an edge that touches
    neither merged region is copied, the others are weighted by [delta] on
    the table [segs]. *)
Lemma merge_rewrite_weights (c : Clustering T) (segs : gmap N (Supervoxel T))
    (ids : N * N) (todo new_map out : list (T * (N * N))) :
  merge_rewrite c segs ids todo new_map = Ok out →
  ∀ e, e ∈ out →
    e ∈ new_map
    ∨ (e ∈ todo ∧ touches ids e.2 = false)
    ∨ (touches ids e.2 = true
       ∧ ∃ s1 s2, segs !! e.2.1 = Some s1 ∧ segs !! e.2.2 = Some s2
           ∧ delta c s1 s2 = Ok e.1).
Proof.
  revert new_map. induction todo as [|[w0 p0] todo IH]; intros new_map; simpl.
  - intros [= <-] e He. by left.
  - destruct (merge_visit c segs ids (w0, p0) new_map) as [nm|] eqn:Hv;
      cbn [mbind result_bind]; [|discriminate].
    intros Hr e He.
    destruct (IH _ Hr e He) as [Hin | [[Hin Ht] | Hd]].
    + rewrite merge_visit_cases in Hv. simpl in Hv.
      destruct (touches ids p0) eqn:Ht.
      * apply insert_reweighted_weight in Hv
          as [[-> _] | (w & s1 & s2 & -> & _ & H1 & H2 & Hd)]; [by left|].
        apply elem_of_mm_insert in Hin as [-> | Hin]; [|by left].
        right; right. simpl. split; [by apply relabel_touches|]. eauto.
      * injection Hv as <-.
        apply elem_of_mm_insert in Hin as [-> | Hin]; [|by left].
        right; left. split; [by left|done].
    + right; left. split; [by right|done].
    + by right; right.
Qed.

Lemma all_voxels_after_merge (ids : N * N) (sup1 sup2 : Supervoxel T)
    (segs : gmap N (Supervoxel T)) :
  ids.1 ≠ ids.2 →
  segs !! ids.1 = Some sup1 → segs !! ids.2 = Some sup2 →
  all_voxels (table_after_merge ids (merged_supervoxel sup1 sup2) segs)
  ≡ₚ all_voxels segs.
Proof.
  intros Hne H1 H2. unfold all_voxels, table_after_merge.
  rewrite map_to_list_insert
    by (by rewrite lookup_delete_ne, lookup_delete_eq).
  rewrite <- (map_to_list_delete segs ids.1 sup1 H1).
  rewrite <- (map_to_list_delete (delete ids.1 segs) ids.2 sup2)
    by (by rewrite lookup_delete_ne).
  rewrite !bind_cons. simpl. by rewrite (assoc_L (++)).
Qed.

Lemma size_after_merge (ids : N * N) (s : Supervoxel T)
    (segs : gmap N (Supervoxel T)) :
  ids.1 ≠ ids.2 →
  is_Some (segs !! ids.1) → is_Some (segs !! ids.2) →
  S (size (table_after_merge ids s segs)) = size segs.
Proof.
  intros Hne H1 H2. unfold table_after_merge.
  rewrite map_size_insert_None by (by rewrite lookup_delete_ne, lookup_delete_eq).
  rewrite map_size_delete_Some by (by rewrite lookup_delete_ne).
  rewrite map_size_delete_Some by done.
  assert (2 ≤ size segs); [|lia].
  destruct H1 as [s1 H1], H2 as [s2 H2].
  rewrite <- (insert_id segs ids.1 s1 H1), <- insert_delete_eq.
  rewrite map_size_insert_None by apply lookup_delete_eq.
  rewrite <- (insert_id (delete ids.1 segs) ids.2 s2)
    by (by rewrite lookup_delete_ne).
  rewrite <- insert_delete_eq.
  rewrite map_size_insert_None by apply lookup_delete_eq. lia.
Qed.

(** X8.  Whenever [merge ids] returns, in any mode: the pairs of labels of
    the new graph are the relabelled pairs of the old edges after the first
    one; an edge that touches neither [ids.1] nor [ids.2] is an old edge with
    its old weight; every other edge is weighted by [delta] of the two
    regions it joins in the new table. *)
Theorem merge_relabels_graph (ids : N * N) (c c' : Clustering T)
    (first : T * (N * N)) (rest : list (T * (N * N))) :
  weight_map (state c) = first :: rest →
  merge ids c = (Ok (), c') →
  (∀ p, p ∈ (weight_map (state c')).*2 ↔ ∃ q, q ∈ rest.*2 ∧ p = relabel ids q)
  ∧ (∀ e, e ∈ weight_map (state c') → touches ids e.2 = false → e ∈ rest)
  ∧ (∀ e, e ∈ weight_map (state c') → touches ids e.2 = true →
       ∃ s1 s2, segments (state c') !! e.2.1 = Some s1
         ∧ segments (state c') !! e.2.2 = Some s2
         ∧ delta c' s1 s2 = Ok e.1).
Proof.
  intros Hw (sup1 & sup2 & first' & rest' & new_map & _ & _ & Hw' & Hr & ->)%merge_Ok_inv.
  rewrite Hw in Hw'. injection Hw' as <- <-. simpl.
  split; [|split].
  - intros p. rewrite (merge_rewrite_pairs _ _ _ _ _ _ Hr p). split.
    + intros [Hin | ?]; [|done]. by apply elem_of_nil in Hin.
    + by right.
  - intros e He Ht.
    destruct (merge_rewrite_weights _ _ _ _ _ _ Hr e He)
      as [Hin | [[Hin _] | [Ht' _]]]; [|done|congruence].
    by apply elem_of_nil in Hin.
  - intros e He Ht.
    destruct (merge_rewrite_weights _ _ _ _ _ _ Hr e He)
      as [Hin | [[_ Ht'] | [_ Hd]]]; [|congruence|exact Hd].
    by apply elem_of_nil in Hin.
Qed.

(** X9.  Whenever [merge ids] of two different labels returns: the table has
    lost the label [ids.2] and nothing else, so it is one region smaller;
    the regions under the other labels are as before; the voxels of all the
    regions together are the same as before; and only the current state of
    the object has changed. *)
Theorem merge_table (ids : N * N) (c c' : Clustering T) :
  ids.1 ≠ ids.2 →
  merge ids c = (Ok (), c') →
  (∀ k, is_Some (segments (state c') !! k)
        ↔ is_Some (segments (state c) !! k) ∧ k ≠ ids.2)
  ∧ S (size (segments (state c'))) = size (segments (state c))
  ∧ (∀ k, k ≠ ids.1 → k ≠ ids.2 →
        segments (state c') !! k = segments (state c) !! k)
  ∧ all_voxels (segments (state c')) ≡ₚ all_voxels (segments (state c))
  ∧ c' = with_state (state c') c.
Proof.
  intros Hne (sup1 & sup2 & first & rest & new_map & H1 & H2 & _ & _ & ->)%merge_Ok_inv.
  simpl. split; [|split; [|split; [|split]]].
  - intros k. destruct (decide (k = ids.1)) as [->|Hk1].
    { rewrite table_after_merge_first, H1. split; [eauto|eauto]. }
    destruct (decide (k = ids.2)) as [->|Hk2].
    { rewrite table_after_merge_second by done. split.
      - by intros [? ?].
      - by intros [_ ?]. }
    rewrite table_after_merge_other by done. tauto.
  - apply size_after_merge; eauto.
  - intros k Hk1 Hk2. by apply table_after_merge_other.
  - by apply all_voxels_after_merge.
  - done.
Qed.

(** X10.  In the two lambda modes, merging the first edge of a well-formed
    state returns and leaves a well-formed state with fewer edges: the
    smaller label first on every edge, no pair of labels twice, both ends of
    every edge in the table. *)
Theorem merge_keeps_well_formed (c : Clustering T) (w : T) (ids : N * N)
    (rest : list (T * (N * N))) :
  merging_type c ≠ EQUALIZATION →
  well_formed (state c) →
  weight_map (state c) = (w, ids) :: rest →
  ∃ c', merge ids c = (Ok (), c')
    ∧ well_formed (state c')
    ∧ length (weight_map (state c')) < length (weight_map (state c))
    ∧ merging_type c' ≠ EQUALIZATION.
Proof.
  intros Hm Hwf Hw.
  destruct (merge_total c w ids rest Hm Hwf Hw) as (c' & Hc' & Hwf' & Hlen & Hfr).
  exists c'. split; [done|]. split; [done|]. split.
  - rewrite Hw. simpl. lia.
  - by rewrite Hfr.
Qed.

(** The loop of [merge] does not end normally when an edge still to visit
    joins the two merged labels: no entry written so far ends at [ids.2],
    and the lookup of [ids.2] fails. *)
Lemma merge_rewrite_stale (c : Clustering T) (segs : gmap N (Supervoxel T))
    (ids : N * N) (todo new_map : list (T * (N * N))) :
  ids.1 ≠ ids.2 →
  segs !! ids.2 = None →
  (∃ e, e ∈ todo ∧ e.2 = ids) →
  unreferenced ids.2 new_map →
  (∀ e, e ∈ todo → touches ids e.2 = false →
        e.2.1 ≠ ids.2 ∧ e.2.2 ≠ ids.2) →
  ∃ f, merge_rewrite c segs ids todo new_map = Abort f.
Proof.
  intros Hne Hv. revert new_map.
  induction todo as [|[w0 p0] todo IH]; intros new_map (e & He & Heq) Hun Hfree.
  { by apply elem_of_nil in He. }
  simpl. rewrite merge_visit_cases. simpl.
  destruct (touches ids p0) eqn:Ht.
  - destruct (insert_reweighted c segs (relabel ids p0) new_map) as [nm|f] eqn:Hi;
      cbn [mbind result_bind]; [|eauto].
    apply elem_of_cons in He as [-> | He].
    + simpl in Heq. subst p0.
      apply insert_reweighted_Ok in Hi as [[_ Hin] | (w & _ & _ & _ & [s Hs])].
      * apply list_elem_of_fmap in Hin as (e' & Heq' & Hin').
        destruct (Hun e' Hin') as [_ Hb]. exfalso. apply Hb.
        rewrite <- Heq'. unfold relabel.
        destruct ids as [u v]; simpl. by rewrite N.eqb_refl.
      * exfalso. revert Hs. unfold relabel. destruct ids as [u v]; simpl in *.
        rewrite N.eqb_refl. simpl. by rewrite Hv.
    + apply IH; [eauto| |].
      * apply insert_reweighted_Ok in Hi as [[-> _] | (w & -> & _ & [s1 H1] & [s2 H2])];
          [done|].
        intros e' [-> | Hin]%elem_of_mm_insert; [|by apply Hun].
        simpl. split; intros Heq'; rewrite Heq' in *; congruence.
      * intros e' He'. apply Hfree. by right.
  - cbn [mbind result_bind].
    apply elem_of_cons in He as [-> | He].
    { simpl in Heq. subst p0. exfalso. revert Ht. unfold touches.
      by rewrite N.eqb_refl. }
    apply IH; [eauto| |].
    + intros e' [-> | Hin]%elem_of_mm_insert; [|by apply Hun].
      apply (Hfree (w0, p0)); [by left|done].
    + intros e' He'. apply Hfree. by right.
Qed.

(** X11.  A pair of labels stored on two edges stops [merge]: when the edge
    [ids] of two different regions occurs again after the first entry,
    [merge ids] does not return.  It ends with a failure that leaves the
    table already updated, the label [ids.2] gone, and the graph as it was,
    [ids.2] still at the end of an edge. *)
Theorem merge_repeated_edge (ids : N * N) (c : Clustering T)
    (sup1 sup2 : Supervoxel T) (first e : T * (N * N))
    (rest : list (T * (N * N))) :
  ids.1 ≠ ids.2 →
  segments (state c) !! ids.1 = Some sup1 →
  segments (state c) !! ids.2 = Some sup2 →
  weight_map (state c) = first :: rest →
  e ∈ rest → e.2 = ids →
  ∃ f c', merge ids c = (Abort f, c')
    ∧ not_refused (merge ids c).1
    ∧ segments (state c')
      = table_after_merge ids (merged_supervoxel sup1 sup2) (segments (state c))
    ∧ segments (state c') !! ids.2 = None
    ∧ weight_map (state c') = weight_map (state c)
    ∧ ¬ endpoints_present (segments (state c')) (weight_map (state c')).
Proof.
  intros Hne H1 H2 Hw He Heq.
  pose proof (not_refused_merge ids c) as Hnr. revert Hnr.
  unfold merge, map_at. rewrite H1, H2, map_insert_after_delete, Hw.
  set (segs := table_after_merge ids (merged_supervoxel sup1 sup2)
                 (segments (state c))).
  set (c1 := with_state _ c).
  assert (Hv : segs !! ids.2 = None) by (by apply table_after_merge_second).
  destruct (merge_rewrite_stale c1 segs ids rest [] Hne Hv) as [f Hf].
  - eauto.
  - by intros e' ?%elem_of_nil.
  - intros e' _ (_ & _ & Ha & Hb)%touches_false. done.
  - rewrite Hf. intros Hnr. exists f, c1.
    split; [done|]. split; [done|]. split; [done|]. split; [done|].
    split; [done|].
    intros Hend. destruct (Hend e) as [_ [s Hs]].
    { simpl. rewrite Hw. by right. }
    simpl in Hs. rewrite Heq in Hs. fold segs in Hs. congruence.
Qed.

(** X12.  An edge from a region to itself can be merged: whenever
    [merge (u, u)] returns, the table has the same labels, and the region
    under [u] holds its former voxels twice, and its friction samples
    twice. *)
Theorem merge_self_loop (u : N) (c c' : Clustering T) (s : Supervoxel T) :
  segments (state c) !! u = Some s →
  merge (u, u) c = (Ok (), c') →
  segments (state c') = <[u := merged_supervoxel s s]> (segments (state c))
  ∧ size (segments (state c')) = size (segments (state c))
  ∧ ∃ s', segments (state c') !! u = Some s'
      ∧ voxels_ s' = voxels_ s ++ voxels_ s
      ∧ frictions_ s' = frictions_ s ++ frictions_ s.
Proof.
  intros Hu (sup1 & sup2 & first & rest & new_map & H1 & H2 & _ & _ & ->)%merge_Ok_inv.
  simpl in *. rewrite Hu in H1, H2. injection H1 as <-. injection H2 as <-.
  unfold table_after_merge. simpl. rewrite !insert_delete_eq.
  split; [done|]. split.
  - apply map_size_insert_Some. eauto.
  - exists (merged_supervoxel s s). by rewrite lookup_insert_eq.
Qed.
End MergeGraph.

(** [merge_relabels_graph] on the triangle: after the merge of (1,2) the
    edges (1,3), (2,3) have become the one edge (1,3), weighted by [delta]. *)
Lemma merge_relabels_graph_witness :
  ∃ c', @merge R R_scalar Examples.sample_external (1, 2)%N
          (Examples.merging_object MANUAL_LAMBDA) = (Ok (), c')
    ∧ ∀ p, p ∈ (weight_map (state c')).*2
           ↔ ∃ q, q ∈ [(1, 3)%N; (2, 3)%N] ∧ p = relabel (1, 2)%N q.
Proof.
  destruct (@merge_total R R_scalar Examples.sample_external
              (Examples.merging_object MANUAL_LAMBDA) half (1, 2)%N
              [(half, (1, 3)%N); (half, (2, 3)%N)])
    as (c' & Hc' & _); [discriminate | exact triangle_well_formed | reflexivity |].
  exists c'. split; [exact Hc'|].
  exact (proj1 (@merge_relabels_graph R R_scalar Examples.sample_external
                  (1, 2)%N (Examples.merging_object MANUAL_LAMBDA) c'
                  (half, (1, 2)%N) [(half, (1, 3)%N); (half, (2, 3)%N)]
                  eq_refl Hc')).
Defined.

(** [merge_table] on the same merge: two regions are left of three. *)
Lemma merge_table_witness :
  ∃ c', @merge R R_scalar Examples.sample_external (1, 2)%N
          (Examples.merging_object MANUAL_LAMBDA) = (Ok (), c')
    ∧ S (size (segments (state c')))
      = size (segments (state (Examples.merging_object (T:=R) MANUAL_LAMBDA))).
Proof.
  destruct (@merge_total R R_scalar Examples.sample_external
              (Examples.merging_object MANUAL_LAMBDA) half (1, 2)%N
              [(half, (1, 3)%N); (half, (2, 3)%N)])
    as (c' & Hc' & _); [discriminate | exact triangle_well_formed | reflexivity |].
  exists c'. split; [exact Hc'|].
  destruct (@merge_table R R_scalar Examples.sample_external (1, 2)%N
              (Examples.merging_object MANUAL_LAMBDA) c')
    as (_ & Hsize & _); [discriminate | exact Hc' | exact Hsize].
Defined.

(** [merge_keeps_well_formed] on the triangle, in binary32. *)
Lemma merge_keeps_well_formed_witness :
  ∃ c', @merge spec_float b32_scalar Examples.sample_external (1, 2)%N
          (Examples.merging_object ADAPTIVE_LAMBDA) = (Ok (), c')
    ∧ well_formed (state c').
Proof.
  destruct (@merge_keeps_well_formed spec_float b32_scalar
              Examples.sample_external
              (Examples.merging_object ADAPTIVE_LAMBDA) half (1, 2)%N
              [(half, (1, 3)%N); (half, (2, 3)%N)])
    as (c' & Hc' & Hwf & _); [discriminate | exact triangle_well_formed | reflexivity |].
  exists c'. by split.
Defined.

(** [merge_repeated_edge] on two regions whose edge (1,2) is stored twice. *)
Lemma merge_repeated_edge_witness :
  ∃ f c', @merge spec_float b32_scalar Examples.sample_external (1, 2)%N
            doubled_edge_object = (Abort f, c')
    ∧ segments (state c') !! 2%N = None
    ∧ weight_map (state c') = [(half, (1, 2)%N); (half, (1, 2)%N)].
Proof.
  destruct (@merge_repeated_edge spec_float b32_scalar Examples.sample_external
              (1, 2)%N doubled_edge_object
              (Examples.region 0 0 0 0 half) (Examples.region 1 0 0 0 half)
              (half, (1, 2)%N) (half, (1, 2)%N) [(half, (1, 2)%N)])
    as (f & c' & Hm & _ & _ & Hgone & Hw & _).
  - discriminate.
  - reflexivity.
  - reflexivity.
  - reflexivity.
  - by left.
  - reflexivity.
  - exists f, c'. split; [exact Hm|]. split; [exact Hgone|exact Hw].
Defined.

Lemma self_loop_merge_returns :
  ∃ c', @merge spec_float b32_scalar Examples.sample_external (1, 1)%N
          self_loop_object = (Ok (), c').
Proof. eexists. vm_compute. reflexivity. Qed.

(** [merge_self_loop] on one region with an edge to itself: the merge returns
    and the region has two voxels instead of one. *)
Lemma merge_self_loop_witness :
  ∃ c' s', @merge spec_float b32_scalar Examples.sample_external (1, 1)%N
             self_loop_object = (Ok (), c')
    ∧ segments (state c') !! 1%N = Some s'
    ∧ length (voxels_ s') = 2.
Proof.
  destruct self_loop_merge_returns as [c' Hc'].
  destruct (@merge_self_loop spec_float b32_scalar Examples.sample_external
              1%N self_loop_object c' (Examples.region 0 0 0 0 half))
    as (_ & _ & s' & Hs' & Hvox & _); [reflexivity | exact Hc' |].
  exists c', s'. split; [exact Hc'|]. split; [exact Hs'|].
  by rewrite Hvox.
Defined.

(** ** What the loop keeps *)

Section LoopFrame.
Context {T : Type} `{Scalar T} `{External T}.

Lemma table_after_merge_dom (ids : N * N) (s : Supervoxel T)
    (segs : gmap N (Supervoxel T)) (k : N) :
  is_Some (segs !! ids.1) →
  is_Some (table_after_merge ids s segs !! k) → is_Some (segs !! k).
Proof.
  intros Hu. unfold table_after_merge.
  destruct (decide (k = ids.1)) as [->|Hk]; [done|].
  rewrite lookup_insert_ne by done.
  intros [x [_ [_ Hx]%lookup_delete_Some]%lookup_delete_Some]. eauto.
Qed.

(** Whatever its outcome, [merge] changes only the current state, adds no
    label to the table and no edge to the graph. *)
Lemma merge_frame (ids : N * N) (c : Clustering T) :
  let c' := (merge ids c).2 in
  c' = with_state (state c') c
  ∧ (∀ k, is_Some (segments (state c') !! k) → is_Some (segments (state c) !! k))
  ∧ length (weight_map (state c')) ≤ length (weight_map (state c)).
Proof.
  unfold merge, map_at.
  destruct (segments (state c) !! ids.1) as [sup1|] eqn:H1.
  2: { destruct (segments (state c) !! ids.2); simpl;
         by rewrite with_state_id. }
  destruct (segments (state c) !! ids.2) as [sup2|] eqn:H2.
  2: { simpl. by rewrite with_state_id. }
  rewrite map_insert_after_delete.
  assert (Hdom : ∀ k,
    is_Some (table_after_merge ids (merged_supervoxel sup1 sup2)
               (segments (state c)) !! k) → is_Some (segments (state c) !! k)).
  { intros k. apply table_after_merge_dom. eauto. }
  destruct (weight_map (state c)) as [|first rest] eqn:Hw.
  { simpl. rewrite Hw. done. }
  destruct (merge_rewrite _ _ ids rest []) as [new_map|f] eqn:Hr.
  - simpl. split; [done|]. split; [done|].
    apply merge_rewrite_length in Hr. simpl in Hr. lia.
  - simpl. rewrite Hw. done.
Qed.

Lemma frame_refl (c : Clustering T) :
  c = with_state (state c) c
  ∧ (∀ k, is_Some (segments (state c) !! k) → is_Some (segments (state c) !! k))
  ∧ length (weight_map (state c)) ≤ length (weight_map (state c)).
Proof. by rewrite with_state_id. Qed.

Lemma merge_loop_frame (fuel : nat) (threshold : T) (c c' : Clustering T)
    (r : result unit) :
  merge_loop fuel threshold c = (r, c') →
  c' = with_state (state c') c
  ∧ (∀ k, is_Some (segments (state c') !! k) → is_Some (segments (state c) !! k))
  ∧ length (weight_map (state c')) ≤ length (weight_map (state c)).
Proof.
  revert c. induction fuel as [|fuel IH]; intros c; cbn [merge_loop].
  - destruct (weight_map (state c)) as [|next rest] eqn:Hw;
      [intros [= <- <-]; rewrite <- Hw; apply frame_refl|].
    destruct (flt next.1 threshold); intros [= <- <-]; rewrite <- Hw;
      apply frame_refl.
  - destruct (weight_map (state c)) as [|next rest] eqn:Hw;
      [intros [= <- <-]; rewrite <- Hw; apply frame_refl|].
    destruct (flt next.1 threshold);
      [|intros [= <- <-]; rewrite <- Hw; apply frame_refl].
    pose proof (merge_frame next.2 c) as Hm. cbv zeta in Hm.
    rewrite Hw in Hm.
    destruct (merge next.2 c) as [[[]|f] c1]; cbn [snd] in Hm.
    + intros Hr. destruct Hm as (Hc1 & Hd1 & Hl1).
      destruct (IH c1 Hr) as (Hc' & Hd' & Hl').
      split; [|split].
      * rewrite Hc' at 1. rewrite Hc1 at 1. done.
      * intros k Hk. by apply Hd1, Hd'.
      * lia.
    + intros [= <- <-]. exact Hm.
Qed.

Lemma merge_loop_stopped (fuel : nat) (threshold : T) (c : Clustering T) :
  loop_done threshold (state c) → merge_loop fuel threshold c = (Ok (), c).
Proof.
  unfold loop_done. destruct fuel; simpl;
    destruct (weight_map (state c)) as [|next rest]; try done;
    by intros ->.
Qed.

(** X13.  Whatever its outcome, [cluster(start, threshold)] changes nothing
    of the object but the current state: configuration, flags and initial
    state are as before.  The labels of the state it leaves are labels of
    [start], and its graph has no more edges than [start]. *)
Theorem cluster_from_frame (start : ClusteringState T) (threshold : T)
    (c : Clustering T) :
  let c' := (cluster_from start threshold c).2 in
  c' = with_state (state c') c
  ∧ (∀ k, is_Some (segments (state c') !! k) → is_Some (segments start !! k))
  ∧ length (weight_map (state c')) ≤ length (weight_map start).
Proof.
  unfold cluster_from. cbv zeta.
  destruct (merge_loop (length (weight_map start)) threshold
              (with_state start c)) as [r c'] eqn:Hr.
  apply merge_loop_frame in Hr as (Hc' & Hd & Hl). cbn [snd].
  split; [|split; [exact Hd|exact Hl]].
  rewrite Hc' at 1. done.
Qed.

(** X14.  A run of [cluster(start, threshold)] that returns has gone to the
    end of the loop, and running it again from the state it left, with the
    same threshold, returns at once with the object unchanged. *)
Theorem cluster_from_idempotent (start : ClusteringState T) (threshold : T)
    (c c' : Clustering T) :
  cluster_from start threshold c = (Ok (), c') →
  loop_done threshold (state c')
  ∧ cluster_from (state c') threshold c' = (Ok (), c').
Proof.
  unfold cluster_from. intros Hr.
  assert (Hdone : loop_done threshold (state c')).
  { by eapply merge_loop_done; [|exact Hr]. }
  split; [done|].
  rewrite with_state_id. by apply merge_loop_stopped.
Qed.

Lemma merge_rewrite_canonical (c : Clustering T)
    (segs : gmap N (Supervoxel T)) (ids : N * N)
    (todo out : list (T * (N * N))) :
  (ids.1 < ids.2)%N → canonical_edges todo →
  merge_rewrite c segs ids todo [] = Ok out → canonical_edges out.
Proof.
  intros Hids Hcan Hr e He.
  assert (e.2 ∈ out.*2) as Hp by (by apply list_elem_of_fmap_2).
  apply (merge_rewrite_pairs _ _ _ _ _ _ Hr) in Hp
    as [Hp | (q & (e' & -> & He')%list_elem_of_fmap & ->)].
  - by apply elem_of_nil in Hp.
  - apply relabel_canonical; [done|by apply Hcan].
Qed.

(** A returning merge of the first edge of a graph that stores the smaller
    label first keeps that order, the voxels of all the regions, and removes
    one region and at least one edge. *)
Lemma merge_first_edge (c c' : Clustering T) (next : T * (N * N))
    (rest : list (T * (N * N))) :
  weight_map (state c) = next :: rest →
  canonical_edges (weight_map (state c)) →
  merge next.2 c = (Ok (), c') →
  canonical_edges (weight_map (state c'))
  ∧ all_voxels (segments (state c')) ≡ₚ all_voxels (segments (state c))
  ∧ S (size (segments (state c'))) = size (segments (state c))
  ∧ length (weight_map (state c')) ≤ length rest.
Proof.
  intros Hw Hcan
    (sup1 & sup2 & first & rest' & new_map & H1 & H2 & Hw' & Hr & ->)%merge_Ok_inv.
  rewrite Hw in Hw'. injection Hw' as <- <-. simpl.
  assert (Hids : (next.2.1 < next.2.2)%N) by (apply Hcan; rewrite Hw; by left).
  split; [|split; [|split]].
  - eapply merge_rewrite_canonical; [done| |exact Hr].
    intros e He. apply Hcan. rewrite Hw. by right.
  - apply all_voxels_after_merge; [lia|done|done].
  - apply size_after_merge; [lia|eauto|eauto].
  - apply merge_rewrite_length in Hr. simpl in Hr. lia.
Qed.

Lemma merge_loop_voxels (fuel : nat) (threshold : T) (c c' : Clustering T) :
  canonical_edges (weight_map (state c)) →
  merge_loop fuel threshold c = (Ok (), c') →
  canonical_edges (weight_map (state c'))
  ∧ all_voxels (segments (state c')) ≡ₚ all_voxels (segments (state c))
  ∧ size (segments (state c)) + length (weight_map (state c'))
    ≤ size (segments (state c')) + length (weight_map (state c)).
Proof.
  revert c. induction fuel as [|fuel IH]; intros c Hcan; simpl.
  - destruct (weight_map (state c)) as [|next rest] eqn:Hw.
    { intros [= <-]. by rewrite Hw. }
    destruct (flt next.1 threshold); intros [= <-]; by rewrite Hw.
  - destruct (weight_map (state c)) as [|next rest] eqn:Hw.
    { intros [= <-]. by rewrite Hw. }
    destruct (flt next.1 threshold); [|intros [= <-]; by rewrite Hw].
    destruct (merge next.2 c) as [[[]|f] c1] eqn:Hm; [|discriminate].
    intros Hr. rewrite <- Hw in Hcan.
    destruct (merge_first_edge c c1 next rest Hw Hcan Hm)
      as (Hcan1 & Hvox1 & Hsize1 & Hlen1).
    destruct (IH c1 Hcan1 Hr) as (Hcan' & Hvox' & Hcount').
    split; [done|]. split; [by rewrite Hvox'|].
    simpl. lia.
Qed.

(** X15.  In any mode, on a graph that stores the smaller label first on
    every edge, a run of [cluster(start, threshold)] that returns loses no
    voxel and invents none: the voxels of all the regions of the state it
    leaves are those of [start], in another order.  The edges still have the
    smaller label first, and the run has removed at least as many edges as
    regions. *)
Theorem cluster_from_keeps_voxels (start : ClusteringState T) (threshold : T)
    (c c' : Clustering T) :
  canonical_edges (weight_map start) →
  cluster_from start threshold c = (Ok (), c') →
  all_voxels (segments (state c')) ≡ₚ all_voxels (segments start)
  ∧ canonical_edges (weight_map (state c'))
  ∧ size (segments start) + length (weight_map (state c'))
    ≤ size (segments (state c')) + length (weight_map start).
Proof.
  unfold cluster_from. intros Hcan Hr.
  destruct (merge_loop_voxels _ _ (with_state start c) c' Hcan Hr)
    as (Hcan' & Hvox & Hcount).
  done.
Qed.
End LoopFrame.

Lemma triangle_run_returns :
  ∃ c', @cluster_from spec_float b32_scalar Examples.sample_external
          Examples.triangle_state (B32.of_Z 1)
          (Examples.merging_object MANUAL_LAMBDA) = (Ok (), c').
Proof.
  destruct (@merge_loop_total spec_float b32_scalar Examples.sample_external
              3 (B32.of_Z 1)
              (with_state Examples.triangle_state
                 (Examples.merging_object MANUAL_LAMBDA)))
    as (c' & Hc' & _);
    [discriminate | exact triangle_well_formed | simpl; lia |].
  exists c'. exact Hc'.
Qed.

(** [cluster_from_idempotent] on the triangle, threshold 1, in binary32. *)
Lemma cluster_from_idempotent_witness :
  ∃ c', @cluster_from spec_float b32_scalar Examples.sample_external
          Examples.triangle_state (B32.of_Z 1)
          (Examples.merging_object MANUAL_LAMBDA) = (Ok (), c')
    ∧ @cluster_from spec_float b32_scalar Examples.sample_external
        (state c') (B32.of_Z 1) c' = (Ok (), c').
Proof.
  destruct triangle_run_returns as [c' Hc'].
  exists c'. split; [exact Hc'|].
  exact (proj2 (@cluster_from_idempotent spec_float b32_scalar
                  Examples.sample_external Examples.triangle_state
                  (B32.of_Z 1) (Examples.merging_object MANUAL_LAMBDA) c' Hc')).
Defined.

(** [cluster_from_keeps_voxels] on the same run. *)
Lemma cluster_from_keeps_voxels_witness :
  ∃ c', @cluster_from spec_float b32_scalar Examples.sample_external
          Examples.triangle_state (B32.of_Z 1)
          (Examples.merging_object MANUAL_LAMBDA) = (Ok (), c')
    ∧ all_voxels (segments (state c'))
      ≡ₚ all_voxels (segments (Examples.triangle_state (T:=spec_float))).
Proof.
  destruct triangle_run_returns as [c' Hc'].
  exists c'. split; [exact Hc'|].
  destruct (@cluster_from_keeps_voxels spec_float b32_scalar
              Examples.sample_external Examples.triangle_state
              (B32.of_Z 1) (Examples.merging_object MANUAL_LAMBDA) c')
    as (Hvox & _); [|exact Hc'|exact Hvox].
  destruct (@triangle_well_formed spec_float b32_scalar) as (Hcan & _).
  exact Hcan.
Defined.

(** ** Weight initialisation: a missing region, and mode EQUALIZATION *)

Section InitWeightsFailure.
Context {T : Type} `{Scalar T} `{External T}.

(** X16.  When an edge of the initial state ends at a label that is not in
    its table, [init_weights] ends with the failure of the checked lookup and
    leaves the object as it was, and so does a call of [cluster] that has to
    initialise the weights. *)
Theorem init_weights_missing_region (threshold : T) (c : Clustering T)
    (e : T * (N * N)) :
  e ∈ weight_map (initial_state c) →
  segments (initial_state c) !! e.2.1 = None
  ∨ segments (initial_state c) !! e.2.2 = None →
  init_weights c = (Abort out_of_range, c)
  ∧ (set_initial_state c = true → init_initial_weights c = false →
       cluster threshold c = (Abort out_of_range, c)).
Proof.
  intros He Hmiss.
  assert (Hi : init_weights c = (Abort out_of_range, c)).
  { unfold init_weights. rewrite collect_deltas_missing; [done|].
    intros Hend. destruct (Hend e He) as [[? ?] [? ?]].
    destruct Hmiss; congruence. }
  split; [done|]. intros Hs Hw. unfold cluster. rewrite Hs, Hw. simpl.
  by rewrite Hi.
Qed.
End InitWeightsFailure.

(** [init_weights_missing_region] on one region with an edge to the absent
    label 2. *)
Lemma init_weights_missing_region_witness :
  @cluster spec_float b32_scalar Examples.sample_external half dangling_object
  = (Abort out_of_range, dangling_object).
Proof.
  apply (proj2 (@init_weights_missing_region spec_float b32_scalar
                  Examples.sample_external half dangling_object
                  (@of_Z spec_float b32_scalar (-1), (1, 2)%N)
                  ltac:(apply list_elem_of_here)
                  ltac:(right; reflexivity)));
    reflexivity.
Defined.

Section EqualizedWeights.
Context `{External R}.

Lemma elem_of_ms_insert (k x : R) (l : list R) :
  x ∈ ms_insert k l ↔ x = k ∨ x ∈ l.
Proof.
  induction l as [|y l IH]; cbn [ms_insert].
  - apply elem_of_cons.
  - destruct (flt k y).
    + apply elem_of_cons.
    + rewrite !elem_of_cons, IH. tauto.
Qed.

Lemma collect_deltas_unit (c : Clustering R) (segs : gmap N (Supervoxel R))
    (edges : list (R * (N * N)))
    (acc out : gmap (N * N) (R * R * R) * list R * list R * list R) :
  (∀ e s1 s2, e ∈ edges → segs !! e.2.1 = Some s1 → segs !! e.2.2 = Some s2 →
       unit_triple (delta_c_g_h c s1 s2)) →
  (∀ p d, acc.1.1.1 !! p = Some d → unit_triple d) →
  (∀ d, d ∈ acc.1.1.2 ++ acc.1.2 ++ acc.2 → unit_interval d) →
  collect_deltas c segs edges acc = Ok out →
  (∀ p d, out.1.1.1 !! p = Some d → unit_triple d)
  ∧ (∀ d, d ∈ out.1.1.2 ++ out.1.2 ++ out.2 → unit_interval d)
  ∧ length out.1.1.2 = length acc.1.1.2 + length edges
  ∧ length out.1.2 = length acc.1.2 + length edges
  ∧ length out.2 = length acc.2 + length edges.
Proof.
  revert acc.
  induction edges as [|it edges IH]; intros acc Hedges Htemp Hlists; simpl.
  - intros [= <-]. split; [done|]. split; [done|]. lia.
  - destruct acc as [[[temp dc] dg] dh]. unfold map_at.
    destruct (segs !! it.2.1) as [s1|] eqn:H1; [|discriminate].
    destruct (segs !! it.2.2) as [s2|] eqn:H2; [|discriminate].
    cbn [mbind result_bind]. intros Hr.
    assert (Hu : unit_triple (delta_c_g_h c s1 s2)).
    { apply (Hedges it); [by left|done|done]. }
    apply IH in Hr as (Ht & Hl & L1 & L2 & L3).
    + split; [done|]. split; [done|].
      cbn [fst snd] in *. rewrite length_ms_insert in L1, L2, L3.
      cbn [length]. lia.
    + intros e s1' s2' He. apply Hedges. by right.
    + cbn [fst snd] in *.
      intros p d [Hp | [_ <-]]%map_insert_lookup_Some; [by eapply Htemp|done].
    + cbn [fst snd] in *. intros d.
      rewrite !elem_of_app, !elem_of_ms_insert.
      destruct Hu as (U1 & U2 & U3).
      intros [[-> | ?] | [[-> | ?] | [-> | ?]]]; try done;
        apply Hlists; rewrite !elem_of_app; auto.
Qed.

Lemma reweight_unit (c : Clustering R)
    (temp_deltas : gmap (N * N) (R * R * R))
    (edges w_new : list (R * (N * N))) :
  (∀ dc dg dh, unit_interval dc → unit_interval dg → unit_interval dh →
       ∃ w, unify c (dc, dg, dh) = Ok w ∧ unit_interval w) →
  (∀ p, p ∈ edges.*2 → ∃ d, temp_deltas !! p = Some d ∧ unit_triple d) →
  ∃ out, reweight c temp_deltas edges w_new = Ok out
    ∧ out.*2 ≡ₚ edges.*2 ++ w_new.*2
    ∧ ∀ e, e ∈ out → e ∈ w_new ∨ unit_interval e.1.
Proof.
  intros Hunify. revert w_new.
  induction edges as [|it edges IH]; intros w_new Htemp; simpl.
  - exists w_new. split; [done|]. split; [done|]. auto.
  - destruct (Htemp it.2) as ([[dc dg] dh] & Hd & U1 & U2 & U3); [by left|].
    unfold map_at. rewrite Hd. cbn [mbind result_bind].
    destruct (Hunify dc dg dh U1 U2 U3) as (w & Hw & Hwu).
    rewrite Hw. cbn [mbind result_bind].
    destruct (IH (mm_insert w it.2 w_new)) as (out & Hout & Hperm & Hval).
    { intros p Hp. apply Htemp. by right. }
    exists out. split; [done|]. split.
    + rewrite Hperm, fmap_snd_mm_insert. by rewrite Permutation_middle.
    + intros e He.
      destruct (Hval e He) as [[-> | Hin]%elem_of_mm_insert | Hu']; auto.
Qed.

(** X17.  In mode EQUALIZATION, with a number of bins between 1 and 32767,
    on an initial state with at least one edge, whose edges end at regions of
    the table and whose pairs of regions have their three distances in
    [0,1]: [init_weights] returns and sets the flag; the graph has the same
    pairs of labels, and every weight is the unified distance [delta] of the
    two regions and lies in [0,1]. *)
Theorem init_weights_equalization (c : Clustering R) :
  merging_type c = EQUALIZATION →
  (0 < bins_num c ≤ 32767)%Z →
  weight_map (initial_state c) ≠ [] →
  endpoints_present (segments (initial_state c)) (weight_map (initial_state c)) →
  (∀ e s1 s2, e ∈ weight_map (initial_state c) →
       segments (initial_state c) !! e.2.1 = Some s1 →
       segments (initial_state c) !! e.2.2 = Some s2 →
       unit_triple (delta_c_g_h c s1 s2)) →
  ∃ c', init_weights c = (Ok (), c')
    ∧ init_initial_weights c' = true
    ∧ merging_type c' = EQUALIZATION
    ∧ segments (initial_state c') = segments (initial_state c)
    ∧ (weight_map (initial_state c')).*2 ≡ₚ (weight_map (initial_state c)).*2
    ∧ ∀ e, e ∈ weight_map (initial_state c') →
        unit_interval e.1
        ∧ ∃ s1 s2, segments (initial_state c') !! e.2.1 = Some s1
            ∧ segments (initial_state c') !! e.2.2 = Some s2
            ∧ delta c' s1 s2 = Ok e.1.
Proof.
  intros Hm HB Hne Hend Hunit. unfold init_weights.
  destruct (collect_deltas_total c _ _ (∅, [], [], []) Hend)
    as ([[[temp dc] dg] dh] & Hcollect & Htemp).
  rewrite Hcollect. cbn [fst snd] in Htemp.
  pose proof (collect_deltas_values c _ _ _ _
                (λ p d (Hp : (∅ : gmap (N * N) (R * R * R)) !! p = Some d),
                   match lookup_empty_Some p d Hp with end)
                Hcollect) as Hvalues.
  cbn [fst snd] in Hvalues.
  destruct (collect_deltas_unit c _ _ _ _ Hunit
              (λ p d (Hp : (∅ : gmap (N * N) (R * R * R)) !! p = Some d),
                 match lookup_empty_Some p d Hp with end)
              (λ d (Hd : d ∈ ([] : list R)),
                 match proj1 (elem_of_nil d) Hd with end)
              Hcollect) as (Htu & Hlu & L1 & L2 & L3).
  cbn [fst snd length] in *.
  assert (Hpos : 0 < length (weight_map (initial_state c))).
  { destruct (weight_map (initial_state c)); [done|simpl; lia]. }
  destruct (equalization_parameters dc dg dh c Hm HB) as (c1 & -> & Hshape & Hunify).
  { intros ->. simpl in L1. lia. }
  { intros ->. simpl in L2. lia. }
  { intros ->. simpl in L3. lia. }
  { exact Hlu. }
  assert (Hi1 : initial_state c1 = initial_state c) by (by rewrite Hshape).
  assert (Hcfg : ∀ s1 s2, delta_c_g_h c1 s1 s2 = delta_c_g_h c s1 s2)
    by (intros s1 s2; by rewrite Hshape).
  assert (Hm1 : merging_type c1 = EQUALIZATION) by (by rewrite Hshape).
  destruct (reweight_unit c1 temp (weight_map (initial_state c)) [])
    as (out & Hout & Hperm & Hval).
  { intros dc0 dg0 dh0 U1 U2 U3.
    destruct (Hunify _ _ _ U1 U2 U3) as [Hw Hwu]. eauto. }
  { intros p Hp. destruct (Htemp p) as [d Hd]; [by left|].
    exists d. split; [done|]. by eapply Htu. }
  rewrite Hout. eexists. split; [reflexivity|]. simpl.
  split; [done|]. split; [done|]. split; [by rewrite Hi1|].
  split; [by rewrite Hperm, app_nil_r|].
  intros e He. split.
  - destruct (Hval e He) as [Hnil | Hu]; [by apply elem_of_nil in Hnil|done].
  - destruct (reweight_values c1 temp _ _ _ Hout e He) as [Hnil | (d & Hd & Hu)];
      [by apply elem_of_nil in Hnil|].
    destruct (Hvalues _ _ Hd) as (s1 & s2 & H1 & H2 & ->).
    exists s1, s2. rewrite Hi1. split; [done|]. split; [done|].
    unfold delta. rewrite <- Hu, <- (Hcfg s1 s2). reflexivity.
Qed.
End EqualizedWeights.

(** ** Range of the geometric distance *)

Section GeometryRange.
Context `{External R}.

Lemma dot_self_nonneg (v : Vec3 R) : (0 <= dot v v)%R.
Proof.
  destruct v as [[a b] d]. unfold dot; simpl.
  pose proof (Rle_0_sqr a). pose proof (Rle_0_sqr b). pose proof (Rle_0_sqr d).
  unfold Rsqr in *. lra.
Qed.

Lemma cauchy_schwarz (a b : Vec3 R) :
  (dot a b * dot a b <= dot a a * dot b b)%R.
Proof.
  destruct a as [[a0 a1] a2], b as [[b0 b1] b2]. unfold dot; simpl.
  pose proof (Rle_0_sqr (a0 * b1 - a1 * b0)).
  pose proof (Rle_0_sqr (a0 * b2 - a2 * b0)).
  pose proof (Rle_0_sqr (a1 * b2 - a2 * b1)).
  unfold Rsqr in *. nra.
Qed.

Lemma lagrange_identity (a b : Vec3 R) :
  dot (cross a b) (cross a b) = (dot a a * dot b b - dot a b * dot a b)%R.
Proof.
  destruct a as [[a0 a1] a2], b as [[b0 b1] b2]. unfold dot, cross; simpl. ring.
Qed.

Lemma norm_cross_unit (a b : Vec3 R) :
  dot a a = 1%R → dot b b = 1%R → (0 <= norm (cross a b) <= 1)%R.
Proof.
  intros Ha Hb. unfold norm. simpl. split; [apply sqrt_pos|].
  apply Rle_trans with (sqrt 1); [|rewrite sqrt_1; lra].
  apply sqrt_le_1_alt.
  rewrite lagrange_identity, Ha, Hb.
  pose proof (Rle_0_sqr (dot a b)). unfold Rsqr in *. lra.
Qed.

Lemma vsub_nonzero (a b : Vec3 R) : a ≠ b → (0 < dot (vsub a b) (vsub a b))%R.
Proof.
  destruct a as [[a0 a1] a2], b as [[b0 b1] b2]. intros Hne.
  unfold dot, vsub; simpl.
  pose proof (Rle_0_sqr (a0 - b0)) as P0.
  pose proof (Rle_0_sqr (a1 - b1)) as P1.
  pose proof (Rle_0_sqr (a2 - b2)) as P2. unfold Rsqr in *.
  destruct (Req_dec a0 b0) as [->|E0].
  2: { pose proof (Rsqr_pos_lt (a0 - b0)) as Q. unfold Rsqr in Q.
       assert (a0 - b0 ≠ 0)%R as Q' by lra. specialize (Q Q'). lra. }
  destruct (Req_dec a1 b1) as [->|E1].
  2: { pose proof (Rsqr_pos_lt (a1 - b1)) as Q. unfold Rsqr in Q.
       assert (a1 - b1 ≠ 0)%R as Q' by lra. specialize (Q Q'). lra. }
  destruct (Req_dec a2 b2) as [->|E2]; [done|].
  pose proof (Rsqr_pos_lt (a2 - b2)) as Q. unfold Rsqr in Q.
  assert (a2 - b2 ≠ 0)%R as Q' by lra. specialize (Q Q'). lra.
Qed.

Lemma vdiv_norm_unit (D : Vec3 R) :
  (0 < dot D D)%R → dot (vdiv D (norm D)) (vdiv D (norm D)) = 1%R.
Proof.
  intros Hpos. unfold norm. cbn [fsqrt R_scalar].
  assert (Hs : (sqrt (dot D D) * sqrt (dot D D) = dot D D)%R)
    by (apply sqrt_sqrt; lra).
  assert (Hn : (0 < sqrt (dot D D))%R) by (by apply sqrt_lt_R0).
  revert Hs Hn. generalize (sqrt (dot D D)). intros n Hs Hn.
  destruct D as [[d0 d1] d2]. unfold dot, vdiv in *; simpl in *.
  field_simplify_eq; [lra|lra].
Qed.

(** The direction between two distinct centroids has length 1. *)
Lemma direction_unit (c1 c2 : PointT R) :
  getVector3fMap c1 ≠ getVector3fMap c2 →
  dot (centroid_direction c1 c2) (centroid_direction c1 c2) = 1%R.
Proof.
  intros Hne%vsub_nonzero. unfold centroid_direction.
  by apply vdiv_norm_unit.
Qed.

Lemma dot_direction_range (n : Vec3 R) (c1 c2 : PointT R) :
  dot n n = 1%R →
  getVector3fMap c1 ≠ getVector3fMap c2 →
  (Rabs (dot n (centroid_direction c1 c2)) <= 1)%R.
Proof.
  intros Hn Hd%direction_unit.
  pose proof (cauchy_schwarz n (centroid_direction c1 c2)) as Hcs.
  rewrite Hn, Hd in Hcs. apply Rabs_le. nra.
Qed.

Lemma normals_diff_unit_interval (n1 n2 : Normal R) (c1 c2 : PointT R) :
  unit_normal n1 → unit_normal n2 →
  getVector3fMap c1 ≠ getVector3fMap c2 →
  unit_interval (normals_diff n1 c1 n2 c2).
Proof.
  intros H1 H2 Hne. unfold normals_diff, unit_interval.
  pose proof (norm_cross_unit _ _ H1 H2) as [? ?].
  pose proof (dot_direction_range _ c1 c2 H1 Hne).
  pose proof (dot_direction_range _ c1 c2 H2 Hne).
  pose proof (Rabs_pos (dot (getNormalVector3fMap n1) (centroid_direction c1 c2))).
  pose proof (Rabs_pos (dot (getNormalVector3fMap n2) (centroid_direction c1 c2))).
  change (0 <= (norm (cross (getNormalVector3fMap n1) (getNormalVector3fMap n2))
                + Rabs (dot (getNormalVector3fMap n1) (centroid_direction c1 c2))
                + Rabs (dot (getNormalVector3fMap n2) (centroid_direction c1 c2)))
               / 3 <= 1)%R.
  lra.
Qed.

Lemma delta_g_unit_interval (c : Clustering R) (s1 s2 : Supervoxel R) :
  unit_normal (normal_ s1) → unit_normal (normal_ s2) →
  getVector3fMap (centroid_ s1) ≠ getVector3fMap (centroid_ s2) →
  unit_interval (delta_c_g_h c s1 s2).1.2.
Proof.
  intros H1 H2 Hne.
  pose proof (normals_diff_unit_interval _ _ _ _ H1 H2 Hne) as [? ?].
  unfold delta_c_g_h, unit_interval. cbn [fst snd].
  destruct (delta_g_type c); [done|].
  destruct (is_convex _ _ _ _); [|done].
  change (fmul ?a half) with (a * (1 / 2))%R. lra.
Qed.

(** X18.  For two regions whose normals have length 1 and whose centroids
    differ, the geometric distance lies in [0,1] under either choice of
    [delta_g_type], and in [0, 0.5] under CONVEX_NORMALS_DIFF when the
    convexity test holds.  The haptic distance is never negative, and lies in
    [0,1] when the two friction coefficients do. *)
Theorem geometric_distance_range (c : Clustering R) (s1 s2 : Supervoxel R) :
  unit_normal (normal_ s1) → unit_normal (normal_ s2) →
  getVector3fMap (centroid_ s1) ≠ getVector3fMap (centroid_ s2) →
  unit_interval
    (normals_diff (normal_ s1) (centroid_ s1) (normal_ s2) (centroid_ s2))
  ∧ unit_interval (delta_c_g_h c s1 s2).1.2
  ∧ (is_convex (normal_ s1) (centroid_ s1) (normal_ s2) (centroid_ s2) = true →
       (delta_g_under CONVEX_NORMALS_DIFF c s1 s2 <= 1 / 2)%R)
  ∧ (0 <= (delta_c_g_h c s1 s2).2)%R
  ∧ (unit_interval (friction_ s1) → unit_interval (friction_ s2) →
       unit_interval (delta_c_g_h c s1 s2).2).
Proof.
  intros H1 H2 Hne.
  pose proof (normals_diff_unit_interval _ _ _ _ H1 H2 Hne) as Hnd.
  split; [done|]. split; [by apply delta_g_unit_interval|].
  split; [|split].
  - intros Hc. unfold delta_g_under, delta_c_g_h. cbn [fst snd delta_g_type with_delta_g].
    rewrite Hc. destruct Hnd as [? ?].
    change (fmul ?a half) with (a * (1 / 2))%R. lra.
  - unfold delta_c_g_h. cbn [fst snd]. destruct (delta_h_type c).
    apply Rabs_pos.
  - intros [? ?] [? ?]. unfold delta_c_g_h, unit_interval. cbn [fst snd].
    destruct (delta_h_type c). split; [apply Rabs_pos|].
    apply Rabs_le. change (fsub ?a ?b) with (a - b)%R. lra.
Qed.
End GeometryRange.

Lemma upward_unit : unit_normal Examples.upward.
Proof. unfold unit_normal, dot. simpl. lra. Qed.

Lemma euclid_self (v : Vec3 R) : Examples.euclid v v = 0%R.
Proof.
  destruct v as [[a b] d]. unfold Examples.euclid. simpl.
  replace ((a - a) * (a - a) + (b - b) * (b - b) + (d - d) * (d - d))%R
    with 0%R by ring.
  apply sqrt_0.
Qed.

Lemma sample_triple_unit (m : MergingCriterion) (x y z x' y' z' : Z)
    (k k' : nat) :
  getVector3fMap (Examples.point (T:=R) x y z)
  ≠ getVector3fMap (Examples.point (T:=R) x' y' z') →
  unit_triple
    (@delta_c_g_h R R_scalar Examples.sample_external
       (Examples.merging_object m)
       (Examples.region x y z k half) (Examples.region x' y' z' k' half)).
Proof.
  intros Hne. split; [|split].
  - change (unit_interval
              (Examples.euclid
                 (@mean_color R Examples.sample_external
                    (Examples.region x y z k half))
                 (@mean_color R Examples.sample_external
                    (Examples.region x y z k half)) / 100)%R).
    rewrite euclid_self. unfold unit_interval. lra.
  - apply (@delta_g_unit_interval Examples.sample_external);
      [apply upward_unit | apply upward_unit | exact Hne].
  - change (unit_interval (Rabs (half - half))).
    unfold unit_interval. rewrite Rminus_diag, Rabs_R0. lra.
Qed.

Lemma triangle_positions_differ (e : R * (N * N)) (s1 s2 : Supervoxel R) :
  e ∈ weight_map (Examples.triangle_state (T:=R)) →
  Examples.three_regions !! e.2.1 = Some s1 →
  Examples.three_regions !! e.2.2 = Some s2 →
  ∃ x y z x' y' z' k k',
    s1 = Examples.region x y z k half ∧ s2 = Examples.region x' y' z' k' half
    ∧ getVector3fMap (Examples.point (T:=R) x y z)
      ≠ getVector3fMap (Examples.point (T:=R) x' y' z').
Proof.
  intros He H1 H2. simpl in He.
  repeat (apply elem_of_cons in He as [-> | He]);
    try (by apply elem_of_nil in He);
    cbn [fst snd] in H1, H2;
    [ change (Some (Examples.region 0 0 0 2 half) = Some s1) in H1;
      change (Some (Examples.region 1 0 0 1 half) = Some s2) in H2
    | change (Some (Examples.region 0 0 0 2 half) = Some s1) in H1;
      change (Some (Examples.region 0 1 0 0 half) = Some s2) in H2
    | change (Some (Examples.region 1 0 0 1 half) = Some s1) in H1;
      change (Some (Examples.region 0 1 0 0 half) = Some s2) in H2 ];
    injection H1 as <-; injection H2 as <-;
    do 8 eexists; (split; [reflexivity|]); (split; [reflexivity|]);
    unfold getVector3fMap; simpl; intros Heq; inversion Heq; lra.
Qed.

(** [init_weights_equalization] on the triangle of three regions with 500
    bins. *)
Lemma init_weights_equalization_witness :
  ∃ c', @init_weights R R_scalar Examples.sample_external
          (Examples.merging_object EQUALIZATION) = (Ok (), c')
    ∧ ∀ e, e ∈ weight_map (initial_state c') → unit_interval e.1.
Proof.
  destruct (@init_weights_equalization Examples.sample_external
              (Examples.merging_object EQUALIZATION))
    as (c' & Hc' & _ & _ & _ & _ & Hw).
  - reflexivity.
  - simpl. lia.
  - discriminate.
  - apply triangle_well_formed.
  - intros e s1 s2 He H1 H2.
    destruct (triangle_positions_differ e s1 s2 He H1 H2)
      as (x & y & z & x' & y' & z' & k & k' & -> & -> & Hne).
    by apply sample_triple_unit.
  - exists c'. split; [exact Hc'|]. intros e He. by apply Hw.
Defined.

(** [geometric_distance_range] on two regions one unit apart with the same
    unit normal. *)
Lemma geometric_distance_range_witness :
  unit_interval
    (@normals_diff R R_scalar
       Examples.upward (Examples.point 0 0 0)
       Examples.upward (Examples.point 1 0 0)).
Proof.
  exact (proj1 (@geometric_distance_range Examples.sample_external
                  (Examples.object MANUAL_LAMBDA)
                  (Examples.region 0 0 0 1 half) (Examples.region 1 0 0 1 half)
                  upward_unit upward_unit sample_positions_differ)).
Defined.

(** ** Reading the state back *)

Section ReadBack.
Context {T : Type} `{Scalar T} `{External T}.

Lemma adj_insert_Permutation (e : N * N) (l : list (N * N)) :
  adj_insert e l ≡ₚ e :: l.
Proof.
  induction l as [|e' l IH]; cbn [adj_insert]; [done|].
  destruct (e.1 <? e'.1)%N; [done|]. by rewrite IH, Permutation_swap.
Qed.

Lemma adj_insert_HdRel (a e : N * N) (l : list (N * N)) :
  key_le a e → HdRel key_le a l → HdRel key_le a (adj_insert e l).
Proof.
  intros Hae Hl. destruct l as [|e' l]; cbn [adj_insert].
  - by constructor.
  - destruct (e.1 <? e'.1)%N; constructor; [done|].
    by inversion Hl.
Qed.

Lemma adj_insert_Sorted (e : N * N) (l : list (N * N)) :
  Sorted key_le l → Sorted key_le (adj_insert e l).
Proof.
  induction 1 as [|e' l Hs IH Hhd]; cbn [adj_insert].
  - repeat constructor.
  - destruct (N.ltb_spec e.1 e'.1) as [Hlt|Hge].
    + constructor; [by constructor|]. constructor. unfold key_le. lia.
    + constructor; [done|]. by apply adj_insert_HdRel.
Qed.

Lemma weight2adj_from (w : list (T * (N * N))) (acc : list (N * N)) :
  Sorted key_le acc →
  let adj := foldl (λ adj_map it, adj_insert it.2 adj_map) acc w in
  adj ≡ₚ w.*2 ++ acc ∧ Sorted key_le adj.
Proof.
  revert acc. induction w as [|it w IH]; intros acc Hacc; simpl; [done|].
  destruct (IH (adj_insert it.2 acc)) as [Hp Hs]; [by apply adj_insert_Sorted|].
  split; [|done].
  rewrite Hp, adj_insert_Permutation. by rewrite Permutation_middle.
Qed.

Lemma adj2weight_from (adj : list (N * N)) (acc : list (T * (N * N))) :
  (foldl (λ w_map e, mm_insert (of_Z (-1)) e w_map) acc adj).*2
  ≡ₚ adj ++ acc.*2.
Proof.
  revert acc. induction adj as [|e adj IH]; intros acc; simpl; [done|].
  rewrite IH, fmap_snd_mm_insert. by rewrite Permutation_middle.
Qed.

(** X19.  [get_currentstate] returns the table of the current state and an
    adjacency with the pairs of labels of its edges, each as often as it is
    stored, ordered by first label.  Right after [set_initialstate segm adj]
    it returns [segm] and the pairs of [adj] whose first label is not
    greater than the second. *)
Theorem get_currentstate_round_trip (segm : gmap N (Supervoxel T))
    (adj : list (N * N)) (c : Clustering T) :
  (get_currentstate c).1 = segments (state c)
  ∧ (get_currentstate c).2 ≡ₚ (weight_map (state c)).*2
  ∧ Sorted key_le (get_currentstate c).2
  ∧ let c' := (set_initialstate segm adj c).2 in
    (get_currentstate c').1 = segm
    ∧ (get_currentstate c').2 ≡ₚ clear_adjacency adj
    ∧ ∀ u v, (u, v) ∈ (get_currentstate c').2 ↔ (u, v) ∈ adj ∧ (u ≤ v)%N.
Proof.
  assert (Hgen : ∀ w : list (T * (N * N)),
            weight2adj w ≡ₚ w.*2 ∧ Sorted key_le (weight2adj w)).
  { intros w. destruct (weight2adj_from w []) as [Hp Hs]; [constructor|].
    split; [|done]. by rewrite Hp, app_nil_r. }
  split; [done|]. split; [apply Hgen|]. split; [apply Hgen|].
  cbv zeta. split; [done|].
  assert (Hp : (get_currentstate (set_initialstate segm adj c).2).2
               ≡ₚ clear_adjacency adj).
  { unfold get_currentstate. cbn [fst snd]. rewrite (proj1 (Hgen _)).
    cbn [set_initialstate snd state with_init_initial_weights
         with_set_initial_state with_state weight_map].
    unfold adj2weight. by rewrite adj2weight_from, app_nil_r. }
  split; [done|].
  intros u v. rewrite Hp. unfold clear_adjacency.
  rewrite list_elem_of_filter. cbn [fst snd]. split.
  - intros [Hle Hin]. split; [done|]. lia.
  - intros [Hin Hle]. split; [lia|done].
Qed.

Lemma labeled_fold (es : list (N * Supervoxel T)) (acc : list (PointLT T))
    (l : N) :
  let r := foldl (λ '(label_cloud, current_l) it,
                    (label_cloud ++ labeled current_l it.2, (current_l + 1)%N))
                 (acc, l) es in
  length r.1 = length acc + length (it ← es; voxels_ it.2)
  ∧ ∀ p, p ∈ r.1 ↔
      p ∈ acc
      ∨ ∃ i it v, es !! i = Some it ∧ v ∈ voxels_ it.2
          ∧ p = {| l_x := pt_x v; l_y := pt_y v; l_z := pt_z v;
                   label := (l + N.of_nat i)%N |}.
Proof.
  revert acc l. induction es as [|it es IH]; intros acc l; cbn [foldl].
  - cbv zeta. cbn [fst]. split; [simpl; lia|].
    intros p. split; [by left|]. intros [? | (i & it & v & Hi & _)]; [done|].
    by rewrite lookup_nil in Hi.
  - specialize (IH (acc ++ labeled l it.2) (l + 1)%N). cbv zeta in *.
    destruct IH as [Hlen Hmem]. split.
    + rewrite Hlen, length_app. unfold labeled. rewrite length_fmap.
      rewrite bind_cons, length_app. lia.
    + intros p. rewrite Hmem, elem_of_app. unfold labeled.
      rewrite list_elem_of_fmap. split.
      * intros [[? | (v & -> & Hv)] | (i & it' & v & Hi & Hv & ->)].
        -- by left.
        -- right. exists 0, it, v. split; [done|]. split; [done|].
           by rewrite N.add_0_r.
        -- right. exists (S i), it', v. split; [done|]. split; [done|].
           f_equal. lia.
      * intros [? | (i & it' & v & Hi & Hv & ->)]; [by left; left|].
        destruct i as [|i].
        -- injection Hi as <-. left; right. exists v. split; [|done].
           by rewrite N.add_0_r.
        -- right. exists i, it', v. split; [done|]. split; [done|].
           f_equal. lia.
Qed.

Lemma length_entries {V} (m : gmap N V) : length (entries m) = size m.
Proof.
  unfold entries. rewrite merge_sort_Permutation.
  apply length_map_to_list.
Qed.

(** X20.  [get_labeled_cloud] emits one point for every voxel of every
    region of the current state, at the position of the voxel.  Its label is
    the rank of the region in the order of the table, from 0, so the labels
    used are below the number of regions, whatever the labels of the table
    are.  The order of the table is by increasing label. *)
Theorem get_labeled_cloud_labels (c : Clustering T) :
  length (get_labeled_cloud c) = length (all_voxels (segments (state c)))
  ∧ (∀ p, p ∈ get_labeled_cloud c ↔
       ∃ i it v, entries (segments (state c)) !! i = Some it
         ∧ v ∈ voxels_ it.2
         ∧ p = {| l_x := pt_x v; l_y := pt_y v; l_z := pt_z v;
                  label := N.of_nat i |})
  ∧ (∀ p, p ∈ get_labeled_cloud c →
       (label p < N.of_nat (size (segments (state c))))%N)
  ∧ entries (segments (state c)) ≡ₚ map_to_list (segments (state c))
  ∧ Sorted key_le (entries (segments (state c))).
Proof.
  assert (Horder : entries (segments (state c)) ≡ₚ map_to_list (segments (state c))
                   ∧ Sorted key_le (entries (segments (state c)))).
  { unfold entries. split; [apply merge_sort_Permutation|].
    apply Sorted_merge_sort. intros a b. unfold key_le. lia. }
  unfold get_labeled_cloud.
  destruct (labeled_fold (entries (segments (state c))) [] 0%N) as [Hlen Hmem].
  cbv zeta in *.
  assert (Hiff : ∀ p, p ∈ (foldl (λ '(label_cloud, current_l) it,
                     (label_cloud ++ labeled current_l it.2, (current_l + 1)%N))
                    ([], 0%N) (entries (segments (state c)))).1 ↔
       ∃ i it v, entries (segments (state c)) !! i = Some it
         ∧ v ∈ voxels_ it.2
         ∧ p = {| l_x := pt_x v; l_y := pt_y v; l_z := pt_z v;
                  label := N.of_nat i |}).
  { intros p. rewrite Hmem. split.
    - intros [Hnil | Hex]; [by apply elem_of_nil in Hnil|done].
    - by right. }
  split; [|split; [exact Hiff|split; [|exact Horder]]].
  - rewrite Hlen. simpl. unfold all_voxels, entries.
    by rewrite merge_sort_Permutation.
  - intros p (i & it & v & Hi & _ & ->)%Hiff. simpl.
    apply lookup_lt_Some in Hi. rewrite length_entries in Hi. lia.
Qed.
End ReadBack.

(** ** The best threshold *)

Section BestThreshold.
Context `{External R}.

Lemma best_fold (acc : R * performanceSet R)
    (l : list (R * performanceSet R)) :
  let r := foldl (λ best it,
                    if flt (fscore best.2) (fscore it.2) then (it.1, it.2)
                    else best) acc l in
  (r = acc ∨ r ∈ l)
  ∧ (fscore acc.2 <= fscore r.2)%R
  ∧ ∀ e, e ∈ l → (fscore e.2 <= fscore r.2)%R.
Proof.
  revert acc. induction l as [|it l IH]; intros acc; cbn [foldl].
  - cbv zeta. split; [by left|]. split; [lra|]. by intros e ?%elem_of_nil.
  - cbv zeta.
    change (flt (fscore acc.2) (fscore it.2))
      with (Rltb (fscore acc.2) (fscore it.2)).
    destruct (Rltb (fscore acc.2) (fscore it.2)) eqn:Hlt.
    + apply Rltb_true in Hlt.
      destruct (IH (it.1, it.2)) as (Hr & Hacc & Hall). cbn [snd] in Hacc.
      split; [|split].
      * right. destruct Hr as [-> | Hr]; [destruct it; by left|by right].
      * lra.
      * intros e [-> | He]%elem_of_cons; [done|by apply Hall].
    + assert (¬ (fscore acc.2 < fscore it.2)%R) as Hge.
      { intros Hc%Rltb_true. congruence. }
      destruct (IH acc) as (Hr & Hacc & Hall).
      split; [|split].
      * destruct Hr as [-> | Hr]; [by left|right; by right].
      * done.
      * intros e [-> | He]%elem_of_cons; [lra|by apply Hall].
Qed.

(** X21.  [best_thresh] on a collection of scores returns either threshold 0
    with the default-constructed performance or one of the entries; the
    F-score it returns is not below the default one nor below that of any
    entry; and when no entry has an F-score above the default one, it
    returns threshold 0 with the default performance. *)
Theorem best_thresh_maximal (default_performance : performanceSet R)
    (all_thresh : list (R * performanceSet R)) :
  let r := best_thresh default_performance all_thresh in
  (r = (0%R, default_performance) ∨ r ∈ all_thresh)
  ∧ (fscore default_performance <= fscore r.2)%R
  ∧ (∀ e, e ∈ all_thresh → (fscore e.2 <= fscore r.2)%R)
  ∧ ((∀ e, e ∈ all_thresh → (fscore e.2 <= fscore default_performance)%R) →
       r = (0%R, default_performance)).
Proof.
  cbv zeta. unfold best_thresh.
  destruct (best_fold (of_Z 0, default_performance) all_thresh)
    as (Hr & Hacc & Hall).
  cbv zeta in *. split; [exact Hr|]. split; [exact Hacc|]. split; [exact Hall|].
  intros Hle. clear Hr Hacc Hall.
  induction all_thresh as [|it l IH]; cbn [foldl]; [done|].
  change (flt (fscore (of_Z 0, default_performance).2) (fscore it.2))
    with (Rltb (fscore default_performance) (fscore it.2)).
  destruct (Rltb _ _) eqn:Hlt.
  - apply Rltb_true in Hlt. specialize (Hle it (list_elem_of_here _ _)). lra.
  - apply IH. intros e He. apply Hle. by right.
Qed.
End BestThreshold.
